(** * Quantification functions for ADDs (cuddAddAbs.c)

    A shallow embedding of the abstraction operators of
    [resources/3rdparty/cudd-3.0.0/cudd/cuddAddAbs.c] and the properties
    the specification states about them.

    Decision diagrams are hash-consed in the C code: one physical node
    exists per [(index, then, else)] triple, so pointer equality is
    structural equality.  A diagram is therefore embedded as a tree and
    [==] on [DdNode *] as the boolean equality of trees.  Leaf values
    ([CUDD_VALUE_TYPE]) are embedded as integers. *)

From Stdlib Require Import ZArith List Bool Lia PeanoNat String.
Import ListNotations.
Open Scope Z_scope.

(** ** Nodes of arithmetic diagrams *)

Inductive DdNode : Type :=
| Const (value : Z)
| Node (index : nat) (T E : DdNode).

Definition DD_ONE : DdNode := Const 1.
Definition DD_ZERO : DdNode := Const 0.

Definition cuddIsConstant (f : DdNode) : bool :=
  match f with Const _ => true | Node _ _ _ => false end.

Fixpoint DdNode_eqb (f g : DdNode) : bool :=
  match f, g with
  | Const a, Const b => Z.eqb a b
  | Node i t e, Node j t' e' =>
      Nat.eqb i j && DdNode_eqb t t' && DdNode_eqb e e'
  | _, _ => false
  end.

(** An assignment gives a boolean to every variable index. *)
Definition assignment := nat -> bool.

Definition upd (a : assignment) (x : nat) (b : bool) : assignment :=
  fun y => if Nat.eqb y x then b else a y.

Fixpoint eval (f : DdNode) (a : assignment) : Z :=
  match f with
  | Const v => v
  | Node i t e => if a i then eval t a else eval e a
  end.

(** Cofactor of [f] with respect to variable [x] set to [b]. *)
Fixpoint cofactor (f : DdNode) (x : nat) (b : bool) : DdNode :=
  match f with
  | Const v => Const v
  | Node i t e =>
      if Nat.eqb i x then (if b then cofactor t x b else cofactor e x b)
      else Node i (cofactor t x b) (cofactor e x b)
  end.

(** ** Nodes of boolean diagrams, with complement edges

    The then-child of a node is always a regular pointer; the else-child
    and every external reference may carry the complement tag. *)

Inductive BddNode : Type :=
| BOne
| BNode (index : nat) (T : BddNode) (Ecompl : bool) (E : BddNode).

(** A reference: the complement bit of the pointer and the node it
    points to. *)
Definition BddRef : Type := (bool * BddNode)%type.

Definition Cudd_Not (r : BddRef) : BddRef := (negb (fst r), snd r).
Definition Cudd_Regular (r : BddRef) : BddNode := snd r.
Definition Cudd_IsComplement (r : BddRef) : bool := fst r.
Definition regular (n : BddNode) : BddRef := (false, n).

Definition one : BddRef := regular BOne.
Definition logicalZero : BddRef := Cudd_Not one.

Fixpoint BddNode_eqb (f g : BddNode) : bool :=
  match f, g with
  | BOne, BOne => true
  | BNode i t c e, BNode j t' c' e' =>
      Nat.eqb i j && BddNode_eqb t t' && Bool.eqb c c' && BddNode_eqb e e'
  | _, _ => false
  end.

Definition BddRef_eqb (r s : BddRef) : bool :=
  Bool.eqb (fst r) (fst s) && BddNode_eqb (snd r) (snd s).

Fixpoint evalN (n : BddNode) (a : assignment) : bool :=
  match n with
  | BOne => true
  | BNode i t c e => if a i then evalN t a else xorb c (evalN e a)
  end.

Definition evalB (r : BddRef) (a : assignment) : bool :=
  xorb (fst r) (evalN (snd r) a).

(** ** Operators and cache tags *)

(** The binary operators handed to [cuddAddApplyRecur]. *)
Inductive DD_AOP : Type :=
| Cudd_addPlus
| Cudd_addTimes
| Cudd_addOr
| Cudd_addMinimum
| Cudd_addMinimumExcept0
| Cudd_addMaximum.

(** The comparison operators handed to [cuddAddToBddApplyRecur]. *)
Inductive DD_AOP_BDD : Type :=
| Cudd_addToBddLessThanEquals
| Cudd_addToBddGreaterThanEquals.

(** The computed table is keyed by the address of a function; the tags
    below are the addresses the recursions pass to [cuddCacheLookup2] and
    [cuddCacheInsert2]. *)
Inductive DD_CTFP : Type :=
| TAG_Cudd_addExistAbstract
| TAG_Cudd_addUnivAbstract
| TAG_Cudd_addOrAbstract
| TAG_Cudd_addMinAbstract
| TAG_Cudd_addMaxAbstract
| TAG_Cudd_addMinAbstractRepresentative
| TAG_Cudd_addMaxAbstractRepresentative.

Definition DD_CTFP_eqb (s t : DD_CTFP) : bool :=
  match s, t with
  | TAG_Cudd_addExistAbstract, TAG_Cudd_addExistAbstract
  | TAG_Cudd_addUnivAbstract, TAG_Cudd_addUnivAbstract
  | TAG_Cudd_addOrAbstract, TAG_Cudd_addOrAbstract
  | TAG_Cudd_addMinAbstract, TAG_Cudd_addMinAbstract
  | TAG_Cudd_addMaxAbstract, TAG_Cudd_addMaxAbstract
  | TAG_Cudd_addMinAbstractRepresentative,
    TAG_Cudd_addMinAbstractRepresentative
  | TAG_Cudd_addMaxAbstractRepresentative,
    TAG_Cudd_addMaxAbstractRepresentative => true
  | _, _ => false
  end.

(** Leaf-wise meaning of the binary operators. *)
Definition aop_leaf (op : DD_AOP) (a b : Z) : Z :=
  match op with
  | Cudd_addPlus => a + b
  | Cudd_addTimes => a * b
  | Cudd_addOr => if (a =? 1) || (b =? 1) then 1 else 0
  | Cudd_addMinimum => if a <=? b then a else b
  | Cudd_addMinimumExcept0 =>
      if a =? 0 then b else if b =? 0 then a
      else if a <=? b then a else b
  | Cudd_addMaximum => if a >=? b then a else b
  end.

Definition bop_leaf (op : DD_AOP_BDD) (a b : Z) : bool :=
  match op with
  | Cudd_addToBddLessThanEquals => a <=? b
  | Cudd_addToBddGreaterThanEquals => a >=? b
  end.

Fixpoint depthB (n : BddNode) : nat :=
  match n with
  | BOne => O
  | BNode _ t _ e => S (Nat.max (depthB t) (depthB e))
  end.

Section Order.

(** [perm] is the manager's map from variable index to its level in the
    current order ([cuddI(manager, index)]); constants sit below every
    variable ([CUDD_CONST_INDEX]). *)
Variable perm : nat -> nat.

(** [cuddI(manager, f->index) > cuddI(manager, ci)] *)
Definition cuddI_gt (f : DdNode) (ci : nat) : bool :=
  match f with
  | Const _ => true
  | Node fi _ _ => Nat.ltb (perm ci) (perm fi)
  end.

(** ** The peer primitives, as pure functions *)

(** Modelled from the spec: the node store's [canonicalize] as the
    recursive operators use it, [(T == E) ? T : cuddUniqueInter(...)];
    cuddUniqueInter itself is not in this file of the repository. *)
Definition addMk (index : nat) (t e : DdNode) : DdNode :=
  if DdNode_eqb t e then t else Node index t e.

(** Modelled from the spec: cuddAddApplyRecur, the peer primitive
    [combine(op, a, b)]: a recursive operator over both operands that
    splits on the earlier top variable, applies [op] at the leaves and
    canonicalizes every node it builds. *)
Fixpoint addApply (op : DD_AOP) (f : DdNode) : DdNode -> DdNode :=
  fix applyg (g : DdNode) : DdNode :=
    match f, g with
    | Const a, Const b => Const (aop_leaf op a b)
    | Const _, Node gi gt ge => addMk gi (applyg gt) (applyg ge)
    | Node fi ft fe, Const _ =>
        addMk fi (addApply op ft g) (addApply op fe g)
    | Node fi ft fe, Node gi gt ge =>
        if Nat.ltb (perm fi) (perm gi) then
          addMk fi (addApply op ft g) (addApply op fe g)
        else if Nat.ltb (perm gi) (perm fi) then
          addMk gi (applyg gt) (applyg ge)
        else addMk fi (addApply op ft gt) (addApply op fe ge)
    end.

(** Canonical boolean node: equal children collapse, and the then-edge
    is kept regular by pushing a complement to the result. *)
Definition bddMk (index : nat) (t e : BddRef) : BddRef :=
  if BddRef_eqb t e then t
  else if Cudd_IsComplement t
       then Cudd_Not (regular (BNode index (snd t) (negb (fst e)) (snd e)))
       else regular (BNode index (snd t) (fst e) (snd e)).

(** Modelled from the spec: cuddAddToBddApplyRecur, the peer comparison
    [<=] / [>=] of two arithmetic diagrams, with a boolean diagram as
    result. *)
Fixpoint addToBddApply (op : DD_AOP_BDD) (f : DdNode) : DdNode -> BddRef :=
  fix applyg (g : DdNode) : BddRef :=
    match f, g with
    | Const a, Const b => if bop_leaf op a b then one else logicalZero
    | Const _, Node gi gt ge => bddMk gi (applyg gt) (applyg ge)
    | Node fi ft fe, Const _ =>
        bddMk fi (addToBddApply op ft g) (addToBddApply op fe g)
    | Node fi ft fe, Node gi gt ge =>
        if Nat.ltb (perm fi) (perm gi) then
          bddMk fi (addToBddApply op ft g) (addToBddApply op fe g)
        else if Nat.ltb (perm gi) (perm fi) then
          bddMk gi (applyg gt) (applyg ge)
        else bddMk fi (addToBddApply op ft gt) (addToBddApply op fe ge)
    end.

(** The two cofactors of a reference with respect to variable [v], when
    [v] is its top variable; the reference itself otherwise. *)
Definition bddCof (v : nat) (r : BddRef) : BddRef * BddRef :=
  match snd r with
  | BOne => (r, r)
  | BNode i t c e =>
      if Nat.eqb i v then ((fst r, t), (xorb (fst r) c, e)) else (r, r)
  end.

(** The earlier of [v] and the top variable of [r]. *)
Definition bddTop (v : nat) (r : BddRef) : nat :=
  match snd r with
  | BOne => v
  | BNode i _ _ _ => if Nat.ltb (perm i) (perm v) then i else v
  end.

Fixpoint bddIte_fuel (n : nat) (f g h : BddRef) : BddRef :=
  match n with
  | O => logicalZero
  | S n' =>
      match snd f with
      | BOne => if Cudd_IsComplement f then h else g
      | BNode fi _ _ _ =>
          let v := bddTop (bddTop fi g) h in
          let '(ft, fe) := bddCof v f in
          let '(gt, ge) := bddCof v g in
          let '(ht, he) := bddCof v h in
          bddMk v (bddIte_fuel n' ft gt ht) (bddIte_fuel n' fe ge he)
      end
  end.

(** Modelled from the spec: cuddBddIteRecur, the peer if-then-else of
    boolean diagrams, by expansion on the earliest top variable of the
    three operands. *)
Definition bddIte (f g h : BddRef) : BddRef :=
  bddIte_fuel (S (depthB (snd f) + depthB (snd g) + depthB (snd h))) f g h.

End Order.

(** ** The effects of the recursions

    The recursive steps read and write the computed table, may be told
    to give up, and call the unique table and the peer operators, any of
    which may return [NULL].  They are written once, over an interface
    [DdMonad]; [bind] is [if (res == NULL) return(NULL)].  Reference
    counts are not part of the embedding. *)

Class DdMonad (M : Type -> Type) : Type := {
  ret : forall {A : Type}, A -> M A;
  bind : forall {A B : Type}, M A -> (A -> M B) -> M B;
  (** the computed table, for results that are arithmetic diagrams *)
  cuddCacheLookup2 : DD_CTFP -> DdNode -> DdNode -> M (option DdNode);
  cuddCacheInsert2 : DD_CTFP -> DdNode -> DdNode -> DdNode -> M unit;
  (** the computed table, for results that are boolean references *)
  cuddCacheLookup2B : DD_CTFP -> DdNode -> DdNode -> M (option BddRef);
  cuddCacheInsert2B : DD_CTFP -> DdNode -> DdNode -> BddRef -> M unit;
  checkWhetherToGiveUp : M unit;
  cuddUniqueInter : nat -> DdNode -> DdNode -> M DdNode;
  cuddAddApplyRecur : DD_AOP -> DdNode -> DdNode -> M DdNode;
  (** the unique table for boolean nodes: regular then-child *)
  cuddUniqueInterB : nat -> BddNode -> BddRef -> M BddRef;
  cuddAddToBddApplyRecur : DD_AOP_BDD -> DdNode -> DdNode -> M BddRef;
  cuddBddIteRecur : BddRef -> BddRef -> BddRef -> M BddRef
}.

Declare Scope dd_scope.
Notation "x <- c1 ;; c2" := (bind c1 (fun x => c2))
  (at level 61, c1 at next level, right associativity) : dd_scope.
Notation "c1 ;;; c2" := (bind c1 (fun _ => c2))
  (at level 61, right associativity) : dd_scope.
Open Scope dd_scope.

(** ** The recursive steps

    Every recursion takes the cube first and [f] second (the C functions
    take [f], then [cube]): the cube shrinks in the vacuous and matching
    cases and [f] in the matching and pass-through cases. *)

Section Recursions.

Context {M : Type -> Type} {DM : DdMonad M}.
Variable perm : nat -> nat.

Fixpoint cuddAddExistAbstractRecur (cube : DdNode) : DdNode -> M DdNode :=
  match cube with
  | Const _ => fun f => ret f
  | Node ci cT cE =>
      fix recur (f : DdNode) : M DdNode :=
        if DdNode_eqb f DD_ZERO then ret f
        else if cuddI_gt perm f ci then
          res1 <- cuddAddExistAbstractRecur cT f ;;
          cuddAddApplyRecur Cudd_addPlus res1 res1
        else
          hit <- cuddCacheLookup2 TAG_Cudd_addExistAbstract f
                   (Node ci cT cE) ;;
          match hit with
          | Some res => ret res
          | None =>
              checkWhetherToGiveUp ;;;
              match f with
              | Const _ => ret f
              | Node fi T E =>
                  if Nat.eqb fi ci then
                    res1 <- cuddAddExistAbstractRecur cT T ;;
                    res2 <- cuddAddExistAbstractRecur cT E ;;
                    res <- cuddAddApplyRecur Cudd_addPlus res1 res2 ;;
                    cuddCacheInsert2 TAG_Cudd_addExistAbstract f
                      (Node ci cT cE) res ;;;
                    ret res
                  else
                    res1 <- recur T ;;
                    res2 <- recur E ;;
                    res <- (if DdNode_eqb res1 res2 then ret res1
                            else cuddUniqueInter fi res1 res2) ;;
                    cuddCacheInsert2 TAG_Cudd_addExistAbstract f
                      (Node ci cT cE) res ;;;
                    ret res
              end
          end
  end.

Fixpoint cuddAddUnivAbstractRecur (cube : DdNode) : DdNode -> M DdNode :=
  match cube with
  | Const c => fun f =>
      (* f == zero || f == one || cube == one; a constant cube other
         than one is excluded by addCheckPositiveCube *)
      ret f
  | Node ci cT cE =>
      fix recur (f : DdNode) : M DdNode :=
        if DdNode_eqb f DD_ZERO || DdNode_eqb f DD_ONE then ret f
        else if cuddI_gt perm f ci then
          res1 <- cuddAddUnivAbstractRecur cT f ;;
          cuddAddApplyRecur Cudd_addTimes res1 res1
        else
          hit <- cuddCacheLookup2 TAG_Cudd_addUnivAbstract f
                   (Node ci cT cE) ;;
          match hit with
          | Some res => ret res
          | None =>
              checkWhetherToGiveUp ;;;
              match f with
              | Const _ => ret f
              | Node fi T E =>
                  if Nat.eqb fi ci then
                    res1 <- cuddAddUnivAbstractRecur cT T ;;
                    res2 <- cuddAddUnivAbstractRecur cT E ;;
                    res <- cuddAddApplyRecur Cudd_addTimes res1 res2 ;;
                    cuddCacheInsert2 TAG_Cudd_addUnivAbstract f
                      (Node ci cT cE) res ;;;
                    ret res
                  else
                    res1 <- recur T ;;
                    res2 <- recur E ;;
                    res <- (if DdNode_eqb res1 res2 then ret res1
                            else cuddUniqueInter fi res1 res2) ;;
                    cuddCacheInsert2 TAG_Cudd_addUnivAbstract f
                      (Node ci cT cE) res ;;;
                    ret res
              end
          end
  end.

Fixpoint cuddAddOrAbstractRecur (cube : DdNode) : DdNode -> M DdNode :=
  match cube with
  | Const _ => fun f => ret f
  | Node ci cT cE =>
      fix recur (f : DdNode) : M DdNode :=
        match f with
        | Const _ => ret f
        | Node fi T E =>
            if cuddI_gt perm f ci then cuddAddOrAbstractRecur cT f
            else
              hit <- cuddCacheLookup2 TAG_Cudd_addOrAbstract f
                       (Node ci cT cE) ;;
              match hit with
              | Some res => ret res
              | None =>
                  checkWhetherToGiveUp ;;;
                  if Nat.eqb fi ci then
                    res1 <- cuddAddOrAbstractRecur cT T ;;
                    res <- (if negb (DdNode_eqb res1 DD_ONE) then
                              res2 <- cuddAddOrAbstractRecur cT E ;;
                              cuddAddApplyRecur Cudd_addOr res1 res2
                            else ret res1) ;;
                    cuddCacheInsert2 TAG_Cudd_addOrAbstract f
                      (Node ci cT cE) res ;;;
                    ret res
                  else
                    res1 <- recur T ;;
                    res2 <- recur E ;;
                    res <- (if DdNode_eqb res1 res2 then ret res1
                            else cuddUniqueInter fi res1 res2) ;;
                    cuddCacheInsert2 TAG_Cudd_addOrAbstract f
                      (Node ci cT cE) res ;;;
                    ret res
              end
        end
  end.

Fixpoint cuddAddMinAbstractRecur (cube : DdNode) : DdNode -> M DdNode :=
  match cube with
  | Const _ => fun f => ret f
  | Node ci cT cE =>
      fix recur (f : DdNode) : M DdNode :=
        if DdNode_eqb f DD_ZERO then ret f
        else if cuddI_gt perm f ci then cuddAddMinAbstractRecur cT f
        else
          hit <- cuddCacheLookup2 TAG_Cudd_addMinAbstract f
                   (Node ci cT cE) ;;
          match hit with
          | Some res => ret res
          | None =>
              match f with
              | Const _ => ret f
              | Node fi T E =>
                  if Nat.eqb fi ci then
                    res1 <- cuddAddMinAbstractRecur cT T ;;
                    res2 <- cuddAddMinAbstractRecur cT E ;;
                    res <- cuddAddApplyRecur Cudd_addMinimum res1 res2 ;;
                    cuddCacheInsert2 TAG_Cudd_addMinAbstract f
                      (Node ci cT cE) res ;;;
                    ret res
                  else
                    res1 <- recur T ;;
                    res2 <- recur E ;;
                    res <- (if DdNode_eqb res1 res2 then ret res1
                            else cuddUniqueInter fi res1 res2) ;;
                    cuddCacheInsert2 TAG_Cudd_addMinAbstract f
                      (Node ci cT cE) res ;;;
                    ret res
              end
          end
  end.

(** Not recursive: every inner call is to [cuddAddMinAbstractRecur], and
    the computed table is used under the tag of [Cudd_addMinAbstract]. *)
Definition cuddAddMinExcept0AbstractRecur (cube f : DdNode) : M DdNode :=
  if DdNode_eqb f DD_ZERO || cuddIsConstant cube then ret f
  else
    match cube with
    | Const _ => ret f
    | Node ci cT cE =>
        if cuddI_gt perm f ci then cuddAddMinAbstractRecur cT f
        else
          hit <- cuddCacheLookup2 TAG_Cudd_addMinAbstract f cube ;;
          match hit with
          | Some res => ret res
          | None =>
              match f with
              | Const _ => ret f
              | Node fi T E =>
                  if Nat.eqb fi ci then
                    res1 <- cuddAddMinAbstractRecur cT T ;;
                    res2 <- cuddAddMinAbstractRecur cT E ;;
                    res <- cuddAddApplyRecur Cudd_addMinimumExcept0
                             res1 res2 ;;
                    cuddCacheInsert2 TAG_Cudd_addMinAbstract f cube res ;;;
                    ret res
                  else
                    res1 <- cuddAddMinAbstractRecur cube T ;;
                    res2 <- cuddAddMinAbstractRecur cube E ;;
                    res <- (if DdNode_eqb res1 res2 then ret res1
                            else cuddUniqueInter fi res1 res2) ;;
                    cuddCacheInsert2 TAG_Cudd_addMinAbstract f cube res ;;;
                    ret res
              end
          end
    end.

Fixpoint cuddAddMaxAbstractRecur (cube : DdNode) : DdNode -> M DdNode :=
  match cube with
  | Const _ => fun f => ret f
  | Node ci cT cE =>
      fix recur (f : DdNode) : M DdNode :=
        if DdNode_eqb f DD_ZERO then ret f
        else if cuddI_gt perm f ci then cuddAddMaxAbstractRecur cT f
        else
          hit <- cuddCacheLookup2 TAG_Cudd_addMaxAbstract f
                   (Node ci cT cE) ;;
          match hit with
          | Some res => ret res
          | None =>
              match f with
              | Const _ => ret f
              | Node fi T E =>
                  if Nat.eqb fi ci then
                    res1 <- cuddAddMaxAbstractRecur cT T ;;
                    res2 <- cuddAddMaxAbstractRecur cT E ;;
                    res <- cuddAddApplyRecur Cudd_addMaximum res1 res2 ;;
                    cuddCacheInsert2 TAG_Cudd_addMaxAbstract f
                      (Node ci cT cE) res ;;;
                    ret res
                  else
                    res1 <- recur T ;;
                    res2 <- recur E ;;
                    res <- (if DdNode_eqb res1 res2 then ret res1
                            else cuddUniqueInter fi res1 res2) ;;
                    cuddCacheInsert2 TAG_Cudd_addMaxAbstract f
                      (Node ci cT cE) res ;;;
                    ret res
              end
          end
  end.

Fixpoint cuddAddMinAbstractRepresentativeRecur (cube : DdNode)
  : DdNode -> M BddRef :=
  match cube with
  | Const _ => fun _ => ret one
  | Node ci cT cE =>
      fix recur (f : DdNode) : M BddRef :=
        match f with
        | Const _ =>
            res <- cuddAddMinAbstractRepresentativeRecur cT f ;;
            (* We build in the negation ourselves. *)
            res1 <- cuddUniqueInterB ci BOne (Cudd_Not res) ;;
            ret (Cudd_Not res1)
        | Node fi T E =>
            if cuddI_gt perm f ci then
              res <- cuddAddMinAbstractRepresentativeRecur cT f ;;
              (* Fill in the missing variables to make representative
                 unique. *)
              res1 <- cuddUniqueInterB ci BOne (Cudd_Not res) ;;
              ret (Cudd_Not res1)
            else
              hit <- cuddCacheLookup2B TAG_Cudd_addMinAbstractRepresentative
                       f (Node ci cT cE) ;;
              match hit with
              | Some res => ret res
              | None =>
                  if Nat.eqb fi ci then
                    res1 <- cuddAddMinAbstractRepresentativeRecur cT E ;;
                    res2 <- cuddAddMinAbstractRepresentativeRecur cT T ;;
                    left <- cuddAddMinAbstractRecur cT E ;;
                    right <- cuddAddMinAbstractRecur cT T ;;
                    tmp <- cuddAddToBddApplyRecur
                             Cudd_addToBddLessThanEquals left right ;;
                    res1Inf <- cuddBddIteRecur tmp res1 logicalZero ;;
                    res2Inf <- cuddBddIteRecur (Cudd_Not tmp) res2
                                 logicalZero ;;
                    let compl := if BddRef_eqb res1Inf res2Inf then true
                                 else Cudd_IsComplement res2Inf in
                    res <- (if BddRef_eqb res1Inf res2Inf
                            then cuddUniqueInterB fi BOne (Cudd_Not res1Inf)
                            else cuddUniqueInterB fi (Cudd_Regular res2Inf)
                                   (if compl then Cudd_Not res1Inf
                                    else res1Inf)) ;;
                    let res := if compl then Cudd_Not res else res in
                    cuddCacheInsert2B TAG_Cudd_addMinAbstractRepresentative
                      f (Node ci cT cE) res ;;;
                    ret res
                  else
                    res1 <- recur E ;;
                    res2 <- recur T ;;
                    let compl := if BddRef_eqb res1 res2 then true
                                 else Cudd_IsComplement res2 in
                    res <- (if BddRef_eqb res1 res2
                            then cuddUniqueInterB fi BOne (Cudd_Not res1)
                            else cuddUniqueInterB fi (Cudd_Regular res2)
                                   (Cudd_Not res1)) ;;
                    let res := if compl then Cudd_Not res else res in
                    cuddCacheInsert2B TAG_Cudd_addMinAbstractRepresentative
                      f (Node ci cT cE) res ;;;
                    ret res
              end
        end
  end.

Fixpoint cuddAddMaxAbstractRepresentativeRecur (cube : DdNode)
  : DdNode -> M BddRef :=
  match cube with
  | Const _ => fun _ => ret one
  | Node ci cT cE =>
      fix recur (f : DdNode) : M BddRef :=
        match f with
        | Const _ =>
            res <- cuddAddMaxAbstractRepresentativeRecur cT f ;;
            (* We build in the negation ourselves. *)
            res1 <- cuddUniqueInterB ci BOne (Cudd_Not res) ;;
            ret (Cudd_Not res1)
        | Node fi T E =>
            if cuddI_gt perm f ci then
              res <- cuddAddMaxAbstractRepresentativeRecur cT f ;;
              (* Fill in the missing variables to make representative
                 unique. *)
              res1 <- cuddUniqueInterB ci BOne (Cudd_Not res) ;;
              ret (Cudd_Not res1)
            else
              hit <- cuddCacheLookup2B TAG_Cudd_addMaxAbstractRepresentative
                       f (Node ci cT cE) ;;
              match hit with
              | Some res => ret res
              | None =>
                  if Nat.eqb fi ci then
                    res1 <- cuddAddMaxAbstractRepresentativeRecur cT E ;;
                    res2 <- cuddAddMaxAbstractRepresentativeRecur cT T ;;
                    left <- cuddAddMaxAbstractRecur cT E ;;
                    right <- cuddAddMaxAbstractRecur cT T ;;
                    tmp <- cuddAddToBddApplyRecur
                             Cudd_addToBddGreaterThanEquals left right ;;
                    res1Inf <- cuddBddIteRecur tmp res1 logicalZero ;;
                    res2Inf <- cuddBddIteRecur (Cudd_Not tmp) res2
                                 logicalZero ;;
                    let compl := if BddRef_eqb res1Inf res2Inf then true
                                 else Cudd_IsComplement res2Inf in
                    res <- (if BddRef_eqb res1Inf res2Inf
                            then cuddUniqueInterB fi BOne (Cudd_Not res1Inf)
                            else cuddUniqueInterB fi (Cudd_Regular res2Inf)
                                   (if compl then Cudd_Not res1Inf
                                    else res1Inf)) ;;
                    let res := if compl then Cudd_Not res else res in
                    cuddCacheInsert2B TAG_Cudd_addMaxAbstractRepresentative
                      f (Node ci cT cE) res ;;;
                    ret res
                  else
                    res1 <- recur E ;;
                    res2 <- recur T ;;
                    let compl := if BddRef_eqb res1 res2 then true
                                 else Cudd_IsComplement res2 in
                    res <- (if BddRef_eqb res1 res2
                            then cuddUniqueInterB fi BOne (Cudd_Not res1)
                            else cuddUniqueInterB fi (Cudd_Regular res2)
                                   (if compl then Cudd_Not res1
                                    else res1)) ;;
                    let res := if compl then Cudd_Not res else res in
                    cuddCacheInsert2B TAG_Cudd_addMaxAbstractRepresentative
                      f (Node ci cT cE) res ;;;
                    ret res
              end
        end
  end.

(** A [DdNode *] as an entry point receives it: the complement tag of
    the pointer and the node.  The children of the nodes of an
    arithmetic diagram are regular pointers. *)
Definition DdPtr : Type := (bool * DdNode)%type.

Fixpoint addCheckPositiveCube_regular (cube : DdNode) : bool :=
  match cube with
  | Const v =>
      (* cube == DD_ONE: valid; any other constant: invalid *)
      Z.eqb v 1
  | Node _ cT cE =>
      if DdNode_eqb cE DD_ZERO then addCheckPositiveCube_regular cT
      else false
  end.

Definition addCheckPositiveCube (cube : DdPtr) : bool :=
  if fst cube then false else addCheckPositiveCube_regular (snd cube).

End Recursions.

(** ** The pure reading of the recursions

    With a computed table that never hits and primitives that never
    return [NULL], a recursion is a function from diagrams to
    diagrams. *)

Definition Pure (A : Type) : Type := A.

Definition PureDd (perm : nat -> nat) : DdMonad Pure := {|
  ret := fun A (a : A) => a;
  bind := fun A B (c : A) (k : A -> B) => k c;
  cuddCacheLookup2 := fun _ _ _ => None;
  cuddCacheInsert2 := fun _ _ _ _ => tt;
  cuddCacheLookup2B := fun _ _ _ => None;
  cuddCacheInsert2B := fun _ _ _ _ => tt;
  checkWhetherToGiveUp := tt;
  cuddUniqueInter := fun i t e => Node i t e;
  cuddAddApplyRecur := addApply perm;
  cuddUniqueInterB := fun i t e => regular (BNode i t (fst e) (snd e));
  cuddAddToBddApplyRecur := addToBddApply perm;
  cuddBddIteRecur := bddIte perm
|}.

(** ** The manager *)

Inductive Cudd_ErrorType : Type :=
| CUDD_NO_ERROR
| CUDD_MEMORY_OUT
| CUDD_TIMEOUT_EXPIRED.

(** What the next call into the unique table, a peer operator or the
    deadline poll meets. *)
Inductive Event : Type :=
| EvOk
| EvReorder
| EvMemoryOut
| EvTimeout.

Inductive CacheVal : Type :=
| AddVal (res : DdNode)
| BddVal (res : BddRef).

Definition CacheKey : Type := (DD_CTFP * DdNode * DdNode)%type.

Definition CacheKey_eqb (k k' : CacheKey) : bool :=
  let '(op, f, g) := k in
  let '(op', f', g') := k' in
  DD_CTFP_eqb op op' && DdNode_eqb f f' && DdNode_eqb g g'.

Record DdManager : Type := mkManager {
  cache : list (CacheKey * CacheVal);
  reordered : bool;
  errorCode : Cudd_ErrorType;
  (** whether a timeout handler is installed, and how often it ran *)
  timeoutHandler : bool;
  timeoutHandlerCalls : nat;
  (** what was printed to [manager->err] *)
  err : list string;
  (** Modelled from the spec: reordering, allocation failure and the
      deadline are events the primitives meet, one per call, in the
      order given here; once the list is used up every call succeeds. *)
  events : list Event
}.

Definition set_cache (c : list (CacheKey * CacheVal)) (m : DdManager) :=
  mkManager c (reordered m) (errorCode m) (timeoutHandler m)
            (timeoutHandlerCalls m) (err m) (events m).
Definition set_reordered (b : bool) (m : DdManager) :=
  mkManager (cache m) b (errorCode m) (timeoutHandler m)
            (timeoutHandlerCalls m) (err m) (events m).
Definition set_errorCode (e : Cudd_ErrorType) (m : DdManager) :=
  mkManager (cache m) (reordered m) e (timeoutHandler m)
            (timeoutHandlerCalls m) (err m) (events m).
Definition set_events (es : list Event) (m : DdManager) :=
  mkManager (cache m) (reordered m) (errorCode m) (timeoutHandler m)
            (timeoutHandlerCalls m) (err m) es.
Definition call_timeoutHandler (m : DdManager) :=
  mkManager (cache m) (reordered m) (errorCode m) (timeoutHandler m)
            (S (timeoutHandlerCalls m)) (err m) (events m).
Definition fprintf_err (s : string) (m : DdManager) :=
  mkManager (cache m) (reordered m) (errorCode m) (timeoutHandler m)
            (timeoutHandlerCalls m) (err m ++ [s]) (events m).

(** A computation on the manager; [None] is [NULL]. *)
Definition DdM (A : Type) : Type := DdManager -> option A * DdManager.

Fixpoint cache_find (k : CacheKey) (c : list (CacheKey * CacheVal))
  : option CacheVal :=
  match c with
  | [] => None
  | (k', v) :: c' => if CacheKey_eqb k k' then Some v else cache_find k c'
  end.

(** A call that may reorder, run out of memory or out of time. *)
Definition primitive {A : Type} (v : A) : DdM A :=
  fun m =>
    match events m with
    | [] => (Some v, m)
    | EvOk :: es => (Some v, set_events es m)
    | EvReorder :: es => (None, set_reordered true (set_events es m))
    | EvMemoryOut :: es =>
        (None, set_errorCode CUDD_MEMORY_OUT (set_events es m))
    | EvTimeout :: es =>
        (None, set_errorCode CUDD_TIMEOUT_EXPIRED (set_events es m))
    end.

(** The deadline poll: only the deadline makes it give up. *)
Definition poll : DdM unit :=
  fun m =>
    match events m with
    | EvTimeout :: es =>
        (None, set_errorCode CUDD_TIMEOUT_EXPIRED (set_events es m))
    | _ => (Some tt, m)
    end.

Definition ManagerDd (perm : nat -> nat) : DdMonad DdM := {|
  ret := fun A (a : A) m => (Some a, m);
  bind := fun A B (c : DdM A) (k : A -> DdM B) m =>
            match c m with
            | (Some a, m') => k a m'
            | (None, m') => (None, m')
            end;
  cuddCacheLookup2 := fun op f g m =>
    (Some match cache_find (op, f, g) (cache m) with
          | Some (AddVal r) => Some r
          | _ => None
          end, m);
  cuddCacheInsert2 := fun op f g r m =>
    (Some tt, set_cache (((op, f, g), AddVal r) :: cache m) m);
  cuddCacheLookup2B := fun op f g m =>
    (Some match cache_find (op, f, g) (cache m) with
          | Some (BddVal r) => Some r
          | _ => None
          end, m);
  cuddCacheInsert2B := fun op f g r m =>
    (Some tt, set_cache (((op, f, g), BddVal r) :: cache m) m);
  checkWhetherToGiveUp := poll;
  cuddUniqueInter := fun i t e => primitive (Node i t e);
  cuddAddApplyRecur := fun op f g => primitive (addApply perm op f g);
  cuddUniqueInterB := fun i t e =>
    primitive (regular (BNode i t (fst e) (snd e)));
  cuddAddToBddApplyRecur := fun op f g =>
    primitive (addToBddApply perm op f g);
  cuddBddIteRecur := fun f g h => primitive (bddIte perm f g h)
|}.

(** ** The exported functions *)

Definition Cudd_ErrorType_eqb (a b : Cudd_ErrorType) : bool :=
  match a, b with
  | CUDD_NO_ERROR, CUDD_NO_ERROR
  | CUDD_MEMORY_OUT, CUDD_MEMORY_OUT
  | CUDD_TIMEOUT_EXPIRED, CUDD_TIMEOUT_EXPIRED => true
  | _, _ => false
  end.

(** [do { manager->reordered = 0; res = recur; }
     while (manager->reordered == 1);]
    Every repetition follows a reordering event, so the loop runs at
    most once more than there are events left; [fuel] counts the
    repetitions still allowed. *)
Fixpoint do_while_reordered {A : Type} (fuel : nat) (recur : DdM A)
  : DdM A :=
  fun m =>
    let '(res, m') := recur (set_reordered false m) in
    if reordered m' then
      match fuel with
      | O => (None, m')
      | S fuel' => do_while_reordered fuel' recur m'
      end
    else (res, m').

(** [if (manager->errorCode == CUDD_TIMEOUT_EXPIRED &&
         manager->timeoutHandler)
       manager->timeoutHandler(manager, manager->tohArg);] *)
Definition run_timeoutHandler (m : DdManager) : DdManager :=
  if Cudd_ErrorType_eqb (errorCode m) CUDD_TIMEOUT_EXPIRED
     && timeoutHandler m
  then call_timeoutHandler m else m.

Section Exported.

Variable perm : nat -> nat.

Definition Cudd_addExistAbstract (f : DdNode) (cube : DdPtr)
  : DdM DdNode :=
  fun manager =>
    if negb (addCheckPositiveCube cube) then
      (None, fprintf_err "Error: Can only abstract cubes" manager)
    else
      let '(res, manager) :=
        do_while_reordered (List.length (events manager))
          (cuddAddExistAbstractRecur (DM := ManagerDd perm) perm
             (snd cube) f) manager in
      (res, run_timeoutHandler manager).

Definition Cudd_addUnivAbstract (f : DdNode) (cube : DdPtr)
  : DdM DdNode :=
  fun manager =>
    if negb (addCheckPositiveCube cube) then
      (None, fprintf_err "Error:  Can only abstract cubes" manager)
    else
      let '(res, manager) :=
        do_while_reordered (List.length (events manager))
          (cuddAddUnivAbstractRecur (DM := ManagerDd perm) perm
             (snd cube) f) manager in
      (res, run_timeoutHandler manager).

Definition Cudd_addOrAbstract (f : DdNode) (cube : DdPtr)
  : DdM DdNode :=
  fun manager =>
    if negb (addCheckPositiveCube cube) then
      (None, fprintf_err "Error: Can only abstract cubes" manager)
    else
      let '(res, manager) :=
        do_while_reordered (List.length (events manager))
          (cuddAddOrAbstractRecur (DM := ManagerDd perm) perm
             (snd cube) f) manager in
      (res, run_timeoutHandler manager).

Definition Cudd_addMinAbstract (f : DdNode) (cube : DdPtr)
  : DdM DdNode :=
  fun manager =>
    if negb (addCheckPositiveCube cube) then
      (None, fprintf_err "Error: Can only abstract cubes" manager)
    else
      do_while_reordered (List.length (events manager))
        (cuddAddMinAbstractRecur (DM := ManagerDd perm) perm
           (snd cube) f) manager.

Definition Cudd_addMinExcept0Abstract (f : DdNode) (cube : DdPtr)
  : DdM DdNode :=
  fun manager =>
    if negb (addCheckPositiveCube cube) then
      (None, fprintf_err "Error: Can only abstract cubes" manager)
    else
      do_while_reordered (List.length (events manager))
        (cuddAddMinExcept0AbstractRecur (DM := ManagerDd perm) perm
           (snd cube) f) manager.

Definition Cudd_addMaxAbstract (f : DdNode) (cube : DdPtr)
  : DdM DdNode :=
  fun manager =>
    if negb (addCheckPositiveCube cube) then
      (None, fprintf_err "Error: Can only abstract cubes" manager)
    else
      do_while_reordered (List.length (events manager))
        (cuddAddMaxAbstractRecur (DM := ManagerDd perm) perm
           (snd cube) f) manager.

Definition Cudd_addMinAbstractRepresentative (f : DdNode) (cube : DdPtr)
  : DdM BddRef :=
  fun manager =>
    if negb (addCheckPositiveCube cube) then
      (None, fprintf_err "Error: Can only abstract cubes" manager)
    else
      do_while_reordered (List.length (events manager))
        (cuddAddMinAbstractRepresentativeRecur (DM := ManagerDd perm) perm
           (snd cube) f) manager.

Definition Cudd_addMaxAbstractRepresentative (f : DdNode) (cube : DdPtr)
  : DdM BddRef :=
  fun manager =>
    if negb (addCheckPositiveCube cube) then
      (None, fprintf_err "Error: Can only abstract cubes" manager)
    else
      do_while_reordered (List.length (events manager))
        (cuddAddMaxAbstractRepresentativeRecur (DM := ManagerDd perm) perm
           (snd cube) f) manager.

End Exported.

(** ** Notions used to state the properties *)

(** Leaf-wise negation of an arithmetic diagram. *)
Fixpoint negate (f : DdNode) : DdNode :=
  match f with
  | Const v => Const (- v)
  | Node i t e => Node i (negate t) (negate e)
  end.

(** The cube of the single variable [x]. *)
Definition cube_of_var (x : nat) : DdNode := Node x DD_ONE DD_ZERO.

(** Invariant 2 of the data model: along every edge the level grows. *)
Fixpoint ordered (perm : nat -> nat) (f : DdNode) : bool :=
  match f with
  | Const _ => true
  | Node i t e =>
      cuddI_gt perm t i && cuddI_gt perm e i
      && ordered perm t && ordered perm e
  end.

(** A positive cube, in the words of the specification. *)
Inductive PositiveCube : DdPtr -> Prop :=
| PositiveCube_one : PositiveCube (false, DD_ONE)
| PositiveCube_node (i : nat) (cT : DdNode) :
    PositiveCube (false, cT) -> PositiveCube (false, Node i cT DD_ZERO).

(** What a recomputation with an empty computed table yields for a key
    of the table. *)
Definition recomputed (perm : nat -> nat) (k : CacheKey) : CacheVal :=
  let '(op, f, cube) := k in
  match op with
  | TAG_Cudd_addExistAbstract =>
      AddVal (cuddAddExistAbstractRecur (DM := PureDd perm) perm cube f)
  | TAG_Cudd_addUnivAbstract =>
      AddVal (cuddAddUnivAbstractRecur (DM := PureDd perm) perm cube f)
  | TAG_Cudd_addOrAbstract =>
      AddVal (cuddAddOrAbstractRecur (DM := PureDd perm) perm cube f)
  | TAG_Cudd_addMinAbstract =>
      AddVal (cuddAddMinAbstractRecur (DM := PureDd perm) perm cube f)
  | TAG_Cudd_addMaxAbstract =>
      AddVal (cuddAddMaxAbstractRecur (DM := PureDd perm) perm cube f)
  | TAG_Cudd_addMinAbstractRepresentative =>
      BddVal (cuddAddMinAbstractRepresentativeRecur (DM := PureDd perm)
                perm cube f)
  | TAG_Cudd_addMaxAbstractRepresentative =>
      BddVal (cuddAddMaxAbstractRepresentativeRecur (DM := PureDd perm)
                perm cube f)
  end.

(** The computed table holds no stale entry: whatever it returns is what
    a recomputation would return. *)
Definition cache_ok (perm : nat -> nat) (c : list (CacheKey * CacheVal))
  : Prop :=
  forall k v, cache_find k c = Some v -> v = recomputed perm k.

(** A manager in which no reordering, allocation failure or deadline is
    pending and whose computed table holds no stale entry. *)
Definition quiet (perm : nat -> nat) (m : DdManager) : Prop :=
  events m = [] /\ cache_ok perm (cache m).

(** On a quiet manager the computation [c] returns [v], touches nothing
    but the computed table, and leaves the manager quiet. *)
Definition refines (perm : nat -> nat) {A : Type} (c : DdM A) (v : A)
  : Prop :=
  forall m, quiet perm m ->
    exists c', c m = (Some v, set_cache c' m) /\ cache_ok perm c'.

(** The node of an arithmetic diagram that a boolean reference points
    to, if any: the constant one is shared between both kinds of
    diagram, and a node is shared when its triple is. *)
Fixpoint add_of_bdd (n : BddNode) : option DdNode :=
  match n with
  | BOne => Some DD_ONE
  | BNode i t c e =>
      if c then None
      else match add_of_bdd t, add_of_bdd e with
           | Some t', Some e' => Some (Node i t' e')
           | _, _ => None
           end
  end.

Definition pointer_of (r : BddRef) : option DdNode :=
  if Cudd_IsComplement r then None else add_of_bdd (snd r).

(** The variables of a cube, from its top variable down. *)
Fixpoint cube_vars (cube : DdNode) : list nat :=
  match cube with
  | Const _ => []
  | Node i cT _ => i :: cube_vars cT
  end.

(** The values of [g] at all assignments that differ from [a] only on
    [vars], combined by [op]; for each variable the value with the
    variable true comes first. *)
Fixpoint fold_cube (op : Z -> Z -> Z) (vars : list nat)
         (g : assignment -> Z) (a : assignment) : Z :=
  match vars with
  | [] => g a
  | x :: xs =>
      op (fold_cube op xs g (upd a x true)) (fold_cube op xs g (upd a x false))
  end.

(** A 0-1 diagram: every leaf is zero or one. *)
Fixpoint zero_one (f : DdNode) : bool :=
  match f with
  | Const v => Z.eqb v 0 || Z.eqb v 1
  | Node _ t e => zero_one t && zero_one e
  end.

(** ** Concrete instances *)

(** The order in which variable [i] sits at level [i]. *)
Definition identity_order (i : nat) : nat := i.

(** A manager just initialised: empty computed table, no error, a
    timeout handler installed, nothing pending. *)
Definition fresh_manager : DdManager :=
  mkManager [] false CUDD_NO_ERROR true 0 [] [].

(** The same manager with the deadline about to expire. *)
Definition expiring_manager : DdManager :=
  mkManager [] false CUDD_NO_ERROR true 0 [] [EvTimeout].

(** [ite(x0, 2, 3)] *)
Definition f_x0 : DdNode := Node 0 (Const 2) (Const 3).

(** [ite(x0, 0, 3)] *)
Definition f_zero_three : DdNode := Node 0 (Const 0) (Const 3).

(** [ite(x0, ite(x1, 1, 5), ite(x1, 5, 1))] *)
Definition f_crossed : DdNode :=
  Node 0 (Node 1 (Const 1) (Const 5)) (Node 1 (Const 5) (Const 1)).

(** [ite(x0, ite(x1, 1, 5), ite(x1, 2, 7))] *)
Definition f_aligned : DdNode :=
  Node 0 (Node 1 (Const 1) (Const 5)) (Node 1 (Const 2) (Const 7)).

(** The manager a call of [Cudd_addMinAbstract] on a fresh manager
    leaves: its computed table is not empty. *)
Definition warm_manager : DdManager :=
  snd (Cudd_addMinAbstract identity_order f_crossed (false, cube_of_var 1)
         fresh_manager).

(** [ite(x0, ite(x1, 0, 1), 0)], a 0-1 diagram *)
Definition f_bits : DdNode :=
  Node 0 (Node 1 (Const 0) (Const 1)) (Const 0).

(** The assignment in which exactly the variables of [l] are true. *)
Definition only (l : list nat) : assignment :=
  fun x => existsb (Nat.eqb x) l.

(** What every step of a computation on the manager respects: the
    timeout handler is neither run nor replaced, nothing is printed,
    events are only used up, and the reordering flag is raised only by
    using one up. *)
Definition frame (m m' : DdManager) : Prop :=
  timeoutHandlerCalls m' = timeoutHandlerCalls m
  /\ timeoutHandler m' = timeoutHandler m
  /\ err m' = err m
  /\ (List.length (events m') <= List.length (events m))%nat
  /\ (reordered m = false -> reordered m' = true ->
      (List.length (events m') < List.length (events m))%nat).

Definition framed {A : Type} (c : DdM A) : Prop :=
  forall m, frame m (snd (c m)).

(** With no event pending, the computation [c] returns a result and
    touches nothing but the computed table, whatever the table holds. *)
Definition succeeds {A : Type} (c : DdM A) : Prop :=
  forall m, events m = [] ->
    exists v c', c m = (Some v, set_cache c' m).

(** * Properties *)

(** ** Pointer equality is equality of diagrams *)

Lemma DdNode_eqb_eq (f g : DdNode) : DdNode_eqb f g = true <-> f = g.
Proof.
  revert g; induction f as [a | i t IHt e IHe]; intros [b | j t' e']; simpl;
    try (split; [discriminate | congruence]).
  - rewrite Z.eqb_eq. split; congruence.
  - rewrite !andb_true_iff, Nat.eqb_eq, IHt, IHe.
    split; [intros [[-> ->] ->]; reflexivity | intros H; inversion H; auto].
Qed.

Lemma DdNode_eqb_refl (f : DdNode) : DdNode_eqb f f = true.
Proof. now apply DdNode_eqb_eq. Qed.

Lemma DdNode_eqb_neq (f g : DdNode) : DdNode_eqb f g = false <-> f <> g.
Proof.
  rewrite <- DdNode_eqb_eq. destruct (DdNode_eqb f g); split; congruence.
Qed.

Lemma BddNode_eqb_eq (f g : BddNode) : BddNode_eqb f g = true <-> f = g.
Proof.
  revert g; induction f as [| i t IHt c e IHe]; intros [| j t' c' e']; simpl;
    try (split; [discriminate | congruence]); try tauto.
  rewrite !andb_true_iff, Nat.eqb_eq, IHt, IHe, Bool.eqb_true_iff.
  split; [intros [[[-> ->] ->] ->]; reflexivity
         | intros H; inversion H; auto].
Qed.

Lemma BddRef_eqb_eq (r s : BddRef) : BddRef_eqb r s = true <-> r = s.
Proof.
  destruct r as [c n], s as [c' n']; unfold BddRef_eqb; simpl.
  rewrite andb_true_iff, Bool.eqb_true_iff, BddNode_eqb_eq.
  split; [intros [-> ->]; reflexivity | intros H; inversion H; auto].
Qed.

(** ** Meaning of the primitives *)

Lemma evalB_Cudd_Not (r : BddRef) (a : assignment) :
  evalB (Cudd_Not r) a = negb (evalB r a).
Proof.
  destruct r as [c n]; unfold evalB, Cudd_Not; simpl.
  now destruct c, (evalN n a).
Qed.

Lemma evalB_one (a : assignment) : evalB one a = true.
Proof. reflexivity. Qed.

Lemma evalB_logicalZero (a : assignment) : evalB logicalZero a = false.
Proof. reflexivity. Qed.

Lemma evalB_node (i : nat) (t : BddNode) (e : BddRef) (a : assignment) :
  evalB (regular (BNode i t (fst e) (snd e))) a
  = if a i then evalN t a else evalB e a.
Proof. unfold evalB; simpl. now destruct (a i). Qed.

Lemma eval_addMk (i : nat) (t e : DdNode) (a : assignment) :
  eval (addMk i t e) a = if a i then eval t a else eval e a.
Proof.
  unfold addMk. destruct (DdNode_eqb t e) eqn:H; simpl; [| reflexivity].
  apply DdNode_eqb_eq in H; subst. now destruct (a i).
Qed.

Lemma evalB_bddMk (i : nat) (t e : BddRef) (a : assignment) :
  evalB (bddMk i t e) a = if a i then evalB t a else evalB e a.
Proof.
  unfold bddMk. destruct (BddRef_eqb t e) eqn:H.
  - apply BddRef_eqb_eq in H; subst. now destruct (a i).
  - destruct t as [[|] t], e as [ce e]; unfold Cudd_IsComplement; simpl.
    + rewrite evalB_Cudd_Not. unfold evalB; simpl.
      destruct (a i), ce, (evalN t a), (evalN e a); reflexivity.
    + unfold evalB; simpl. now destruct (a i).
Qed.

Section Meaning.

Variable perm : nat -> nat.
Hypothesis perm_inj : forall i j, perm i = perm j -> i = j.

Lemma perm_same (i j : nat) :
  Nat.ltb (perm i) (perm j) = false -> Nat.ltb (perm j) (perm i) = false ->
  i = j.
Proof.
  rewrite !Nat.ltb_ge. intros H1 H2. apply perm_inj. lia.
Qed.

Lemma eval_addApply (op : DD_AOP) (f g : DdNode) (a : assignment) :
  eval (addApply perm op f g) a = aop_leaf op (eval f a) (eval g a).
Proof.
  revert g; induction f as [x | fi ft IHt fe IHe]; intros g;
    induction g as [y | gi gt IHgt ge IHge]; simpl.
  - reflexivity.
  - rewrite eval_addMk. simpl in IHgt, IHge. rewrite IHgt, IHge.
    now destruct (a gi).
  - rewrite eval_addMk, IHt, IHe. now destruct (a fi).
  - destruct (Nat.ltb (perm fi) (perm gi)) eqn:H1.
    + rewrite eval_addMk, IHt, IHe. simpl. now destruct (a fi).
    + destruct (Nat.ltb (perm gi) (perm fi)) eqn:H2.
      * rewrite eval_addMk. simpl in IHgt, IHge. rewrite IHgt, IHge.
        now destruct (a gi).
      * assert (fi = gi) by now apply perm_same. subst gi.
        rewrite eval_addMk, IHt, IHe. now destruct (a fi).
Qed.

Lemma evalB_addToBddApply (op : DD_AOP_BDD) (f g : DdNode)
      (a : assignment) :
  evalB (addToBddApply perm op f g) a = bop_leaf op (eval f a) (eval g a).
Proof.
  revert g; induction f as [x | fi ft IHt fe IHe]; intros g;
    induction g as [y | gi gt IHgt ge IHge]; simpl.
  - now destruct (bop_leaf op x y).
  - rewrite evalB_bddMk. simpl in IHgt, IHge. rewrite IHgt, IHge.
    now destruct (a gi).
  - rewrite evalB_bddMk, IHt, IHe. now destruct (a fi).
  - destruct (Nat.ltb (perm fi) (perm gi)) eqn:H1.
    + rewrite evalB_bddMk, IHt, IHe. simpl. now destruct (a fi).
    + destruct (Nat.ltb (perm gi) (perm fi)) eqn:H2.
      * rewrite evalB_bddMk. simpl in IHgt, IHge. rewrite IHgt, IHge.
        now destruct (a gi).
      * assert (fi = gi) by now apply perm_same. subst gi.
        rewrite evalB_bddMk, IHt, IHe. now destruct (a fi).
Qed.

End Meaning.

Lemma evalB_bddCof (v : nat) (r : BddRef) (a : assignment) :
  evalB r a
  = if a v then evalB (fst (bddCof v r)) a else evalB (snd (bddCof v r)) a.
Proof.
  destruct r as [c [| i t ce e]]; unfold bddCof; simpl.
  - now destruct (a v).
  - destruct (Nat.eqb i v) eqn:H; simpl.
    + apply Nat.eqb_eq in H; subst. unfold evalB; simpl.
      destruct (a v); [reflexivity |]. now rewrite xorb_assoc.
    + now destruct (a v).
Qed.

Lemma depthB_bddCof_le (v : nat) (r : BddRef) :
  (depthB (snd (fst (bddCof v r))) <= depthB (snd r))%nat
  /\ (depthB (snd (snd (bddCof v r))) <= depthB (snd r))%nat.
Proof.
  destruct r as [c [| i t ce e]]; unfold bddCof; simpl; [lia |].
  destruct (Nat.eqb i v); simpl; lia.
Qed.

Lemma depthB_bddCof_lt (v : nat) (r : BddRef) t ce e :
  snd r = BNode v t ce e ->
  (depthB (snd (fst (bddCof v r))) < depthB (snd r))%nat
  /\ (depthB (snd (snd (bddCof v r))) < depthB (snd r))%nat.
Proof.
  destruct r as [c n]; simpl; intros ->. unfold bddCof; simpl.
  rewrite Nat.eqb_refl; simpl; lia.
Qed.

Section IteMeaning.

Variable perm : nat -> nat.

Lemma bddTop_cases (v : nat) (r : BddRef) :
  bddTop perm v r = v
  \/ exists t ce e, snd r = BNode (bddTop perm v r) t ce e.
Proof.
  destruct r as [c [| i t ce e]]; unfold bddTop; simpl; [now left |].
  destruct (Nat.ltb (perm i) (perm v)); [right; eauto | now left].
Qed.

Lemma evalB_bddIte_fuel (a : assignment) (n : nat) :
  forall f g h : BddRef,
    (depthB (snd f) + depthB (snd g) + depthB (snd h) < n)%nat ->
    evalB (bddIte_fuel perm n f g h) a
    = if evalB f a then evalB g a else evalB h a.
Proof.
  induction n as [| n IH]; intros f g h Hn; [lia |].
  simpl. destruct (snd f) as [| fi ft fc fe] eqn:Hf.
  - destruct f as [[|] fn]; simpl in Hf; subst fn; reflexivity.
  - set (v := bddTop perm (bddTop perm fi g) h).
    pose proof (f_equal depthB Hf) as Hd.
    destruct (bddCof v f) as [f1 f0] eqn:Cf.
    destruct (bddCof v g) as [g1 g0] eqn:Cg.
    destruct (bddCof v h) as [h1 h0] eqn:Ch.
    pose proof (depthB_bddCof_le v f) as Lf.
    pose proof (depthB_bddCof_le v g) as Lg.
    pose proof (depthB_bddCof_le v h) as Lh.
    rewrite Cf in Lf; rewrite Cg in Lg; rewrite Ch in Lh; simpl in Lf, Lg, Lh.
    assert (Hdec :
      (depthB (snd f1) + depthB (snd g1) + depthB (snd h1) < n)%nat
      /\ (depthB (snd f0) + depthB (snd g0) + depthB (snd h0) < n)%nat).
    { destruct (bddTop_cases (bddTop perm fi g) h) as [Hh | (t & ce & e & Hh)].
      - destruct (bddTop_cases fi g) as [Hg | (t & ce & e & Hg)].
        + assert (Hv : fi = v) by (unfold v; congruence).
          rewrite Hv in Hf.
          pose proof (depthB_bddCof_lt v f _ _ _ Hf) as Hlt.
          rewrite Cf in Hlt; simpl in Hlt. lia.
        + assert (Hv : bddTop perm fi g = v) by (unfold v; congruence).
          rewrite Hv in Hg.
          pose proof (depthB_bddCof_lt v g _ _ _ Hg) as Hlt.
          rewrite Cg in Hlt; simpl in Hlt. lia.
      - pose proof (depthB_bddCof_lt v h _ _ _ Hh) as Hlt.
        rewrite Ch in Hlt; simpl in Hlt. lia. }
    destruct Hdec as [H1 H0].
    rewrite evalB_bddMk, (IH _ _ _ H1), (IH _ _ _ H0).
    rewrite (evalB_bddCof v f a), (evalB_bddCof v g a), (evalB_bddCof v h a).
    rewrite Cf, Cg, Ch; simpl. now destruct (a v).
Qed.

Lemma evalB_bddIte (f g h : BddRef) (a : assignment) :
  evalB (bddIte perm f g h) a = if evalB f a then evalB g a else evalB h a.
Proof. unfold bddIte. apply evalB_bddIte_fuel. lia. Qed.

End IteMeaning.

(** ** The cases of the recursions

    The equations below hold for every reading of the effects: they are
    the branches of the C functions, one lemma per branch. *)

Section Cases.

Context {M : Type -> Type} {DM : DdMonad M}.
Variable perm : nat -> nat.

Lemma exist_empty_cube (c : Z) (f : DdNode) :
  cuddAddExistAbstractRecur perm (Const c) f = ret f.
Proof. reflexivity. Qed.

Lemma exist_zero (cube : DdNode) :
  cuddAddExistAbstractRecur perm cube DD_ZERO = ret DD_ZERO.
Proof. destruct cube; reflexivity. Qed.

Lemma exist_vacuous (ci : nat) (cT cE f : DdNode) :
  DdNode_eqb f DD_ZERO = false -> cuddI_gt perm f ci = true ->
  cuddAddExistAbstractRecur perm (Node ci cT cE) f
  = (res1 <- cuddAddExistAbstractRecur perm cT f ;;
     cuddAddApplyRecur Cudd_addPlus res1 res1).
Proof.
  intros Hz Hgt. destruct f; cbn -[cuddI_gt DdNode_eqb];
    rewrite Hz, Hgt; reflexivity.
Qed.

Lemma exist_node (ci : nat) (cT cE : DdNode) (fi : nat) (T E : DdNode) :
  cuddI_gt perm (Node fi T E) ci = false ->
  cuddAddExistAbstractRecur perm (Node ci cT cE) (Node fi T E)
  = (hit <- cuddCacheLookup2 TAG_Cudd_addExistAbstract (Node fi T E)
              (Node ci cT cE) ;;
     match hit with
     | Some res => ret res
     | None =>
         checkWhetherToGiveUp ;;;
         if Nat.eqb fi ci then
           res1 <- cuddAddExistAbstractRecur perm cT T ;;
           res2 <- cuddAddExistAbstractRecur perm cT E ;;
           res <- cuddAddApplyRecur Cudd_addPlus res1 res2 ;;
           cuddCacheInsert2 TAG_Cudd_addExistAbstract (Node fi T E)
             (Node ci cT cE) res ;;;
           ret res
         else
           res1 <- cuddAddExistAbstractRecur perm (Node ci cT cE) T ;;
           res2 <- cuddAddExistAbstractRecur perm (Node ci cT cE) E ;;
           res <- (if DdNode_eqb res1 res2 then ret res1
                   else cuddUniqueInter fi res1 res2) ;;
           cuddCacheInsert2 TAG_Cudd_addExistAbstract (Node fi T E)
             (Node ci cT cE) res ;;;
           ret res
     end).
Proof.
  intros Hgt. cbn -[cuddI_gt]. rewrite Hgt. reflexivity.
Qed.


Lemma univ_empty_cube (c : Z) (f : DdNode) :
  cuddAddUnivAbstractRecur perm (Const c) f = ret f.
Proof. reflexivity. Qed.

Lemma univ_zero_one (cube f : DdNode) :
  DdNode_eqb f DD_ZERO || DdNode_eqb f DD_ONE = true ->
  cuddAddUnivAbstractRecur perm cube f = ret f.
Proof.
  intros H. destruct cube; [reflexivity |].
  destruct f; cbn -[DdNode_eqb]; rewrite H; reflexivity.
Qed.

Lemma univ_vacuous (ci : nat) (cT cE f : DdNode) :
  DdNode_eqb f DD_ZERO || DdNode_eqb f DD_ONE = false ->
  cuddI_gt perm f ci = true ->
  cuddAddUnivAbstractRecur perm (Node ci cT cE) f
  = (res1 <- cuddAddUnivAbstractRecur perm cT f ;;
     cuddAddApplyRecur Cudd_addTimes res1 res1).
Proof.
  intros Hz Hgt. destruct f; cbn -[cuddI_gt DdNode_eqb];
    rewrite Hz, Hgt; reflexivity.
Qed.

Lemma univ_node (ci : nat) (cT cE : DdNode) (fi : nat) (T E : DdNode) :
  cuddI_gt perm (Node fi T E) ci = false ->
  cuddAddUnivAbstractRecur perm (Node ci cT cE) (Node fi T E)
  = (hit <- cuddCacheLookup2 TAG_Cudd_addUnivAbstract (Node fi T E)
              (Node ci cT cE) ;;
     match hit with
     | Some res => ret res
     | None =>
         checkWhetherToGiveUp ;;;
         if Nat.eqb fi ci then
           res1 <- cuddAddUnivAbstractRecur perm cT T ;;
           res2 <- cuddAddUnivAbstractRecur perm cT E ;;
           res <- cuddAddApplyRecur Cudd_addTimes res1 res2 ;;
           cuddCacheInsert2 TAG_Cudd_addUnivAbstract (Node fi T E)
             (Node ci cT cE) res ;;;
           ret res
         else
           res1 <- cuddAddUnivAbstractRecur perm (Node ci cT cE) T ;;
           res2 <- cuddAddUnivAbstractRecur perm (Node ci cT cE) E ;;
           res <- (if DdNode_eqb res1 res2 then ret res1
                   else cuddUniqueInter fi res1 res2) ;;
           cuddCacheInsert2 TAG_Cudd_addUnivAbstract (Node fi T E)
             (Node ci cT cE) res ;;;
           ret res
     end).
Proof.
  intros Hgt. cbn -[cuddI_gt]. rewrite Hgt. reflexivity.
Qed.

Lemma or_empty_cube (c : Z) (f : DdNode) :
  cuddAddOrAbstractRecur perm (Const c) f = ret f.
Proof. reflexivity. Qed.

Lemma or_constant (cube : DdNode) (v : Z) :
  cuddAddOrAbstractRecur perm cube (Const v) = ret (Const v).
Proof. destruct cube; reflexivity. Qed.

Lemma or_vacuous (ci : nat) (cT cE : DdNode) (fi : nat) (T E : DdNode) :
  cuddI_gt perm (Node fi T E) ci = true ->
  cuddAddOrAbstractRecur perm (Node ci cT cE) (Node fi T E)
  = cuddAddOrAbstractRecur perm cT (Node fi T E).
Proof.
  intros Hgt. cbn -[cuddI_gt]. rewrite Hgt. reflexivity.
Qed.

Lemma or_node (ci : nat) (cT cE : DdNode) (fi : nat) (T E : DdNode) :
  cuddI_gt perm (Node fi T E) ci = false ->
  cuddAddOrAbstractRecur perm (Node ci cT cE) (Node fi T E)
  = (hit <- cuddCacheLookup2 TAG_Cudd_addOrAbstract (Node fi T E)
              (Node ci cT cE) ;;
     match hit with
     | Some res => ret res
     | None =>
         checkWhetherToGiveUp ;;;
         if Nat.eqb fi ci then
           res1 <- cuddAddOrAbstractRecur perm cT T ;;
           res <- (if negb (DdNode_eqb res1 DD_ONE) then
                     res2 <- cuddAddOrAbstractRecur perm cT E ;;
                     cuddAddApplyRecur Cudd_addOr res1 res2
                   else ret res1) ;;
           cuddCacheInsert2 TAG_Cudd_addOrAbstract (Node fi T E)
             (Node ci cT cE) res ;;;
           ret res
         else
           res1 <- cuddAddOrAbstractRecur perm (Node ci cT cE) T ;;
           res2 <- cuddAddOrAbstractRecur perm (Node ci cT cE) E ;;
           res <- (if DdNode_eqb res1 res2 then ret res1
                   else cuddUniqueInter fi res1 res2) ;;
           cuddCacheInsert2 TAG_Cudd_addOrAbstract (Node fi T E)
             (Node ci cT cE) res ;;;
           ret res
     end).
Proof.
  intros Hgt. cbn -[cuddI_gt]. rewrite Hgt. reflexivity.
Qed.

Lemma min_zero (cube : DdNode) :
  cuddAddMinAbstractRecur perm cube DD_ZERO = ret DD_ZERO.
Proof. destruct cube; reflexivity. Qed.

Lemma min_empty_cube (c : Z) (f : DdNode) :
  cuddAddMinAbstractRecur perm (Const c) f = ret f.
Proof. reflexivity. Qed.

Lemma min_vacuous (ci : nat) (cT cE f : DdNode) :
  DdNode_eqb f DD_ZERO = false -> cuddI_gt perm f ci = true ->
  cuddAddMinAbstractRecur perm (Node ci cT cE) f
  = cuddAddMinAbstractRecur perm cT f.
Proof.
  intros Hz Hgt. destruct f; cbn -[cuddI_gt DdNode_eqb];
    rewrite Hz, Hgt; reflexivity.
Qed.

Lemma min_node (ci : nat) (cT cE : DdNode) (fi : nat) (T E : DdNode) :
  cuddI_gt perm (Node fi T E) ci = false ->
  cuddAddMinAbstractRecur perm (Node ci cT cE) (Node fi T E)
  = (hit <- cuddCacheLookup2 TAG_Cudd_addMinAbstract (Node fi T E)
              (Node ci cT cE) ;;
     match hit with
     | Some res => ret res
     | None =>
         if Nat.eqb fi ci then
           res1 <- cuddAddMinAbstractRecur perm cT T ;;
           res2 <- cuddAddMinAbstractRecur perm cT E ;;
           res <- cuddAddApplyRecur Cudd_addMinimum res1 res2 ;;
           cuddCacheInsert2 TAG_Cudd_addMinAbstract (Node fi T E)
             (Node ci cT cE) res ;;;
           ret res
         else
           res1 <- cuddAddMinAbstractRecur perm (Node ci cT cE) T ;;
           res2 <- cuddAddMinAbstractRecur perm (Node ci cT cE) E ;;
           res <- (if DdNode_eqb res1 res2 then ret res1
                   else cuddUniqueInter fi res1 res2) ;;
           cuddCacheInsert2 TAG_Cudd_addMinAbstract (Node fi T E)
             (Node ci cT cE) res ;;;
           ret res
     end).
Proof.
  intros Hgt. cbn -[cuddI_gt]. rewrite Hgt. reflexivity.
Qed.

Lemma max_zero (cube : DdNode) :
  cuddAddMaxAbstractRecur perm cube DD_ZERO = ret DD_ZERO.
Proof. destruct cube; reflexivity. Qed.

Lemma max_empty_cube (c : Z) (f : DdNode) :
  cuddAddMaxAbstractRecur perm (Const c) f = ret f.
Proof. reflexivity. Qed.

Lemma max_vacuous (ci : nat) (cT cE f : DdNode) :
  DdNode_eqb f DD_ZERO = false -> cuddI_gt perm f ci = true ->
  cuddAddMaxAbstractRecur perm (Node ci cT cE) f
  = cuddAddMaxAbstractRecur perm cT f.
Proof.
  intros Hz Hgt. destruct f; cbn -[cuddI_gt DdNode_eqb];
    rewrite Hz, Hgt; reflexivity.
Qed.

Lemma max_node (ci : nat) (cT cE : DdNode) (fi : nat) (T E : DdNode) :
  cuddI_gt perm (Node fi T E) ci = false ->
  cuddAddMaxAbstractRecur perm (Node ci cT cE) (Node fi T E)
  = (hit <- cuddCacheLookup2 TAG_Cudd_addMaxAbstract (Node fi T E)
              (Node ci cT cE) ;;
     match hit with
     | Some res => ret res
     | None =>
         if Nat.eqb fi ci then
           res1 <- cuddAddMaxAbstractRecur perm cT T ;;
           res2 <- cuddAddMaxAbstractRecur perm cT E ;;
           res <- cuddAddApplyRecur Cudd_addMaximum res1 res2 ;;
           cuddCacheInsert2 TAG_Cudd_addMaxAbstract (Node fi T E)
             (Node ci cT cE) res ;;;
           ret res
         else
           res1 <- cuddAddMaxAbstractRecur perm (Node ci cT cE) T ;;
           res2 <- cuddAddMaxAbstractRecur perm (Node ci cT cE) E ;;
           res <- (if DdNode_eqb res1 res2 then ret res1
                   else cuddUniqueInter fi res1 res2) ;;
           cuddCacheInsert2 TAG_Cudd_addMaxAbstract (Node fi T E)
             (Node ci cT cE) res ;;;
           ret res
     end).
Proof.
  intros Hgt. cbn -[cuddI_gt]. rewrite Hgt. reflexivity.
Qed.

Lemma minExcept0_base (cube f : DdNode) :
  DdNode_eqb f DD_ZERO || cuddIsConstant cube = true ->
  cuddAddMinExcept0AbstractRecur perm cube f = ret f.
Proof.
  intros H. unfold cuddAddMinExcept0AbstractRecur. rewrite H. reflexivity.
Qed.

Lemma minExcept0_vacuous (ci : nat) (cT cE f : DdNode) :
  DdNode_eqb f DD_ZERO = false -> cuddI_gt perm f ci = true ->
  cuddAddMinExcept0AbstractRecur perm (Node ci cT cE) f
  = cuddAddMinAbstractRecur perm cT f.
Proof.
  intros Hz Hgt. unfold cuddAddMinExcept0AbstractRecur.
  rewrite Hz, Hgt. reflexivity.
Qed.

Lemma minExcept0_node (ci : nat) (cT cE : DdNode) (fi : nat)
      (T E : DdNode) :
  cuddI_gt perm (Node fi T E) ci = false ->
  cuddAddMinExcept0AbstractRecur perm (Node ci cT cE) (Node fi T E)
  = (hit <- cuddCacheLookup2 TAG_Cudd_addMinAbstract (Node fi T E)
              (Node ci cT cE) ;;
     match hit with
     | Some res => ret res
     | None =>
         if Nat.eqb fi ci then
           res1 <- cuddAddMinAbstractRecur perm cT T ;;
           res2 <- cuddAddMinAbstractRecur perm cT E ;;
           res <- cuddAddApplyRecur Cudd_addMinimumExcept0 res1 res2 ;;
           cuddCacheInsert2 TAG_Cudd_addMinAbstract (Node fi T E)
             (Node ci cT cE) res ;;;
           ret res
         else
           res1 <- cuddAddMinAbstractRecur perm (Node ci cT cE) T ;;
           res2 <- cuddAddMinAbstractRecur perm (Node ci cT cE) E ;;
           res <- (if DdNode_eqb res1 res2 then ret res1
                   else cuddUniqueInter fi res1 res2) ;;
           cuddCacheInsert2 TAG_Cudd_addMinAbstract (Node fi T E)
             (Node ci cT cE) res ;;;
           ret res
     end).
Proof.
  intros Hgt. unfold cuddAddMinExcept0AbstractRecur.
  cbn -[cuddI_gt cuddAddMinAbstractRecur]. rewrite Hgt. reflexivity.
Qed.

Lemma minRep_empty_cube (c : Z) (f : DdNode) :
  cuddAddMinAbstractRepresentativeRecur perm (Const c) f = ret one.
Proof. reflexivity. Qed.

Lemma minRep_vacuous (ci : nat) (cT cE f : DdNode) :
  cuddI_gt perm f ci = true ->
  cuddAddMinAbstractRepresentativeRecur perm (Node ci cT cE) f
  = (res <- cuddAddMinAbstractRepresentativeRecur perm cT f ;;
     res1 <- cuddUniqueInterB ci BOne (Cudd_Not res) ;;
     ret (Cudd_Not res1)).
Proof.
  intros Hgt. destruct f; cbn -[cuddI_gt]; [| rewrite Hgt]; reflexivity.
Qed.

Lemma minRep_node (ci : nat) (cT cE : DdNode) (fi : nat) (T E : DdNode) :
  cuddI_gt perm (Node fi T E) ci = false ->
  cuddAddMinAbstractRepresentativeRecur perm (Node ci cT cE) (Node fi T E)
  = (hit <- cuddCacheLookup2B TAG_Cudd_addMinAbstractRepresentative
              (Node fi T E) (Node ci cT cE) ;;
     match hit with
     | Some res => ret res
     | None =>
         if Nat.eqb fi ci then
           res1 <- cuddAddMinAbstractRepresentativeRecur perm cT E ;;
           res2 <- cuddAddMinAbstractRepresentativeRecur perm cT T ;;
           left <- cuddAddMinAbstractRecur perm cT E ;;
           right <- cuddAddMinAbstractRecur perm cT T ;;
           tmp <- cuddAddToBddApplyRecur Cudd_addToBddLessThanEquals left right ;;
           res1Inf <- cuddBddIteRecur tmp res1 logicalZero ;;
           res2Inf <- cuddBddIteRecur (Cudd_Not tmp) res2 logicalZero ;;
           let compl := if BddRef_eqb res1Inf res2Inf then true
                        else Cudd_IsComplement res2Inf in
           res <- (if BddRef_eqb res1Inf res2Inf
                   then cuddUniqueInterB fi BOne (Cudd_Not res1Inf)
                   else cuddUniqueInterB fi (Cudd_Regular res2Inf)
                          (if compl then Cudd_Not res1Inf else res1Inf)) ;;
           let res := if compl then Cudd_Not res else res in
           cuddCacheInsert2B TAG_Cudd_addMinAbstractRepresentative
             (Node fi T E) (Node ci cT cE) res ;;;
           ret res
         else
           res1 <- cuddAddMinAbstractRepresentativeRecur perm (Node ci cT cE) E ;;
           res2 <- cuddAddMinAbstractRepresentativeRecur perm (Node ci cT cE) T ;;
           let compl := if BddRef_eqb res1 res2 then true
                        else Cudd_IsComplement res2 in
           res <- (if BddRef_eqb res1 res2
                   then cuddUniqueInterB fi BOne (Cudd_Not res1)
                   else cuddUniqueInterB fi (Cudd_Regular res2)
                          (Cudd_Not res1)) ;;
           let res := if compl then Cudd_Not res else res in
           cuddCacheInsert2B TAG_Cudd_addMinAbstractRepresentative
             (Node fi T E) (Node ci cT cE) res ;;;
           ret res
     end).
Proof.
  intros Hgt. cbn -[cuddI_gt]. rewrite Hgt. reflexivity.
Qed.

Lemma maxRep_empty_cube (c : Z) (f : DdNode) :
  cuddAddMaxAbstractRepresentativeRecur perm (Const c) f = ret one.
Proof. reflexivity. Qed.

Lemma maxRep_vacuous (ci : nat) (cT cE f : DdNode) :
  cuddI_gt perm f ci = true ->
  cuddAddMaxAbstractRepresentativeRecur perm (Node ci cT cE) f
  = (res <- cuddAddMaxAbstractRepresentativeRecur perm cT f ;;
     res1 <- cuddUniqueInterB ci BOne (Cudd_Not res) ;;
     ret (Cudd_Not res1)).
Proof.
  intros Hgt. destruct f; cbn -[cuddI_gt]; [| rewrite Hgt]; reflexivity.
Qed.

Lemma maxRep_node (ci : nat) (cT cE : DdNode) (fi : nat) (T E : DdNode) :
  cuddI_gt perm (Node fi T E) ci = false ->
  cuddAddMaxAbstractRepresentativeRecur perm (Node ci cT cE) (Node fi T E)
  = (hit <- cuddCacheLookup2B TAG_Cudd_addMaxAbstractRepresentative
              (Node fi T E) (Node ci cT cE) ;;
     match hit with
     | Some res => ret res
     | None =>
         if Nat.eqb fi ci then
           res1 <- cuddAddMaxAbstractRepresentativeRecur perm cT E ;;
           res2 <- cuddAddMaxAbstractRepresentativeRecur perm cT T ;;
           left <- cuddAddMaxAbstractRecur perm cT E ;;
           right <- cuddAddMaxAbstractRecur perm cT T ;;
           tmp <- cuddAddToBddApplyRecur Cudd_addToBddGreaterThanEquals left right ;;
           res1Inf <- cuddBddIteRecur tmp res1 logicalZero ;;
           res2Inf <- cuddBddIteRecur (Cudd_Not tmp) res2 logicalZero ;;
           let compl := if BddRef_eqb res1Inf res2Inf then true
                        else Cudd_IsComplement res2Inf in
           res <- (if BddRef_eqb res1Inf res2Inf
                   then cuddUniqueInterB fi BOne (Cudd_Not res1Inf)
                   else cuddUniqueInterB fi (Cudd_Regular res2Inf)
                          (if compl then Cudd_Not res1Inf else res1Inf)) ;;
           let res := if compl then Cudd_Not res else res in
           cuddCacheInsert2B TAG_Cudd_addMaxAbstractRepresentative
             (Node fi T E) (Node ci cT cE) res ;;;
           ret res
         else
           res1 <- cuddAddMaxAbstractRepresentativeRecur perm (Node ci cT cE) E ;;
           res2 <- cuddAddMaxAbstractRepresentativeRecur perm (Node ci cT cE) T ;;
           let compl := if BddRef_eqb res1 res2 then true
                        else Cudd_IsComplement res2 in
           res <- (if BddRef_eqb res1 res2
                   then cuddUniqueInterB fi BOne (Cudd_Not res1)
                   else cuddUniqueInterB fi (Cudd_Regular res2)
                          (if compl then Cudd_Not res1 else res1)) ;;
           let res := if compl then Cudd_Not res else res in
           cuddCacheInsert2B TAG_Cudd_addMaxAbstractRepresentative
             (Node fi T E) (Node ci cT cE) res ;;;
           ret res
     end).
Proof.
  intros Hgt. cbn -[cuddI_gt]. rewrite Hgt. reflexivity.
Qed.

End Cases.

(** ** The pure reading: what the results denote *)

Ltac pure_step :=
  cbn [ret bind cuddCacheLookup2 cuddCacheInsert2 cuddCacheLookup2B
       cuddCacheInsert2B checkWhetherToGiveUp cuddUniqueInter
       cuddAddApplyRecur cuddUniqueInterB cuddAddToBddApplyRecur
       cuddBddIteRecur PureDd].

Lemma DdNode_eqb_Node_ZERO (i : nat) (t e : DdNode) :
  DdNode_eqb (Node i t e) DD_ZERO = false.
Proof. reflexivity. Qed.

Lemma upd_same (a : assignment) (x : nat) (b : bool) : upd a x b x = b.
Proof. unfold upd. now rewrite Nat.eqb_refl. Qed.

Lemma upd_other (a : assignment) (x i : nat) (b : bool) :
  Nat.eqb i x = false -> upd a x b i = a i.
Proof. unfold upd. now intros ->. Qed.

Lemma eval_if_eqb (i : nat) (r1 r2 : DdNode) (a : assignment) :
  eval (if DdNode_eqb r1 r2 then r1 else Node i r1 r2) a
  = if a i then eval r1 a else eval r2 a.
Proof.
  destruct (DdNode_eqb r1 r2) eqn:H; [| reflexivity].
  apply DdNode_eqb_eq in H; subst. now destruct (a i).
Qed.

Section Additivity.

Variable perm : nat -> nat.
Hypothesis perm_inj : forall i j, perm i = perm j -> i = j.

Local Abbreviation existP :=
  (cuddAddExistAbstractRecur (DM := PureDd perm) perm).

Lemma cuddI_gt_trans (g : DdNode) (i x : nat) :
  (perm x < perm i)%nat -> cuddI_gt perm g i = true ->
  cuddI_gt perm g x = true.
Proof.
  destruct g as [w | j gt ge]; simpl; [reflexivity |].
  rewrite !Nat.ltb_lt. lia.
Qed.

(** A diagram does not depend on a variable above its top variable. *)
Lemma eval_upd_above (x : nat) (b : bool) (a : assignment) (f : DdNode) :
  ordered perm f = true -> cuddI_gt perm f x = true ->
  eval f (upd a x b) = eval f a.
Proof.
  induction f as [v | i t IHt e IHe]; simpl; [reflexivity |].
  rewrite !andb_true_iff. intros [[[Ht He] Ot] Oe] Hx.
  apply Nat.ltb_lt in Hx.
  assert (Hi : Nat.eqb i x = false) by (apply Nat.eqb_neq; intros ->; lia).
  rewrite upd_other by assumption.
  rewrite IHt, IHe by eauto using cuddI_gt_trans. reflexivity.
Qed.

Lemma existP_single (x : nat) (f : DdNode) (a : assignment) :
  ordered perm f = true ->
  eval (existP (cube_of_var x) f) a
  = eval f (upd a x false) + eval f (upd a x true).
Proof.
  unfold cube_of_var, DD_ONE.
  induction f as [v | i t IHt e IHe]; intros Hord.
  - destruct (DdNode_eqb (Const v) DD_ZERO) eqn:Hz.
    + apply DdNode_eqb_eq in Hz. rewrite Hz, exist_zero. reflexivity.
    + rewrite exist_vacuous by auto. pure_step.
      rewrite eval_addApply by assumption. reflexivity.
  - destruct (cuddI_gt perm (Node i t e) x) eqn:Hgt.
    + rewrite exist_vacuous by auto. pure_step.
      rewrite eval_addApply, !eval_upd_above by assumption.
      rewrite exist_empty_cube. reflexivity.
    + rewrite exist_node by assumption. pure_step.
      simpl in Hord. rewrite !andb_true_iff in Hord.
      destruct Hord as [[[Ht He] Ot] Oe].
      destruct (Nat.eqb i x) eqn:Hix.
      * apply Nat.eqb_eq in Hix; subst i.
        rewrite eval_addApply, !exist_empty_cube by assumption. simpl.
        rewrite !upd_same, !eval_upd_above by assumption.
        cbn [aop_leaf ret PureDd]. lia.
      * rewrite eval_if_eqb, IHt, IHe by assumption. simpl.
        rewrite !upd_other by assumption. now destruct (a i).
Qed.

End Additivity.

(** ** The computations on the manager refine the pure reading *)

Lemma DD_CTFP_eqb_eq (s t : DD_CTFP) : DD_CTFP_eqb s t = true <-> s = t.
Proof. destruct s, t; simpl; split; congruence. Qed.

Lemma CacheKey_eqb_eq (k k' : CacheKey) : CacheKey_eqb k k' = true <-> k = k'.
Proof.
  destruct k as [[op f] g], k' as [[op' f'] g']; simpl.
  rewrite !andb_true_iff, DD_CTFP_eqb_eq, !DdNode_eqb_eq.
  split; [intros [[-> ->] ->]; reflexivity | intros H; inversion H; auto].
Qed.

Lemma set_cache_same (m : DdManager) : set_cache (cache m) m = m.
Proof. now destruct m. Qed.

Lemma set_cache_twice (c c' : list (CacheKey * CacheVal)) (m : DdManager) :
  set_cache c' (set_cache c m) = set_cache c' m.
Proof. reflexivity. Qed.

Lemma cache_ok_nil (perm : nat -> nat) : cache_ok perm [].
Proof. intros k v H; discriminate. Qed.

Lemma cache_ok_cons (perm : nat -> nat) (k : CacheKey) (v : CacheVal) c :
  v = recomputed perm k -> cache_ok perm c -> cache_ok perm ((k, v) :: c).
Proof.
  intros Hv Hc k' v' H. simpl in H.
  destruct (CacheKey_eqb k' k) eqn:Hk.
  - apply CacheKey_eqb_eq in Hk. congruence.
  - now apply Hc.
Qed.

Section Refinement.

Variable perm : nat -> nat.

Lemma refines_ret {A : Type} (v : A) :
  refines perm (ret (DdMonad := ManagerDd perm) v) v.
Proof.
  intros m [He Hc]. exists (cache m). now rewrite set_cache_same.
Qed.

Lemma refines_bind {A B : Type} (c : DdM A) (k : A -> DdM B) (v : A) (w : B) :
  refines perm c v -> refines perm (k v) w ->
  refines perm (bind (DdMonad := ManagerDd perm) c k) w.
Proof.
  intros Hc Hk m Hm. destruct (Hc m Hm) as (c1 & E1 & O1).
  assert (Hm1 : quiet perm (set_cache c1 m)) by (destruct Hm; split; auto).
  destruct (Hk _ Hm1) as (c2 & E2 & O2).
  exists c2. cbn [bind ManagerDd]. rewrite E1, E2. split; auto.
Qed.

Lemma refines_primitive {A : Type} (v : A) : refines perm (primitive v) v.
Proof.
  intros m [He Hc]. exists (cache m). unfold primitive. rewrite He.
  now rewrite set_cache_same.
Qed.

Lemma refines_poll : refines perm poll tt.
Proof.
  intros m [He Hc]. exists (cache m). unfold poll. rewrite He.
  now rewrite set_cache_same.
Qed.

Lemma refines_lookup {B : Type} op f g (k : option DdNode -> DdM B) (w : B) :
  (forall r, AddVal r = recomputed perm (op, f, g) ->
             refines perm (k (Some r)) w) ->
  refines perm (k None) w ->
  refines perm
    (bind (DdMonad := ManagerDd perm)
       (cuddCacheLookup2 (DdMonad := ManagerDd perm) op f g) k) w.
Proof.
  intros Hhit Hmiss m Hm. cbn [bind cuddCacheLookup2 ManagerDd].
  destruct (cache_find (op, f, g) (cache m)) as [[r | r] |] eqn:Hf;
    try (now apply Hmiss).
  apply Hhit; [| assumption]. destruct Hm as [_ Hc]. now apply Hc.
Qed.

Lemma refines_lookupB {B : Type} op f g (k : option BddRef -> DdM B) (w : B) :
  (forall r, BddVal r = recomputed perm (op, f, g) ->
             refines perm (k (Some r)) w) ->
  refines perm (k None) w ->
  refines perm
    (bind (DdMonad := ManagerDd perm)
       (cuddCacheLookup2B (DdMonad := ManagerDd perm) op f g) k) w.
Proof.
  intros Hhit Hmiss m Hm. cbn [bind cuddCacheLookup2B ManagerDd].
  destruct (cache_find (op, f, g) (cache m)) as [[r | r] |] eqn:Hf;
    try (now apply Hmiss).
  apply Hhit; [| assumption]. destruct Hm as [_ Hc]. now apply Hc.
Qed.

Lemma refines_insert {B : Type} op f g r (k : unit -> DdM B) (w : B) :
  AddVal r = recomputed perm (op, f, g) ->
  refines perm (k tt) w ->
  refines perm
    (bind (DdMonad := ManagerDd perm)
       (cuddCacheInsert2 (DdMonad := ManagerDd perm) op f g r) k) w.
Proof.
  intros Hr Hk m [He Hc]. cbn [bind cuddCacheInsert2 ManagerDd].
  destruct (Hk (set_cache (((op, f, g), AddVal r) :: cache m) m))
    as (c' & E & O).
  - split; [assumption |]. now apply cache_ok_cons.
  - exists c'. now rewrite E.
Qed.

Lemma refines_insertB {B : Type} op f g r (k : unit -> DdM B) (w : B) :
  BddVal r = recomputed perm (op, f, g) ->
  refines perm (k tt) w ->
  refines perm
    (bind (DdMonad := ManagerDd perm)
       (cuddCacheInsert2B (DdMonad := ManagerDd perm) op f g r) k) w.
Proof.
  intros Hr Hk m [He Hc]. cbn [bind cuddCacheInsert2B ManagerDd].
  destruct (Hk (set_cache (((op, f, g), BddVal r) :: cache m) m))
    as (c' & E & O).
  - split; [assumption |]. now apply cache_ok_cons.
  - exists c'. now rewrite E.
Qed.

Lemma refines_apply op f g :
  refines perm (cuddAddApplyRecur (DdMonad := ManagerDd perm) op f g)
          (addApply perm op f g).
Proof. apply refines_primitive. Qed.

Lemma refines_unique i t e :
  refines perm (cuddUniqueInter (DdMonad := ManagerDd perm) i t e)
          (Node i t e).
Proof. apply refines_primitive. Qed.

Lemma refines_uniqueB i t e :
  refines perm (cuddUniqueInterB (DdMonad := ManagerDd perm) i t e)
          (regular (BNode i t (fst e) (snd e))).
Proof. apply refines_primitive. Qed.

Lemma refines_toBdd op f g :
  refines perm (cuddAddToBddApplyRecur (DdMonad := ManagerDd perm) op f g)
          (addToBddApply perm op f g).
Proof. apply refines_primitive. Qed.

Lemma refines_ite f g h :
  refines perm (cuddBddIteRecur (DdMonad := ManagerDd perm) f g h)
          (bddIte perm f g h).
Proof. apply refines_primitive. Qed.

Lemma refines_check :
  refines perm (checkWhetherToGiveUp (DdMonad := ManagerDd perm)) tt.
Proof. apply refines_poll. Qed.

Lemma refines_canon i r1 r2 :
  refines perm
    (if DdNode_eqb r1 r2 then ret (DdMonad := ManagerDd perm) r1
     else cuddUniqueInter (DdMonad := ManagerDd perm) i r1 r2)
    (if DdNode_eqb r1 r2 then r1 else Node i r1 r2).
Proof.
  destruct (DdNode_eqb r1 r2); [apply refines_ret | apply refines_unique].
Qed.

Lemma refines_if {A : Type} (b : bool) (c1 c2 : DdM A) (v1 v2 : A) :
  refines perm c1 v1 -> refines perm c2 v2 ->
  refines perm (if b then c1 else c2) (if b then v1 else v2).
Proof. now destruct b. Qed.

Lemma cuddI_gt_Const_false (v : Z) (ci : nat) :
  cuddI_gt perm (Const v) ci = false -> False.
Proof. discriminate. Qed.

Ltac refine_leaf :=
  first
    [ apply refines_ret
    | apply refines_apply
    | apply refines_canon
    | apply refines_unique
    | apply refines_uniqueB
    | apply refines_toBdd
    | apply refines_ite
    | apply refines_check
    | solve [eauto] ].

Ltac refine_step :=
  first [ refine_leaf | eapply refines_bind; [refine_leaf | cbv beta] ].

Lemma refines_exist (cube f : DdNode) :
  refines perm (cuddAddExistAbstractRecur (DM := ManagerDd perm) perm cube f)
          (cuddAddExistAbstractRecur (DM := PureDd perm) perm cube f).
Proof.
  revert f; induction cube as [c | ci cT IHcT cE _]; intros f.
  - rewrite !exist_empty_cube. apply refines_ret.
  - induction f as [v | fi T IHT E IHE].
    + destruct (DdNode_eqb (Const v) DD_ZERO) eqn:Hz.
      * apply DdNode_eqb_eq in Hz. rewrite Hz, !exist_zero.
        apply refines_ret.
      * rewrite !exist_vacuous by auto. pure_step. repeat refine_step.
    + destruct (cuddI_gt perm (Node fi T E) ci) eqn:Hgt.
      * rewrite !exist_vacuous by auto. pure_step. repeat refine_step.
      * rewrite (exist_node (DM := ManagerDd perm)) by assumption.
        apply refines_lookup.
        { intros r Hr. injection Hr as ->. apply refines_ret. }
        rewrite (exist_node (DM := PureDd perm)) by assumption. pure_step.
        refine_step.
        destruct (Nat.eqb fi ci) eqn:Hix.
        -- do 3 refine_step. apply refines_insert; [| apply refines_ret].
           cbn [recomputed]. rewrite (exist_node (DM := PureDd perm)) by auto.
           pure_step. now rewrite Hix.
        -- do 3 refine_step. apply refines_insert; [| apply refines_ret].
           cbn [recomputed]. rewrite (exist_node (DM := PureDd perm)) by auto.
           pure_step. now rewrite Hix.
Qed.

Lemma refines_univ (cube f : DdNode) :
  refines perm (cuddAddUnivAbstractRecur (DM := ManagerDd perm) perm cube f)
          (cuddAddUnivAbstractRecur (DM := PureDd perm) perm cube f).
Proof.
  revert f; induction cube as [c | ci cT IHcT cE _]; intros f.
  - rewrite !univ_empty_cube. apply refines_ret.
  - induction f as [v | fi T IHT E IHE].
    + destruct (DdNode_eqb (Const v) DD_ZERO || DdNode_eqb (Const v) DD_ONE)
        eqn:Hz.
      * rewrite !univ_zero_one by assumption. apply refines_ret.
      * rewrite !univ_vacuous by auto. pure_step. repeat refine_step.
    + destruct (cuddI_gt perm (Node fi T E) ci) eqn:Hgt.
      * rewrite !univ_vacuous by auto. pure_step. repeat refine_step.
      * rewrite (univ_node (DM := ManagerDd perm)) by assumption.
        apply refines_lookup.
        { intros r Hr. injection Hr as ->. apply refines_ret. }
        rewrite (univ_node (DM := PureDd perm)) by assumption. pure_step.
        refine_step.
        destruct (Nat.eqb fi ci) eqn:Hix.
        -- do 3 refine_step. apply refines_insert; [| apply refines_ret].
           cbn [recomputed]. rewrite (univ_node (DM := PureDd perm)) by auto.
           pure_step. now rewrite Hix.
        -- do 3 refine_step. apply refines_insert; [| apply refines_ret].
           cbn [recomputed]. rewrite (univ_node (DM := PureDd perm)) by auto.
           pure_step. now rewrite Hix.
Qed.

Lemma refines_or (cube f : DdNode) :
  refines perm (cuddAddOrAbstractRecur (DM := ManagerDd perm) perm cube f)
          (cuddAddOrAbstractRecur (DM := PureDd perm) perm cube f).
Proof.
  revert f; induction cube as [c | ci cT IHcT cE _]; intros f.
  - rewrite !or_empty_cube. apply refines_ret.
  - induction f as [v | fi T IHT E IHE].
    + rewrite !or_constant. apply refines_ret.
    + destruct (cuddI_gt perm (Node fi T E) ci) eqn:Hgt.
      * rewrite !or_vacuous by auto. apply IHcT.
      * rewrite (or_node (DM := ManagerDd perm)) by assumption.
        apply refines_lookup.
        { intros r Hr. injection Hr as ->. apply refines_ret. }
        rewrite (or_node (DM := PureDd perm)) by assumption. pure_step.
        refine_step.
        destruct (Nat.eqb fi ci) eqn:Hix.
        -- refine_step.
           destruct (DdNode_eqb
                       (cuddAddOrAbstractRecur (DM := PureDd perm) perm cT T)
                       DD_ONE) eqn:Hone; cbn [negb].
           ++ refine_step. apply refines_insert; [| apply refines_ret].
              cbn [recomputed].
              rewrite (or_node (DM := PureDd perm)) by auto.
              pure_step. now rewrite Hix, Hone.
           ++ eapply refines_bind.
              { eapply refines_bind; [apply IHcT | apply refines_apply]. }
              apply refines_insert; [| apply refines_ret].
              cbn [recomputed].
              rewrite (or_node (DM := PureDd perm)) by auto.
              pure_step. now rewrite Hix, Hone.
        -- do 3 refine_step. apply refines_insert; [| apply refines_ret].
           cbn [recomputed]. rewrite (or_node (DM := PureDd perm)) by auto.
           pure_step. now rewrite Hix.
Qed.

Lemma refines_min (cube f : DdNode) :
  refines perm (cuddAddMinAbstractRecur (DM := ManagerDd perm) perm cube f)
          (cuddAddMinAbstractRecur (DM := PureDd perm) perm cube f).
Proof.
  revert f; induction cube as [c | ci cT IHcT cE _]; intros f.
  - rewrite !min_empty_cube. apply refines_ret.
  - induction f as [v | fi T IHT E IHE].
    + destruct (DdNode_eqb (Const v) DD_ZERO) eqn:Hz.
      * apply DdNode_eqb_eq in Hz. rewrite Hz, !min_zero.
        apply refines_ret.
      * rewrite !min_vacuous by auto. apply IHcT.
    + destruct (cuddI_gt perm (Node fi T E) ci) eqn:Hgt.
      * rewrite !min_vacuous by auto. apply IHcT.
      * rewrite (min_node (DM := ManagerDd perm)) by assumption.
        apply refines_lookup.
        { intros r Hr. injection Hr as ->. apply refines_ret. }
        rewrite (min_node (DM := PureDd perm)) by assumption. pure_step.
        destruct (Nat.eqb fi ci) eqn:Hix.
        -- do 3 refine_step. apply refines_insert; [| apply refines_ret].
           cbn [recomputed]. rewrite (min_node (DM := PureDd perm)) by auto.
           pure_step. now rewrite Hix.
        -- do 3 refine_step. apply refines_insert; [| apply refines_ret].
           cbn [recomputed]. rewrite (min_node (DM := PureDd perm)) by auto.
           pure_step. now rewrite Hix.
Qed.

Lemma refines_max (cube f : DdNode) :
  refines perm (cuddAddMaxAbstractRecur (DM := ManagerDd perm) perm cube f)
          (cuddAddMaxAbstractRecur (DM := PureDd perm) perm cube f).
Proof.
  revert f; induction cube as [c | ci cT IHcT cE _]; intros f.
  - rewrite !max_empty_cube. apply refines_ret.
  - induction f as [v | fi T IHT E IHE].
    + destruct (DdNode_eqb (Const v) DD_ZERO) eqn:Hz.
      * apply DdNode_eqb_eq in Hz. rewrite Hz, !max_zero.
        apply refines_ret.
      * rewrite !max_vacuous by auto. apply IHcT.
    + destruct (cuddI_gt perm (Node fi T E) ci) eqn:Hgt.
      * rewrite !max_vacuous by auto. apply IHcT.
      * rewrite (max_node (DM := ManagerDd perm)) by assumption.
        apply refines_lookup.
        { intros r Hr. injection Hr as ->. apply refines_ret. }
        rewrite (max_node (DM := PureDd perm)) by assumption. pure_step.
        destruct (Nat.eqb fi ci) eqn:Hix.
        -- do 3 refine_step. apply refines_insert; [| apply refines_ret].
           cbn [recomputed]. rewrite (max_node (DM := PureDd perm)) by auto.
           pure_step. now rewrite Hix.
        -- do 3 refine_step. apply refines_insert; [| apply refines_ret].
           cbn [recomputed]. rewrite (max_node (DM := PureDd perm)) by auto.
           pure_step. now rewrite Hix.
Qed.

Lemma refines_minRep (cube f : DdNode) :
  refines perm
    (cuddAddMinAbstractRepresentativeRecur (DM := ManagerDd perm) perm cube f)
    (cuddAddMinAbstractRepresentativeRecur (DM := PureDd perm) perm cube f).
Proof.
  pose proof refines_min as Hplain.
  revert f; induction cube as [c | ci cT IHcT cE _]; intros f.
  - rewrite !minRep_empty_cube. apply refines_ret.
  - induction f as [v | fi T IHT E IHE].
    + rewrite !minRep_vacuous by reflexivity. pure_step. repeat refine_step.
    + destruct (cuddI_gt perm (Node fi T E) ci) eqn:Hgt.
      * rewrite !minRep_vacuous by auto. pure_step. repeat refine_step.
      * rewrite (minRep_node (DM := ManagerDd perm)) by assumption.
        apply refines_lookupB.
        { intros r Hr. injection Hr as ->. apply refines_ret. }
        rewrite (minRep_node (DM := PureDd perm)) by assumption. pure_step.
        destruct (Nat.eqb fi ci) eqn:Hix.
        -- do 7 refine_step. cbv zeta.
           eapply refines_bind.
           { apply refines_if; apply refines_uniqueB. }
           apply refines_insertB; [| apply refines_ret].
           cbn [recomputed]. rewrite (minRep_node (DM := PureDd perm)) by auto.
           pure_step. rewrite Hix. reflexivity.
        -- do 2 refine_step. cbv zeta.
           eapply refines_bind.
           { apply refines_if; apply refines_uniqueB. }
           apply refines_insertB; [| apply refines_ret].
           cbn [recomputed]. rewrite (minRep_node (DM := PureDd perm)) by auto.
           pure_step. rewrite Hix. reflexivity.
Qed.

Lemma refines_maxRep (cube f : DdNode) :
  refines perm
    (cuddAddMaxAbstractRepresentativeRecur (DM := ManagerDd perm) perm cube f)
    (cuddAddMaxAbstractRepresentativeRecur (DM := PureDd perm) perm cube f).
Proof.
  pose proof refines_max as Hplain.
  revert f; induction cube as [c | ci cT IHcT cE _]; intros f.
  - rewrite !maxRep_empty_cube. apply refines_ret.
  - induction f as [v | fi T IHT E IHE].
    + rewrite !maxRep_vacuous by reflexivity. pure_step. repeat refine_step.
    + destruct (cuddI_gt perm (Node fi T E) ci) eqn:Hgt.
      * rewrite !maxRep_vacuous by auto. pure_step. repeat refine_step.
      * rewrite (maxRep_node (DM := ManagerDd perm)) by assumption.
        apply refines_lookupB.
        { intros r Hr. injection Hr as ->. apply refines_ret. }
        rewrite (maxRep_node (DM := PureDd perm)) by assumption. pure_step.
        destruct (Nat.eqb fi ci) eqn:Hix.
        -- do 7 refine_step. cbv zeta.
           eapply refines_bind.
           { apply refines_if; apply refines_uniqueB. }
           apply refines_insertB; [| apply refines_ret].
           cbn [recomputed]. rewrite (maxRep_node (DM := PureDd perm)) by auto.
           pure_step. rewrite Hix. reflexivity.
        -- do 2 refine_step. cbv zeta.
           eapply refines_bind.
           { apply refines_if; apply refines_uniqueB. }
           apply refines_insertB; [| apply refines_ret].
           cbn [recomputed]. rewrite (maxRep_node (DM := PureDd perm)) by auto.
           pure_step. rewrite Hix. reflexivity.
Qed.

End Refinement.

(** ** The exported functions on a quiet manager *)

Section Entry.

Variable perm : nat -> nat.

Lemma do_while_quiet {A : Type} (recur : DdM A) (v : A) (fuel : nat)
      (m : DdManager) :
  refines perm recur v -> quiet perm m ->
  exists c',
    do_while_reordered fuel recur m
    = (Some v, set_cache c' (set_reordered false m))
    /\ cache_ok perm c'.
Proof.
  intros Href [He Hc].
  destruct (Href (set_reordered false m)) as (c' & E & O);
    [split; assumption |].
  exists c'. split; [| assumption].
  destruct fuel; simpl; rewrite E; reflexivity.
Qed.

Lemma quiet_run_timeoutHandler (m : DdManager) :
  quiet perm m -> quiet perm (run_timeoutHandler m).
Proof.
  unfold run_timeoutHandler. intros [He Hc].
  destruct (_ && _); split; assumption.
Qed.

Lemma quiet_after (c' : list (CacheKey * CacheVal)) (m : DdManager) :
  quiet perm m -> cache_ok perm c' ->
  quiet perm (set_cache c' (set_reordered false m)).
Proof. intros [He Hc] O. split; assumption. Qed.

Ltac entry_quiet lem :=
  let c' := fresh "c'" in
  let E := fresh "E" in
  let O := fresh "O" in
  intros Hq Hcube;
  match goal with
  | |- exists m', ?entry _ ?f ?cube ?m = _ /\ _ =>
      unfold entry; rewrite Hcube; cbn [negb];
      destruct (do_while_quiet _ _ (List.length (events m)) m
                  (lem perm (snd cube) f) Hq) as (c' & E & O);
      rewrite E; eexists; split; [reflexivity |];
      try apply quiet_run_timeoutHandler; now apply quiet_after
  end.

Lemma Cudd_addExistAbstract_quiet f cube m :
  quiet perm m -> addCheckPositiveCube cube = true ->
  exists m',
    Cudd_addExistAbstract perm f cube m
    = (Some (cuddAddExistAbstractRecur (DM := PureDd perm) perm
               (snd cube) f), m')
    /\ quiet perm m'.
Proof. entry_quiet refines_exist. Qed.

Lemma Cudd_addUnivAbstract_quiet f cube m :
  quiet perm m -> addCheckPositiveCube cube = true ->
  exists m',
    Cudd_addUnivAbstract perm f cube m
    = (Some (cuddAddUnivAbstractRecur (DM := PureDd perm) perm
               (snd cube) f), m')
    /\ quiet perm m'.
Proof. entry_quiet refines_univ. Qed.

Lemma Cudd_addOrAbstract_quiet f cube m :
  quiet perm m -> addCheckPositiveCube cube = true ->
  exists m',
    Cudd_addOrAbstract perm f cube m
    = (Some (cuddAddOrAbstractRecur (DM := PureDd perm) perm
               (snd cube) f), m')
    /\ quiet perm m'.
Proof. entry_quiet refines_or. Qed.

Lemma Cudd_addMinAbstract_quiet f cube m :
  quiet perm m -> addCheckPositiveCube cube = true ->
  exists m',
    Cudd_addMinAbstract perm f cube m
    = (Some (cuddAddMinAbstractRecur (DM := PureDd perm) perm
               (snd cube) f), m')
    /\ quiet perm m'.
Proof. entry_quiet refines_min. Qed.

Lemma Cudd_addMaxAbstract_quiet f cube m :
  quiet perm m -> addCheckPositiveCube cube = true ->
  exists m',
    Cudd_addMaxAbstract perm f cube m
    = (Some (cuddAddMaxAbstractRecur (DM := PureDd perm) perm
               (snd cube) f), m')
    /\ quiet perm m'.
Proof. entry_quiet refines_max. Qed.

Lemma Cudd_addMinAbstractRepresentative_quiet f cube m :
  quiet perm m -> addCheckPositiveCube cube = true ->
  exists m',
    Cudd_addMinAbstractRepresentative perm f cube m
    = (Some (cuddAddMinAbstractRepresentativeRecur (DM := PureDd perm) perm
               (snd cube) f), m')
    /\ quiet perm m'.
Proof. entry_quiet refines_minRep. Qed.

Lemma Cudd_addMaxAbstractRepresentative_quiet f cube m :
  quiet perm m -> addCheckPositiveCube cube = true ->
  exists m',
    Cudd_addMaxAbstractRepresentative perm f cube m
    = (Some (cuddAddMaxAbstractRepresentativeRecur (DM := PureDd perm) perm
               (snd cube) f), m')
    /\ quiet perm m'.
Proof. entry_quiet refines_maxRep. Qed.

End Entry.

(** ** What no recursion touches *)

Lemma frame_refl (m : DdManager) : frame m m.
Proof. unfold frame. repeat split; auto. congruence. Qed.

Lemma frame_trans (m1 m2 m3 : DdManager) :
  frame m1 m2 -> frame m2 m3 -> frame m1 m3.
Proof.
  unfold frame. intros (C1 & H1 & E1 & L1 & S1) (C2 & H2 & E2 & L2 & S2).
  repeat split; try congruence; try lia.
  intros R1 R3. destruct (reordered m2) eqn:R2.
  - specialize (S1 R1 eq_refl). lia.
  - specialize (S2 eq_refl R3). lia.
Qed.

Section Framed.

Variable perm : nat -> nat.

Lemma framed_ret {A : Type} (v : A) :
  framed (ret (DdMonad := ManagerDd perm) v).
Proof. intros m. apply frame_refl. Qed.

Lemma framed_bind {A B : Type} (c : DdM A) (k : A -> DdM B) :
  framed c -> (forall a, framed (k a)) ->
  framed (bind (DdMonad := ManagerDd perm) c k).
Proof.
  intros Hc Hk m. cbn [bind ManagerDd].
  specialize (Hc m). destruct (c m) as [[a |] m1]; cbn [snd] in *.
  - eapply frame_trans; [exact Hc | apply Hk].
  - exact Hc.
Qed.

Lemma framed_primitive {A : Type} (v : A) : framed (primitive v).
Proof.
  intros m. unfold primitive, frame.
  destruct (events m) as [| [| | |] es] eqn:He; cbn; rewrite ?He; cbn;
    repeat split; auto; try lia; congruence.
Qed.

Lemma framed_poll : framed poll.
Proof.
  intros m. unfold poll, frame.
  destruct (events m) as [| [| | |] es] eqn:He; cbn; rewrite ?He; cbn;
    repeat split; auto; try lia; congruence.
Qed.

Lemma framed_lookup op f g :
  framed (cuddCacheLookup2 (DdMonad := ManagerDd perm) op f g).
Proof. intros m. apply frame_refl. Qed.

Lemma framed_lookupB op f g :
  framed (cuddCacheLookup2B (DdMonad := ManagerDd perm) op f g).
Proof. intros m. apply frame_refl. Qed.

Lemma framed_insert op f g r :
  framed (cuddCacheInsert2 (DdMonad := ManagerDd perm) op f g r).
Proof. intros m. cbn. unfold frame; cbn. repeat split; auto. congruence. Qed.

Lemma framed_insertB op f g r :
  framed (cuddCacheInsert2B (DdMonad := ManagerDd perm) op f g r).
Proof. intros m. cbn. unfold frame; cbn. repeat split; auto. congruence. Qed.

Lemma framed_check :
  framed (checkWhetherToGiveUp (DdMonad := ManagerDd perm)).
Proof. apply framed_poll. Qed.

Lemma framed_apply op f g :
  framed (cuddAddApplyRecur (DdMonad := ManagerDd perm) op f g).
Proof. apply framed_primitive. Qed.

Lemma framed_unique i t e :
  framed (cuddUniqueInter (DdMonad := ManagerDd perm) i t e).
Proof. apply framed_primitive. Qed.

Lemma framed_uniqueB i t e :
  framed (cuddUniqueInterB (DdMonad := ManagerDd perm) i t e).
Proof. apply framed_primitive. Qed.

Lemma framed_toBdd op f g :
  framed (cuddAddToBddApplyRecur (DdMonad := ManagerDd perm) op f g).
Proof. apply framed_primitive. Qed.

Lemma framed_ite f g h :
  framed (cuddBddIteRecur (DdMonad := ManagerDd perm) f g h).
Proof. apply framed_primitive. Qed.

Ltac framed_tac :=
  repeat
    first
      [ assumption
      | apply framed_ret
      | apply framed_lookup
      | apply framed_lookupB
      | apply framed_insert
      | apply framed_insertB
      | apply framed_check
      | apply framed_apply
      | apply framed_unique
      | apply framed_uniqueB
      | apply framed_toBdd
      | apply framed_ite
      | solve [auto]
      | apply framed_bind; [| intros ?]
      | match goal with
        | |- framed (match ?x with Some _ => _ | None => _ end) =>
            destruct x
        | |- framed (if ?b then _ else _) => destruct b
        | |- framed (let _ := _ in _) => cbv zeta
        end ].

Lemma framed_exist (cube f : DdNode) :
  framed (cuddAddExistAbstractRecur (DM := ManagerDd perm) perm cube f).
Proof.
  revert f; induction cube as [c | ci cT IHcT cE _]; intros f.
  - rewrite exist_empty_cube. framed_tac.
  - induction f as [v | fi T IHT E IHE].
    + destruct (DdNode_eqb (Const v) DD_ZERO) eqn:Hz.
      * apply DdNode_eqb_eq in Hz. rewrite Hz, exist_zero. framed_tac.
      * rewrite exist_vacuous by auto. framed_tac.
    + destruct (cuddI_gt perm (Node fi T E) ci) eqn:Hgt.
      * rewrite exist_vacuous by auto. framed_tac.
      * rewrite exist_node by assumption. framed_tac.
Qed.

Lemma framed_univ (cube f : DdNode) :
  framed (cuddAddUnivAbstractRecur (DM := ManagerDd perm) perm cube f).
Proof.
  revert f; induction cube as [c | ci cT IHcT cE _]; intros f.
  - rewrite univ_empty_cube. framed_tac.
  - induction f as [v | fi T IHT E IHE].
    + destruct (DdNode_eqb (Const v) DD_ZERO || DdNode_eqb (Const v) DD_ONE)
        eqn:Hz.
      * rewrite univ_zero_one by assumption. framed_tac.
      * rewrite univ_vacuous by auto. framed_tac.
    + destruct (cuddI_gt perm (Node fi T E) ci) eqn:Hgt.
      * rewrite univ_vacuous by auto. framed_tac.
      * rewrite univ_node by assumption. framed_tac.
Qed.

Lemma framed_or (cube f : DdNode) :
  framed (cuddAddOrAbstractRecur (DM := ManagerDd perm) perm cube f).
Proof.
  revert f; induction cube as [c | ci cT IHcT cE _]; intros f.
  - rewrite or_empty_cube. framed_tac.
  - induction f as [v | fi T IHT E IHE].
    + rewrite or_constant. framed_tac.
    + destruct (cuddI_gt perm (Node fi T E) ci) eqn:Hgt.
      * rewrite or_vacuous by auto. framed_tac.
      * rewrite or_node by assumption. framed_tac.
Qed.

Lemma framed_min (cube f : DdNode) :
  framed (cuddAddMinAbstractRecur (DM := ManagerDd perm) perm cube f).
Proof.
  revert f; induction cube as [c | ci cT IHcT cE _]; intros f.
  - rewrite min_empty_cube. framed_tac.
  - induction f as [v | fi T IHT E IHE].
    + destruct (DdNode_eqb (Const v) DD_ZERO) eqn:Hz.
      * apply DdNode_eqb_eq in Hz. rewrite Hz, min_zero. framed_tac.
      * rewrite min_vacuous by auto. framed_tac.
    + destruct (cuddI_gt perm (Node fi T E) ci) eqn:Hgt.
      * rewrite min_vacuous by auto. framed_tac.
      * rewrite min_node by assumption. framed_tac.
Qed.

Lemma framed_max (cube f : DdNode) :
  framed (cuddAddMaxAbstractRecur (DM := ManagerDd perm) perm cube f).
Proof.
  revert f; induction cube as [c | ci cT IHcT cE _]; intros f.
  - rewrite max_empty_cube. framed_tac.
  - induction f as [v | fi T IHT E IHE].
    + destruct (DdNode_eqb (Const v) DD_ZERO) eqn:Hz.
      * apply DdNode_eqb_eq in Hz. rewrite Hz, max_zero. framed_tac.
      * rewrite max_vacuous by auto. framed_tac.
    + destruct (cuddI_gt perm (Node fi T E) ci) eqn:Hgt.
      * rewrite max_vacuous by auto. framed_tac.
      * rewrite max_node by assumption. framed_tac.
Qed.

Lemma framed_minExcept0 (cube f : DdNode) :
  framed (cuddAddMinExcept0AbstractRecur (DM := ManagerDd perm) perm cube f).
Proof.
  pose proof framed_min as Hplain.
  destruct (DdNode_eqb f DD_ZERO || cuddIsConstant cube) eqn:Hb.
  - rewrite minExcept0_base by assumption. framed_tac.
  - apply orb_false_iff in Hb. destruct Hb as [Hz Hc].
    destruct cube as [c | ci cT cE]; [discriminate |].
    destruct (cuddI_gt perm f ci) eqn:Hgt.
    + rewrite minExcept0_vacuous by assumption. framed_tac.
    + destruct f as [v | fi T E]; [discriminate |].
      rewrite minExcept0_node by assumption. framed_tac.
Qed.

Lemma framed_minRep (cube f : DdNode) :
  framed (cuddAddMinAbstractRepresentativeRecur (DM := ManagerDd perm) perm cube f).
Proof.
  pose proof framed_min as Hplain.
  revert f; induction cube as [c | ci cT IHcT cE _]; intros f.
  - rewrite minRep_empty_cube. framed_tac.
  - induction f as [v | fi T IHT E IHE].
    + rewrite minRep_vacuous by reflexivity. framed_tac.
    + destruct (cuddI_gt perm (Node fi T E) ci) eqn:Hgt.
      * rewrite minRep_vacuous by auto. framed_tac.
      * rewrite minRep_node by assumption. framed_tac.
Qed.

Lemma framed_maxRep (cube f : DdNode) :
  framed (cuddAddMaxAbstractRepresentativeRecur (DM := ManagerDd perm) perm cube f).
Proof.
  pose proof framed_max as Hplain.
  revert f; induction cube as [c | ci cT IHcT cE _]; intros f.
  - rewrite maxRep_empty_cube. framed_tac.
  - induction f as [v | fi T IHT E IHE].
    + rewrite maxRep_vacuous by reflexivity. framed_tac.
    + destruct (cuddI_gt perm (Node fi T E) ci) eqn:Hgt.
      * rewrite maxRep_vacuous by auto. framed_tac.
      * rewrite maxRep_node by assumption. framed_tac.
Qed.

(** The loop of the exported functions: with as much fuel as there are
    events pending it ends by itself, with the reordering flag down. *)
Lemma do_while_framed {A : Type} (recur : DdM A) (fuel : nat)
      (m : DdManager) :
  framed recur -> (List.length (events m) <= fuel)%nat ->
  frame (set_reordered false m) (snd (do_while_reordered fuel recur m))
  /\ reordered (snd (do_while_reordered fuel recur m)) = false.
Proof.
  intros Hf. revert m. induction fuel as [| fuel IH]; intros m Hlen.
  - cbn [do_while_reordered]. pose proof (Hf (set_reordered false m)) as F.
    destruct (recur (set_reordered false m)) as [res m'] eqn:E.
    cbn [snd] in F. destruct (reordered m') eqn:R.
    + destruct F as (_ & _ & _ & _ & S). specialize (S eq_refl R).
      cbn in S. lia.
    + cbn [snd]. split; assumption.
  - cbn [do_while_reordered]. pose proof (Hf (set_reordered false m)) as F.
    destruct (recur (set_reordered false m)) as [res m'] eqn:E.
    cbn [snd] in F. destruct (reordered m') eqn:R.
    + assert (Hlen' : (List.length (events m') <= fuel)%nat).
      { destruct F as (_ & _ & _ & _ & S). specialize (S eq_refl R).
        cbn in S. lia. }
      destruct (IH m' Hlen') as [F' R']. split; [| exact R'].
      eapply frame_trans; [exact F |].
      eapply frame_trans; [| exact F'].
      unfold frame; cbn. repeat split; auto. congruence.
    + cbn [snd]. split; assumption.
Qed.

(** X2.  The exported functions without the handler call never run the
    timeout handler, whatever the manager meets. *)
Lemma handler_never_run (f : DdNode) (cube : DdPtr) (m : DdManager) :
  timeoutHandlerCalls (snd (Cudd_addMinAbstract perm f cube m))
  = timeoutHandlerCalls m
  /\ timeoutHandlerCalls (snd (Cudd_addMinExcept0Abstract perm f cube m))
     = timeoutHandlerCalls m
  /\ timeoutHandlerCalls (snd (Cudd_addMaxAbstract perm f cube m))
     = timeoutHandlerCalls m
  /\ timeoutHandlerCalls
       (snd (Cudd_addMinAbstractRepresentative perm f cube m))
     = timeoutHandlerCalls m
  /\ timeoutHandlerCalls
       (snd (Cudd_addMaxAbstractRepresentative perm f cube m))
     = timeoutHandlerCalls m.
Proof.
  unfold Cudd_addMinAbstract, Cudd_addMinExcept0Abstract,
    Cudd_addMaxAbstract, Cudd_addMinAbstractRepresentative,
    Cudd_addMaxAbstractRepresentative.
  destruct (negb (addCheckPositiveCube cube)); [repeat split |].
  repeat split;
    match goal with
    | |- context [do_while_reordered ?n ?c m] =>
        let H := fresh in
        assert (H : framed c)
          by (intros ?; first [ apply framed_min | apply framed_minExcept0
                              | apply framed_max | apply framed_minRep
                              | apply framed_maxRep ]);
        destruct (do_while_framed c n m H (Nat.le_refl _)) as [(C & _) _];
        exact C
    end.
Qed.

(** X3.  The exported functions with the handler call run it once
    exactly when the call ends with [CUDD_TIMEOUT_EXPIRED] as error code
    and a handler is installed, and not at all otherwise. *)
Lemma handler_run_once (f : DdNode) (cube : DdPtr) (m : DdManager) :
  addCheckPositiveCube cube = true ->
  forall res m',
    Cudd_addExistAbstract perm f cube m = (res, m')
    \/ Cudd_addUnivAbstract perm f cube m = (res, m')
    \/ Cudd_addOrAbstract perm f cube m = (res, m') ->
    timeoutHandlerCalls m'
    = if Cudd_ErrorType_eqb (errorCode m') CUDD_TIMEOUT_EXPIRED
         && timeoutHandler m
      then S (timeoutHandlerCalls m) else timeoutHandlerCalls m.
Proof.
  intros Hcube res m'.
  unfold Cudd_addExistAbstract, Cudd_addUnivAbstract, Cudd_addOrAbstract.
  rewrite Hcube. cbn [negb].
  intros [H | [H | H]];
    match type of H with
    | context [do_while_reordered ?n ?c m] =>
        let Hf := fresh in
        assert (Hf : framed c)
          by (intros ?; first [ apply framed_exist | apply framed_univ
                              | apply framed_or ]);
        destruct (do_while_framed c n m Hf (Nat.le_refl _))
          as [(C & Hh & _) _];
        destruct (do_while_reordered n c m) as [r m1]
    end;
    cbn [snd] in *; injection H as _ <-;
    unfold run_timeoutHandler; cbn in Hh; rewrite <- Hh;
    destruct (Cudd_ErrorType_eqb (errorCode m1) CUDD_TIMEOUT_EXPIRED
              && timeoutHandler m1) eqn:Hb; cbn; rewrite ?Hb; cbn in C;
      congruence.
Qed.

End Framed.

(** * The claims *)

(** ** Cube validation *)

Lemma addCheckPositiveCube_regular_iff (cube : DdNode) :
  addCheckPositiveCube_regular cube = true <-> PositiveCube (false, cube).
Proof.
  induction cube as [v | i cT IHT cE _]; simpl.
  - rewrite Z.eqb_eq. split.
    + intros ->. constructor.
    + intros H. inversion H. reflexivity.
  - destruct (DdNode_eqb cE DD_ZERO) eqn:Hz.
    + apply DdNode_eqb_eq in Hz; subst cE. rewrite IHT. split.
      * now constructor.
      * intros H. now inversion H.
    + split; [discriminate |]. intros H. inversion H; subst.
      now rewrite DdNode_eqb_refl in Hz.
Qed.

Lemma addCheckPositiveCube_iff (cube : DdPtr) :
  addCheckPositiveCube cube = true <-> PositiveCube cube.
Proof.
  destruct cube as [[|] n]; unfold addCheckPositiveCube; simpl.
  - split; [discriminate | intros H; inversion H].
  - apply addCheckPositiveCube_regular_iff.
Qed.

(** C7.  A cube that fails [addCheckPositiveCube] makes every exported
    function return [NULL] at once: the manager it leaves is the one it
    was given but for the message printed to [manager->err], so the
    computed table, the flags and the pending events are untouched.  And
    [addCheckPositiveCube] accepts exactly the regular pointers that are
    the constant one or a node whose else-child is the constant zero and
    whose then-child is accepted in turn. *)
Theorem invalid_cube_rejected (perm : nat -> nat) (f : DdNode)
        (cube : DdPtr) (manager : DdManager) :
  addCheckPositiveCube cube = false ->
  (forall c : DdPtr, addCheckPositiveCube c = true <-> PositiveCube c)
  /\ ~ PositiveCube cube
  /\ Cudd_addExistAbstract perm f cube manager
     = (None, fprintf_err "Error: Can only abstract cubes" manager)
  /\ Cudd_addUnivAbstract perm f cube manager
     = (None, fprintf_err "Error:  Can only abstract cubes" manager)
  /\ Cudd_addOrAbstract perm f cube manager
     = (None, fprintf_err "Error: Can only abstract cubes" manager)
  /\ Cudd_addMinAbstract perm f cube manager
     = (None, fprintf_err "Error: Can only abstract cubes" manager)
  /\ Cudd_addMinExcept0Abstract perm f cube manager
     = (None, fprintf_err "Error: Can only abstract cubes" manager)
  /\ Cudd_addMaxAbstract perm f cube manager
     = (None, fprintf_err "Error: Can only abstract cubes" manager)
  /\ Cudd_addMinAbstractRepresentative perm f cube manager
     = (None, fprintf_err "Error: Can only abstract cubes" manager)
  /\ Cudd_addMaxAbstractRepresentative perm f cube manager
     = (None, fprintf_err "Error: Can only abstract cubes" manager)
  /\ (forall s, cache (fprintf_err s manager) = cache manager
                /\ reordered (fprintf_err s manager) = reordered manager
                /\ errorCode (fprintf_err s manager) = errorCode manager
                /\ timeoutHandlerCalls (fprintf_err s manager)
                   = timeoutHandlerCalls manager
                /\ events (fprintf_err s manager) = events manager).
Proof.
  intros Hbad.
  split; [exact addCheckPositiveCube_iff |].
  split.
  { intros H. apply addCheckPositiveCube_iff in H. congruence. }
  unfold Cudd_addExistAbstract, Cudd_addUnivAbstract, Cudd_addOrAbstract,
    Cudd_addMinAbstract, Cudd_addMinExcept0Abstract, Cudd_addMaxAbstract,
    Cudd_addMinAbstractRepresentative, Cudd_addMaxAbstractRepresentative.
  rewrite Hbad. cbn [negb]. repeat split.
Qed.

Lemma invalid_cube_rejected_witness :
  addCheckPositiveCube (false, Node 0 DD_ONE (Const 7)) = false
  /\ Cudd_addMinAbstract identity_order f_x0
       (false, Node 0 DD_ONE (Const 7)) fresh_manager
     = (None, fprintf_err "Error: Can only abstract cubes" fresh_manager).
Proof.
  split; [reflexivity |].
  apply (invalid_cube_rejected identity_order f_x0
           (false, Node 0 DD_ONE (Const 7)) fresh_manager).
  reflexivity.
Defined.

(** ** The empty cube *)

Lemma do_while_ret {A : Type} (perm : nat -> nat) (v : A) (fuel : nat)
      (m : DdManager) :
  do_while_reordered fuel (ret (DdMonad := ManagerDd perm) v) m
  = (Some v, set_reordered false m).
Proof. destruct fuel; reflexivity. Qed.

(** C2, as the code has it.  Over the empty cube the existential,
    universal, disjunctive, minimum, minimum-except-zero and maximum
    abstractions return [f] itself, whatever the state of the manager;
    the two representative extractors return the constant one, the
    selector that is true everywhere. *)
Theorem empty_cube_identity (perm : nat -> nat) (f : DdNode)
        (manager : DdManager) :
  fst (Cudd_addExistAbstract perm f (false, DD_ONE) manager) = Some f
  /\ fst (Cudd_addUnivAbstract perm f (false, DD_ONE) manager) = Some f
  /\ fst (Cudd_addOrAbstract perm f (false, DD_ONE) manager) = Some f
  /\ fst (Cudd_addMinAbstract perm f (false, DD_ONE) manager) = Some f
  /\ fst (Cudd_addMinExcept0Abstract perm f (false, DD_ONE) manager)
     = Some f
  /\ fst (Cudd_addMaxAbstract perm f (false, DD_ONE) manager) = Some f
  /\ fst (Cudd_addMinAbstractRepresentative perm f (false, DD_ONE) manager)
     = Some one
  /\ fst (Cudd_addMaxAbstractRepresentative perm f (false, DD_ONE) manager)
     = Some one.
Proof.
  unfold Cudd_addExistAbstract, Cudd_addUnivAbstract, Cudd_addOrAbstract,
    Cudd_addMinAbstract, Cudd_addMinExcept0Abstract, Cudd_addMaxAbstract,
    Cudd_addMinAbstractRepresentative, Cudd_addMaxAbstractRepresentative.
  cbn [addCheckPositiveCube addCheckPositiveCube_regular fst snd negb
       DD_ONE Z.eqb Pos.eqb].
  unfold DD_ONE.
  rewrite exist_empty_cube, univ_empty_cube, or_empty_cube,
    min_empty_cube, max_empty_cube, minRep_empty_cube, maxRep_empty_cube.
  rewrite (minExcept0_base (DM := ManagerDd perm)) by
      (cbn [cuddIsConstant]; apply orb_true_r).
  rewrite !do_while_ret. repeat split.
Qed.

(** The claim as the specification states it fails for the
    representative extractors: over the empty cube
    [Cudd_addMinAbstractRepresentative] returns the constant one, which
    is not the diagram [ite(x0, 2, 3)] it was given. *)
Lemma empty_cube_representative_is_not_f :
  ~ (exists r : BddRef,
        fst (Cudd_addMinAbstractRepresentative identity_order f_x0
               (false, DD_ONE) fresh_manager) = Some r
        /\ pointer_of r = Some f_x0).
Proof.
  intros (r & Hr & Hp). cbn in Hr. injection Hr as <-. discriminate.
Qed.

(** ** The vacuous-variable case *)

(** C5.  When the top variable of the cube sits above the top variable
    of [f] in the order, existential abstraction is the abstraction over
    the tail of the cube combined with itself by [Cudd_addPlus],
    universal abstraction the same with [Cudd_addTimes], and
    disjunctive, minimum and maximum abstraction are the abstraction
    over the tail and nothing more.  The equations are between
    computations, for every reading of the effects: the left side makes
    exactly the calls of the right side. *)
Theorem vacuous_variable_case {M : Type -> Type} {DM : DdMonad M}
        (perm : nat -> nat) (ci : nat) (cT cE : DdNode)
        (fi : nat) (T E : DdNode) :
  (perm ci < perm fi)%nat ->
  let f := Node fi T E in
  let cube := Node ci cT cE in
  cuddAddExistAbstractRecur perm cube f
  = (res1 <- cuddAddExistAbstractRecur perm cT f ;;
     cuddAddApplyRecur Cudd_addPlus res1 res1)
  /\ cuddAddUnivAbstractRecur perm cube f
     = (res1 <- cuddAddUnivAbstractRecur perm cT f ;;
        cuddAddApplyRecur Cudd_addTimes res1 res1)
  /\ cuddAddOrAbstractRecur perm cube f = cuddAddOrAbstractRecur perm cT f
  /\ cuddAddMinAbstractRecur perm cube f = cuddAddMinAbstractRecur perm cT f
  /\ cuddAddMaxAbstractRecur perm cube f = cuddAddMaxAbstractRecur perm cT f.
Proof.
  intros Hlt f cube.
  assert (Hgt : cuddI_gt perm f ci = true) by now apply Nat.ltb_lt.
  unfold f, cube in *.
  rewrite exist_vacuous, univ_vacuous, or_vacuous, min_vacuous, max_vacuous
    by auto.
  repeat split.
Qed.

Lemma vacuous_variable_case_witness :
  (identity_order 0 < identity_order 1)%nat
  /\ cuddAddMinAbstractRecur (DM := PureDd identity_order) identity_order
       (Node 0 DD_ONE DD_ZERO) (Node 1 (Const 2) (Const 3))
     = cuddAddMinAbstractRecur (DM := PureDd identity_order) identity_order
         DD_ONE (Node 1 (Const 2) (Const 3)).
Proof.
  assert (H : (identity_order 0 < identity_order 1)%nat)
    by (unfold identity_order; lia).
  split; [exact H |].
  apply (vacuous_variable_case (DM := PureDd identity_order) identity_order
           0 DD_ONE DD_ZERO 1 (Const 2) (Const 3) H).
Defined.

(** ** Minimum except zero *)

(** C10.  When the top variable of the cube sits above the top variable
    of [f], the recursive step of [Cudd_addMinExcept0Abstract] is the
    plain minimum abstraction of [f] over the tail of the cube.  When
    both have the same top variable, and the computed table has no entry
    for the pair, both cofactors are abstracted by the plain minimum
    recursion and [Cudd_addMinimumExcept0] is applied once, to the two
    results. *)
Theorem minExcept0_delegates {M : Type -> Type} {DM : DdMonad M}
        (perm : nat -> nat) (ci : nat) (cT cE : DdNode)
        (fi : nat) (T E : DdNode) :
  (perm ci < perm fi)%nat ->
  cuddAddMinExcept0AbstractRecur perm (Node ci cT cE) (Node fi T E)
  = cuddAddMinAbstractRecur perm cT (Node fi T E)
  /\ cuddAddMinExcept0AbstractRecur perm (Node ci cT cE) (Node ci T E)
     = (hit <- cuddCacheLookup2 TAG_Cudd_addMinAbstract (Node ci T E)
                 (Node ci cT cE) ;;
        match hit with
        | Some res => ret res
        | None =>
            res1 <- cuddAddMinAbstractRecur perm cT T ;;
            res2 <- cuddAddMinAbstractRecur perm cT E ;;
            res <- cuddAddApplyRecur Cudd_addMinimumExcept0 res1 res2 ;;
            cuddCacheInsert2 TAG_Cudd_addMinAbstract (Node ci T E)
              (Node ci cT cE) res ;;;
            ret res
        end).
Proof.
  intros Hlt. split.
  - apply minExcept0_vacuous; [reflexivity | now apply Nat.ltb_lt].
  - rewrite minExcept0_node by (simpl; apply Nat.ltb_irrefl).
    now rewrite Nat.eqb_refl.
Qed.

Lemma minExcept0_delegates_witness :
  (identity_order 0 < identity_order 1)%nat
  /\ cuddAddMinExcept0AbstractRecur (DM := PureDd identity_order)
       identity_order (Node 0 DD_ONE DD_ZERO) (Node 1 (Const 2) (Const 3))
     = cuddAddMinAbstractRecur (DM := PureDd identity_order) identity_order
         DD_ONE (Node 1 (Const 2) (Const 3)).
Proof.
  assert (H : (identity_order 0 < identity_order 1)%nat)
    by (unfold identity_order; lia).
  split; [exact H |].
  apply (minExcept0_delegates (DM := PureDd identity_order) identity_order
           0 DD_ONE DD_ZERO 1 (Const 2) (Const 3) H).
Defined.

(** ** Additivity of existential abstraction *)

Lemma eval_cofactor (f : DdNode) (x : nat) (b : bool) (a : assignment) :
  eval (cofactor f x b) a = eval f (upd a x b).
Proof.
  induction f as [v | i t IHt e IHe]; simpl; [reflexivity |].
  destruct (Nat.eqb i x) eqn:Hix.
  - apply Nat.eqb_eq in Hix; subst i. rewrite upd_same.
    destruct b; assumption.
  - simpl. rewrite upd_other, IHt, IHe by assumption. reflexivity.
Qed.

(** C6.  On a manager with nothing pending and no stale entry in its
    computed table, [Cudd_addExistAbstract] of an ordered diagram [f]
    over the cube of the single variable [x] returns a diagram that is,
    at every assignment, the sum of the two cofactors of [f] with
    respect to [x]: the value of [cuddAddApplyRecur] with [Cudd_addPlus]
    on the cofactors, and the sum of the values of [f] with [x] false
    and with [x] true. *)
Theorem exist_abstract_additive (perm : nat -> nat) (f : DdNode) (x : nat)
        (manager : DdManager) :
  (forall i j, perm i = perm j -> i = j) ->
  quiet perm manager ->
  ordered perm f = true ->
  exists res manager',
    Cudd_addExistAbstract perm f (false, cube_of_var x) manager
    = (Some res, manager')
    /\ forall a : assignment,
         eval res a
         = eval (addApply perm Cudd_addPlus
                   (cofactor f x false) (cofactor f x true)) a
         /\ eval res a = eval f (upd a x false) + eval f (upd a x true).
Proof.
  intros Hinj Hq Hord.
  destruct (Cudd_addExistAbstract_quiet perm f (false, cube_of_var x)
              manager Hq eq_refl) as (m' & E & _).
  eexists; exists m'. split; [exact E |].
  intros a. cbn [snd].
  rewrite eval_addApply, !eval_cofactor by assumption.
  split; now apply existP_single.
Qed.

Lemma exist_abstract_additive_witness :
  (forall i j, identity_order i = identity_order j -> i = j)
  /\ quiet identity_order fresh_manager
  /\ ordered identity_order f_crossed = true
  /\ exists res manager',
       Cudd_addExistAbstract identity_order f_crossed (false, cube_of_var 0)
         fresh_manager = (Some res, manager')
       /\ forall a : assignment,
            eval res a
            = eval (addApply identity_order Cudd_addPlus
                      (cofactor f_crossed 0 false)
                      (cofactor f_crossed 0 true)) a
            /\ eval res a
               = eval f_crossed (upd a 0%nat false)
                 + eval f_crossed (upd a 0%nat true).
Proof.
  assert (Hinj : forall i j, identity_order i = identity_order j -> i = j)
    by (intros i j H; exact H).
  assert (Hq : quiet identity_order fresh_manager)
    by (split; [reflexivity | apply cache_ok_nil]).
  assert (Hord : ordered identity_order f_crossed = true) by reflexivity.
  split; [exact Hinj |]. split; [exact Hq |]. split; [exact Hord |].
  apply (exist_abstract_additive identity_order f_crossed 0 fresh_manager
           Hinj Hq Hord).
Defined.

(** ** Duality of minimum and maximum abstraction *)

Lemma negate_involutive (f : DdNode) : negate (negate f) = f.
Proof.
  induction f as [v | i t IHt e IHe]; simpl.
  - now rewrite Z.opp_involutive.
  - now rewrite IHt, IHe.
Qed.

Lemma DdNode_eqb_negate (f g : DdNode) :
  DdNode_eqb (negate f) (negate g) = DdNode_eqb f g.
Proof.
  destruct (DdNode_eqb f g) eqn:H.
  - apply DdNode_eqb_eq in H; subst. apply DdNode_eqb_refl.
  - apply DdNode_eqb_neq. apply DdNode_eqb_neq in H. intros Heq. apply H.
    rewrite <- (negate_involutive f), <- (negate_involutive g).
    now rewrite Heq.
Qed.

Lemma negate_addMk (i : nat) (t e : DdNode) :
  negate (addMk i t e) = addMk i (negate t) (negate e).
Proof.
  unfold addMk. rewrite DdNode_eqb_negate.
  now destruct (DdNode_eqb t e).
Qed.

Lemma DdNode_eqb_negate_ZERO (f : DdNode) :
  DdNode_eqb (negate f) DD_ZERO = DdNode_eqb f DD_ZERO.
Proof. exact (DdNode_eqb_negate f DD_ZERO). Qed.

Lemma cuddI_gt_negate (perm : nat -> nat) (f : DdNode) (ci : nat) :
  cuddI_gt perm (negate f) ci = cuddI_gt perm f ci.
Proof. now destruct f. Qed.

Lemma min_leaf_negate (a b : Z) :
  aop_leaf Cudd_addMinimum (- a) (- b) = - aop_leaf Cudd_addMaximum a b.
Proof.
  simpl. destruct (Z.leb_spec (- a) (- b)), (Z.geb_spec a b); lia.
Qed.

Section Duality.

Variable perm : nat -> nat.

Lemma addApply_min_negate (f g : DdNode) :
  addApply perm Cudd_addMinimum (negate f) (negate g)
  = negate (addApply perm Cudd_addMaximum f g).
Proof.
  revert g; induction f as [x | fi ft IHt fe IHe]; intros g;
    induction g as [y | gi gt IHgt ge IHge].
  - cbn [negate addApply]. now rewrite min_leaf_negate.
  - cbn [negate addApply] in *. now rewrite negate_addMk, IHgt, IHge.
  - cbn [negate addApply] in *.
    rewrite negate_addMk, <- IHt, <- IHe. reflexivity.
  - cbn [negate addApply] in *.
    destruct (Nat.ltb (perm fi) (perm gi)).
    + rewrite negate_addMk, <- IHt, <- IHe. reflexivity.
    + destruct (Nat.ltb (perm gi) (perm fi)).
      * now rewrite negate_addMk, IHgt, IHge.
      * rewrite negate_addMk, <- IHt, <- IHe. reflexivity.
Qed.

Local Abbreviation minP :=
  (cuddAddMinAbstractRecur (DM := PureDd perm) perm).
Local Abbreviation maxP :=
  (cuddAddMaxAbstractRecur (DM := PureDd perm) perm).

Lemma minP_maxP_dual (cube f : DdNode) :
  minP cube f = negate (maxP cube (negate f)).
Proof.
  revert f; induction cube as [c | ci cT IHcT cE _]; intros f.
  - rewrite min_empty_cube, max_empty_cube. pure_step.
    now rewrite negate_involutive.
  - induction f as [v | fi T IHT E IHE].
    + destruct (DdNode_eqb (Const v) DD_ZERO) eqn:Hz.
      * apply DdNode_eqb_eq in Hz. rewrite Hz.
        change (negate DD_ZERO) with DD_ZERO.
        rewrite min_zero, max_zero. reflexivity.
      * rewrite min_vacuous, max_vacuous;
          rewrite ?DdNode_eqb_negate_ZERO; auto.
    + destruct (cuddI_gt perm (Node fi T E) ci) eqn:Hgt.
      * rewrite min_vacuous, max_vacuous;
          rewrite ?DdNode_eqb_negate_ZERO, ?cuddI_gt_negate; auto.
      * cbn [negate]. rewrite min_node, max_node by assumption. pure_step.
        destruct (Nat.eqb fi ci).
        -- rewrite (IHcT T), (IHcT E). apply addApply_min_negate.
        -- rewrite IHT, IHE, DdNode_eqb_negate.
           now destruct (DdNode_eqb _ _).
Qed.

End Duality.

(** C8.  On a manager with nothing pending and no stale entry in its
    computed table, and for a valid cube, the diagram returned by
    [Cudd_addMinAbstract] for [f] is the leaf-wise negation of the
    diagram returned by [Cudd_addMaxAbstract] for the leaf-wise negation
    of [f]. *)
Theorem min_max_duality (perm : nat -> nat) (f : DdNode) (cube : DdPtr)
        (manager : DdManager) :
  quiet perm manager ->
  addCheckPositiveCube cube = true ->
  exists rmin rmax m1 m2,
    Cudd_addMinAbstract perm f cube manager = (Some rmin, m1)
    /\ Cudd_addMaxAbstract perm (negate f) cube manager = (Some rmax, m2)
    /\ rmin = negate rmax.
Proof.
  intros Hq Hcube.
  destruct (Cudd_addMinAbstract_quiet perm f cube manager Hq Hcube)
    as (m1 & E1 & _).
  destruct (Cudd_addMaxAbstract_quiet perm (negate f) cube manager Hq Hcube)
    as (m2 & E2 & _).
  do 2 eexists. exists m1, m2.
  split; [exact E1 |]. split; [exact E2 |].
  apply minP_maxP_dual.
Qed.

Lemma min_max_duality_witness :
  quiet identity_order fresh_manager
  /\ addCheckPositiveCube (false, cube_of_var 1) = true
  /\ exists rmin rmax m1 m2,
       Cudd_addMinAbstract identity_order f_crossed (false, cube_of_var 1)
         fresh_manager = (Some rmin, m1)
       /\ Cudd_addMaxAbstract identity_order (negate f_crossed)
            (false, cube_of_var 1) fresh_manager = (Some rmax, m2)
       /\ rmin = negate rmax.
Proof.
  assert (Hq : quiet identity_order fresh_manager)
    by (split; [reflexivity | apply cache_ok_nil]).
  split; [exact Hq |]. split; [reflexivity |].
  apply (min_max_duality identity_order f_crossed (false, cube_of_var 1)
           fresh_manager Hq eq_refl).
Defined.

(** ** The representative extractors *)

(** The node the extractors build from the selector [r1] of the
    else-branch and the selector [r2] of the then-branch, with the
    complement moved off the then-edge. *)
Lemma evalB_select (fi : nat) (r1 r2 : BddRef) (a : assignment) :
  evalB
    (if (if BddRef_eqb r1 r2 then true else Cudd_IsComplement r2)
     then Cudd_Not
            (if BddRef_eqb r1 r2
             then regular (BNode fi BOne (fst (Cudd_Not r1))
                             (snd (Cudd_Not r1)))
             else regular
                    (BNode fi (Cudd_Regular r2)
                       (fst (if if BddRef_eqb r1 r2 then true
                                else Cudd_IsComplement r2
                             then Cudd_Not r1 else r1))
                       (snd (if if BddRef_eqb r1 r2 then true
                                else Cudd_IsComplement r2
                             then Cudd_Not r1 else r1))))
     else if BddRef_eqb r1 r2
          then regular (BNode fi BOne (fst (Cudd_Not r1))
                          (snd (Cudd_Not r1)))
          else regular
                 (BNode fi (Cudd_Regular r2)
                    (fst (if if BddRef_eqb r1 r2 then true
                             else Cudd_IsComplement r2
                          then Cudd_Not r1 else r1))
                    (snd (if if BddRef_eqb r1 r2 then true
                             else Cudd_IsComplement r2
                          then Cudd_Not r1 else r1)))) a
  = if BddRef_eqb r1 r2 then negb (a fi) && evalB r1 a
    else if a fi then evalB r2 a else evalB r1 a.
Proof.
  destruct (BddRef_eqb r1 r2).
  - rewrite evalB_Cudd_Not, evalB_node, evalB_Cudd_Not. simpl.
    destruct (a fi), (evalB r1 a); reflexivity.
  - destruct r2 as [[|] n2]; unfold Cudd_IsComplement, Cudd_Regular;
      cbn [fst snd].
    + rewrite evalB_Cudd_Not, evalB_node, evalB_Cudd_Not.
      unfold evalB at 2; cbn [fst snd xorb].
      destruct (a fi), (evalN n2 a), (evalB r1 a); reflexivity.
    + rewrite evalB_node. unfold evalB at 2; cbn [fst snd xorb].
      reflexivity.
Qed.

Section Representatives.

Variable perm : nat -> nat.
Hypothesis perm_inj : forall i j, perm i = perm j -> i = j.

Local Abbreviation minP :=
  (cuddAddMinAbstractRecur (DM := PureDd perm) perm).
Local Abbreviation maxP :=
  (cuddAddMaxAbstractRecur (DM := PureDd perm) perm).
Local Abbreviation minRepP :=
  (cuddAddMinAbstractRepresentativeRecur (DM := PureDd perm) perm).
Local Abbreviation maxRepP :=
  (cuddAddMaxAbstractRepresentativeRecur (DM := PureDd perm) perm).

Lemma cuddI_gt_same (i : nat) (T E : DdNode) :
  cuddI_gt perm (Node i T E) i = false.
Proof. simpl. apply Nat.ltb_irrefl. Qed.

Lemma minRepP_vacuous (ci : nat) (cT cE f : DdNode) (a : assignment) :
  cuddI_gt perm f ci = true ->
  evalB (minRepP (Node ci cT cE) f) a
  = negb (a ci) && evalB (minRepP cT f) a.
Proof.
  intros Hgt. rewrite minRep_vacuous by assumption. pure_step.
  rewrite evalB_Cudd_Not, evalB_node, evalB_Cudd_Not. simpl.
  destruct (a ci), (evalB _ a); reflexivity.
Qed.

Lemma maxRepP_vacuous (ci : nat) (cT cE f : DdNode) (a : assignment) :
  cuddI_gt perm f ci = true ->
  evalB (maxRepP (Node ci cT cE) f) a
  = negb (a ci) && evalB (maxRepP cT f) a.
Proof.
  intros Hgt. rewrite maxRep_vacuous by assumption. pure_step.
  rewrite evalB_Cudd_Not, evalB_node, evalB_Cudd_Not. simpl.
  destruct (a ci), (evalB _ a); reflexivity.
Qed.

(** Two gated selectors that coincide are both false. *)
Lemma gated_equal (tmp r1 r2 : BddRef) (a : assignment) :
  bddIte perm tmp r1 logicalZero
  = bddIte perm (Cudd_Not tmp) r2 logicalZero ->
  evalB (bddIte perm tmp r1 logicalZero) a = false.
Proof.
  intros Heq. pose proof (f_equal (fun r => evalB r a) Heq) as H.
  cbv beta in H. rewrite !evalB_bddIte, evalB_Cudd_Not in H.
  rewrite evalB_bddIte. rewrite evalB_logicalZero in *.
  destruct (evalB tmp a); simpl in *; [assumption | reflexivity].
Qed.

Lemma minRepP_matching (i : nat) (cT cE T E : DdNode) (a : assignment) :
  evalB (minRepP (Node i cT cE) (Node i T E)) a
  = if a i
    then negb (eval (minP cT E) a <=? eval (minP cT T) a)
         && evalB (minRepP cT T) a
    else (eval (minP cT E) a <=? eval (minP cT T) a)
         && evalB (minRepP cT E) a.
Proof.
  rewrite minRep_node by apply cuddI_gt_same. pure_step.
  rewrite Nat.eqb_refl. cbv zeta. rewrite evalB_select.
  destruct (BddRef_eqb _ _) eqn:Heq.
  - apply BddRef_eqb_eq in Heq.
    pose proof (gated_equal _ _ _ a Heq) as H1.
    pose proof H1 as H2. rewrite Heq in H2.
    rewrite H1. rewrite !evalB_bddIte, evalB_Cudd_Not in *.
    rewrite evalB_addToBddApply in * by assumption. simpl in *.
    rewrite evalB_logicalZero in *.
    destruct (a i), (_ <=? _); simpl in *;
      rewrite ?H1, ?H2; reflexivity.
  - rewrite !evalB_bddIte, evalB_Cudd_Not.
    rewrite evalB_addToBddApply by assumption. simpl.
    rewrite evalB_logicalZero.
    destruct (a i), (_ <=? _); reflexivity.
Qed.

Lemma maxRepP_matching (i : nat) (cT cE T E : DdNode) (a : assignment) :
  evalB (maxRepP (Node i cT cE) (Node i T E)) a
  = if a i
    then negb (eval (maxP cT E) a >=? eval (maxP cT T) a)
         && evalB (maxRepP cT T) a
    else (eval (maxP cT E) a >=? eval (maxP cT T) a)
         && evalB (maxRepP cT E) a.
Proof.
  rewrite maxRep_node by apply cuddI_gt_same. pure_step.
  rewrite Nat.eqb_refl. cbv zeta. rewrite evalB_select.
  destruct (BddRef_eqb _ _) eqn:Heq.
  - apply BddRef_eqb_eq in Heq.
    pose proof (gated_equal _ _ _ a Heq) as H1.
    pose proof H1 as H2. rewrite Heq in H2.
    rewrite H1. rewrite !evalB_bddIte, evalB_Cudd_Not in *.
    rewrite evalB_addToBddApply in * by assumption. simpl in *.
    rewrite evalB_logicalZero in *.
    destruct (a i), (_ >=? _); simpl in *;
      rewrite ?H1, ?H2; reflexivity.
  - rewrite !evalB_bddIte, evalB_Cudd_Not.
    rewrite evalB_addToBddApply by assumption. simpl.
    rewrite evalB_logicalZero.
    destruct (a i), (_ >=? _); reflexivity.
Qed.

End Representatives.

(** C9.  Where [f] and the cube share their top variable [i], the
    selector returned by the minimum (maximum) representative recursion
    is, on the side where [i] is false, the selector of the else-branch
    gated by "minimum of the else-branch [<=] minimum of the
    then-branch" ([>=] for the maximum), and on the side where [i] is
    true the selector of the then-branch gated by the negation of that
    comparison: a tie goes to the else-branch.  Where the top variable
    [ci] of the cube sits above [f], the selector is the selector for
    the tail of the cube with [ci] forced to false. *)
Theorem representative_canonical_choice (perm : nat -> nat)
        (ci : nat) (cT cE T E f : DdNode) (a : assignment) :
  (forall i j, perm i = perm j -> i = j) ->
  cuddI_gt perm f ci = true ->
  let minP := cuddAddMinAbstractRecur (DM := PureDd perm) perm in
  let maxP := cuddAddMaxAbstractRecur (DM := PureDd perm) perm in
  let minRepP :=
    cuddAddMinAbstractRepresentativeRecur (DM := PureDd perm) perm in
  let maxRepP :=
    cuddAddMaxAbstractRepresentativeRecur (DM := PureDd perm) perm in
  evalB (minRepP (Node ci cT cE) (Node ci T E)) a
  = (if a ci
     then negb (eval (minP cT E) a <=? eval (minP cT T) a)
          && evalB (minRepP cT T) a
     else (eval (minP cT E) a <=? eval (minP cT T) a)
          && evalB (minRepP cT E) a)
  /\ evalB (maxRepP (Node ci cT cE) (Node ci T E)) a
     = (if a ci
        then negb (eval (maxP cT E) a >=? eval (maxP cT T) a)
             && evalB (maxRepP cT T) a
        else (eval (maxP cT E) a >=? eval (maxP cT T) a)
             && evalB (maxRepP cT E) a)
  /\ evalB (minRepP (Node ci cT cE) f) a
     = negb (a ci) && evalB (minRepP cT f) a
  /\ evalB (maxRepP (Node ci cT cE) f) a
     = negb (a ci) && evalB (maxRepP cT f) a.
Proof.
  intros Hinj Hgt minP maxP minRepP maxRepP.
  unfold minP, maxP, minRepP, maxRepP.
  split; [now apply minRepP_matching |].
  split; [now apply maxRepP_matching |].
  split; [now apply minRepP_vacuous | now apply maxRepP_vacuous].
Qed.

Lemma representative_canonical_choice_witness :
  (forall i j, identity_order i = identity_order j -> i = j)
  /\ cuddI_gt identity_order (Node 1 (Const 2) (Const 3)) 0 = true
  /\ evalB (cuddAddMinAbstractRepresentativeRecur
              (DM := PureDd identity_order) identity_order
              (Node 0 DD_ONE DD_ZERO) (Node 1 (Const 2) (Const 3)))
           (only [])
     = negb (only [] 0%nat)
       && evalB (cuddAddMinAbstractRepresentativeRecur
                   (DM := PureDd identity_order) identity_order
                   DD_ONE (Node 1 (Const 2) (Const 3))) (only []).
Proof.
  assert (Hinj : forall i j, identity_order i = identity_order j -> i = j)
    by (intros i j H; exact H).
  split; [exact Hinj |]. split; [reflexivity |].
  apply (representative_canonical_choice identity_order 0 DD_ONE DD_ZERO
           (Const 4) (Const 4) (Node 1 (Const 2) (Const 3)) (only [])
           Hinj eq_refl).
Defined.

Section MaxRepresentative.

Variable perm : nat -> nat.
Hypothesis perm_inj : forall i j, perm i = perm j -> i = j.

Local Abbreviation maxP :=
  (cuddAddMaxAbstractRecur (DM := PureDd perm) perm).
Local Abbreviation maxRepP :=
  (cuddAddMaxAbstractRepresentativeRecur (DM := PureDd perm) perm).

Lemma maxRepP_pass (ci : nat) (cT cE : DdNode) (fi : nat) (T E : DdNode)
      (a : assignment) :
  cuddI_gt perm (Node fi T E) ci = false -> Nat.eqb fi ci = false ->
  evalB (maxRepP (Node ci cT cE) (Node fi T E)) a
  = if BddRef_eqb (maxRepP (Node ci cT cE) E) (maxRepP (Node ci cT cE) T)
    then negb (a fi) && evalB (maxRepP (Node ci cT cE) E) a
    else if a fi then evalB (maxRepP (Node ci cT cE) T) a
         else evalB (maxRepP (Node ci cT cE) E) a.
Proof.
  intros Hgt Hix. rewrite maxRep_node by assumption. pure_step.
  rewrite Hix. cbv zeta. apply evalB_select.
Qed.

(** Every assignment the maximum selector accepts attains the maximum
    over the cube variables. *)
Lemma maxRepP_accepts_maximum (cube f : DdNode) (a : assignment) :
  evalB (maxRepP cube f) a = true -> eval f a = eval (maxP cube f) a.
Proof.
  revert f; induction cube as [c | ci cT IHcT cE _]; intros f.
  - intros _. rewrite max_empty_cube. reflexivity.
  - induction f as [v | fi T IHT E IHE]; intros H.
    + rewrite maxRepP_vacuous in H by reflexivity.
      apply andb_true_iff in H. destruct H as [_ H]. apply IHcT in H.
      destruct (DdNode_eqb (Const v) DD_ZERO) eqn:Hz.
      * apply DdNode_eqb_eq in Hz. rewrite Hz, max_zero. reflexivity.
      * rewrite max_vacuous by auto. exact H.
    + destruct (cuddI_gt perm (Node fi T E) ci) eqn:Hgt.
      * rewrite maxRepP_vacuous in H by assumption.
        apply andb_true_iff in H. destruct H as [_ H]. apply IHcT in H.
        rewrite max_vacuous by auto. exact H.
      * rewrite max_node by assumption. pure_step.
        destruct (Nat.eqb fi ci) eqn:Hix.
        -- apply Nat.eqb_eq in Hix; subst fi.
           rewrite maxRepP_matching in H by assumption.
           rewrite eval_addApply by assumption. simpl.
           destruct (a ci); apply andb_true_iff in H; destruct H as [Hc Hr];
             apply IHcT in Hr; rewrite <- Hr in *.
           ++ apply negb_true_iff in Hc.
              destruct (Z.geb_spec (eval (maxP cT E) a) (eval T a));
                [discriminate |].
              destruct (Z.geb_spec (eval T a) (eval (maxP cT E) a)); lia.
           ++ destruct (Z.geb_spec (eval E a) (eval (maxP cT T) a));
                [| discriminate].
              destruct (Z.geb_spec (eval (maxP cT T) a) (eval E a)); lia.
        -- rewrite maxRepP_pass in H by assumption.
           rewrite eval_if_eqb. simpl.
           destruct (BddRef_eqb _ _).
           ++ apply andb_true_iff in H. destruct H as [Hc Hr].
              apply negb_true_iff in Hc. rewrite Hc. now apply IHE.
           ++ destruct (a fi); [now apply IHT | now apply IHE].
Qed.

End MaxRepresentative.

(** C1, where the code departs from it.  For
    [f = ite(x0, ite(x1, 1, 5), ite(x1, 5, 1))] and the cube of [x1], on
    a fresh manager, [Cudd_addMinAbstractRepresentative] returns a
    selector that accepts an assignment exactly when [x1] is true.  At
    [x0] false it therefore extends the assignment with [x1] true, where
    [f] is 5, while [Cudd_addMinAbstract] gives 1 there.  For
    [g = ite(x0, ite(x1, 1, 5), ite(x1, 2, 7))] and the same cube,
    [Cudd_addMaxAbstractRepresentative] returns a selector that accepts
    no assignment in which [x0] is true: it selects no representative
    there. *)
Theorem representative_soundness_fails :
  exists (r : BddRef) (rmin : DdNode) (r' : BddRef) (m1 m2 m3 : DdManager),
    Cudd_addMinAbstractRepresentative identity_order f_crossed
      (false, cube_of_var 1) fresh_manager = (Some r, m1)
    /\ Cudd_addMinAbstract identity_order f_crossed
         (false, cube_of_var 1) fresh_manager = (Some rmin, m2)
    /\ (forall a : assignment, evalB r a = a 1%nat)
    /\ eval f_crossed (only [1%nat]) = 5
    /\ eval rmin (only [1%nat]) = 1
    /\ Cudd_addMaxAbstractRepresentative identity_order f_aligned
         (false, cube_of_var 1) fresh_manager = (Some r', m3)
    /\ (forall a : assignment, a 0%nat = true -> evalB r' a = false).
Proof.
  do 6 eexists.
  split; [vm_compute; reflexivity |].
  split; [vm_compute; reflexivity |].
  split.
  { intros a. unfold evalB; simpl. destruct (a 0%nat), (a 1%nat); reflexivity. }
  split; [reflexivity |]. split; [reflexivity |].
  split; [vm_compute; reflexivity |].
  intros a Ha. unfold evalB; simpl. rewrite Ha. reflexivity.
Qed.

(** ** The deadline *)

(** C3, where the code departs from it.  On a manager with a timeout
    handler installed and the deadline about to expire, every exported
    function returns [NULL] with [CUDD_TIMEOUT_EXPIRED] as error code.
    [Cudd_addExistAbstract], [Cudd_addUnivAbstract] and
    [Cudd_addOrAbstract] have run the handler once by then; the minimum,
    minimum-except-zero and maximum abstractions and the two
    representative extractors have not run it at all. *)
Theorem timeout_handler_calls :
  let cube : DdPtr := (false, cube_of_var 0) in
  let outcome {A : Type} (res : option A * DdManager) :=
    (match fst res with Some _ => false | None => true end,
     errorCode (snd res), timeoutHandlerCalls (snd res)) in
  timeoutHandler expiring_manager = true
  /\ outcome (Cudd_addExistAbstract identity_order f_x0 cube
                expiring_manager) = (true, CUDD_TIMEOUT_EXPIRED, 1%nat)
  /\ outcome (Cudd_addUnivAbstract identity_order f_x0 cube
                expiring_manager) = (true, CUDD_TIMEOUT_EXPIRED, 1%nat)
  /\ outcome (Cudd_addOrAbstract identity_order f_x0 cube
                expiring_manager) = (true, CUDD_TIMEOUT_EXPIRED, 1%nat)
  /\ outcome (Cudd_addMinAbstract identity_order f_x0 cube
                expiring_manager) = (true, CUDD_TIMEOUT_EXPIRED, 0%nat)
  /\ outcome (Cudd_addMinExcept0Abstract identity_order f_x0 cube
                expiring_manager) = (true, CUDD_TIMEOUT_EXPIRED, 0%nat)
  /\ outcome (Cudd_addMaxAbstract identity_order f_x0 cube
                expiring_manager) = (true, CUDD_TIMEOUT_EXPIRED, 0%nat)
  /\ outcome (Cudd_addMinAbstractRepresentative identity_order f_x0 cube
                expiring_manager) = (true, CUDD_TIMEOUT_EXPIRED, 0%nat)
  /\ outcome (Cudd_addMaxAbstractRepresentative identity_order f_x0 cube
                expiring_manager) = (true, CUDD_TIMEOUT_EXPIRED, 0%nat).
Proof. repeat split. Qed.

(** ** The computed table *)

(** C4, where the code departs from it.  [cuddAddMinExcept0AbstractRecur]
    looks up and stores its results under the tag of
    [Cudd_addMinAbstract].  For [f = ite(x0, 0, 3)] and the cube of [x0]
    the minimum is 0 and the minimum except zero is 3 on a fresh
    manager; but after a call of [Cudd_addMinAbstract] the call of
    [Cudd_addMinExcept0Abstract] hits the entry of the former and
    returns 0, and after a call of [Cudd_addMinExcept0Abstract] the call
    of [Cudd_addMinAbstract] returns 3. *)
Theorem min_except0_shares_cache_tag :
  let cube : DdPtr := (false, cube_of_var 0) in
  let after_min :=
    snd (Cudd_addMinAbstract identity_order f_zero_three cube
           fresh_manager) in
  let after_except0 :=
    snd (Cudd_addMinExcept0Abstract identity_order f_zero_three cube
           fresh_manager) in
  fst (Cudd_addMinAbstract identity_order f_zero_three cube fresh_manager)
  = Some (Const 0)
  /\ fst (Cudd_addMinExcept0Abstract identity_order f_zero_three cube
            fresh_manager) = Some (Const 3)
  /\ cache after_min
     = [((TAG_Cudd_addMinAbstract, f_zero_three, cube_of_var 0),
         AddVal (Const 0))]
  /\ cache after_except0
     = [((TAG_Cudd_addMinAbstract, f_zero_three, cube_of_var 0),
         AddVal (Const 3))]
  /\ fst (Cudd_addMinExcept0Abstract identity_order f_zero_three cube
            after_min) = Some (Const 0)
  /\ fst (Cudd_addMinAbstract identity_order f_zero_three cube
            after_except0) = Some (Const 3).
Proof. repeat split. Qed.

(** * Further properties of the exported functions *)

(** ** The computed table is an optimisation *)

Lemma quiet_empty_cache (perm : nat -> nat) (m : DdManager) :
  events m = [] -> quiet perm (set_cache [] m).
Proof. intros He. split; [exact He | apply cache_ok_nil]. Qed.

(** X1.  On a manager with nothing pending whose computed table holds no
    stale entry, each exported function other than
    [Cudd_addMinExcept0Abstract] returns, for a valid cube, what it
    returns when the table is empty, and the table it leaves again holds
    no stale entry. *)
Theorem computed_table_transparent (perm : nat -> nat) (f : DdNode)
        (cube : DdPtr) (m : DdManager) :
  quiet perm m ->
  addCheckPositiveCube cube = true ->
  (fst (Cudd_addExistAbstract perm f cube m)
   = fst (Cudd_addExistAbstract perm f cube (set_cache [] m))
   /\ quiet perm (snd (Cudd_addExistAbstract perm f cube m)))
  /\ (fst (Cudd_addUnivAbstract perm f cube m)
      = fst (Cudd_addUnivAbstract perm f cube (set_cache [] m))
      /\ quiet perm (snd (Cudd_addUnivAbstract perm f cube m)))
  /\ (fst (Cudd_addOrAbstract perm f cube m)
      = fst (Cudd_addOrAbstract perm f cube (set_cache [] m))
      /\ quiet perm (snd (Cudd_addOrAbstract perm f cube m)))
  /\ (fst (Cudd_addMinAbstract perm f cube m)
      = fst (Cudd_addMinAbstract perm f cube (set_cache [] m))
      /\ quiet perm (snd (Cudd_addMinAbstract perm f cube m)))
  /\ (fst (Cudd_addMaxAbstract perm f cube m)
      = fst (Cudd_addMaxAbstract perm f cube (set_cache [] m))
      /\ quiet perm (snd (Cudd_addMaxAbstract perm f cube m)))
  /\ (fst (Cudd_addMinAbstractRepresentative perm f cube m)
      = fst (Cudd_addMinAbstractRepresentative perm f cube (set_cache [] m))
      /\ quiet perm (snd (Cudd_addMinAbstractRepresentative perm f cube m)))
  /\ (fst (Cudd_addMaxAbstractRepresentative perm f cube m)
      = fst (Cudd_addMaxAbstractRepresentative perm f cube (set_cache [] m))
      /\ quiet perm
           (snd (Cudd_addMaxAbstractRepresentative perm f cube m))).
Proof.
  intros Hq Hcube.
  assert (Hq0 : quiet perm (set_cache [] m))
    by (apply quiet_empty_cache; apply Hq).
  repeat split;
    match goal with
    | |- fst (?entry perm f cube m) = _ =>
        first
          [ destruct (Cudd_addExistAbstract_quiet perm f cube m Hq Hcube)
              as (m1 & E1 & _);
            destruct (Cudd_addExistAbstract_quiet perm f cube _ Hq0 Hcube)
              as (m2 & E2 & _); rewrite E1, E2; reflexivity
          | destruct (Cudd_addUnivAbstract_quiet perm f cube m Hq Hcube)
              as (m1 & E1 & _);
            destruct (Cudd_addUnivAbstract_quiet perm f cube _ Hq0 Hcube)
              as (m2 & E2 & _); rewrite E1, E2; reflexivity
          | destruct (Cudd_addOrAbstract_quiet perm f cube m Hq Hcube)
              as (m1 & E1 & _);
            destruct (Cudd_addOrAbstract_quiet perm f cube _ Hq0 Hcube)
              as (m2 & E2 & _); rewrite E1, E2; reflexivity
          | destruct (Cudd_addMinAbstract_quiet perm f cube m Hq Hcube)
              as (m1 & E1 & _);
            destruct (Cudd_addMinAbstract_quiet perm f cube _ Hq0 Hcube)
              as (m2 & E2 & _); rewrite E1, E2; reflexivity
          | destruct (Cudd_addMaxAbstract_quiet perm f cube m Hq Hcube)
              as (m1 & E1 & _);
            destruct (Cudd_addMaxAbstract_quiet perm f cube _ Hq0 Hcube)
              as (m2 & E2 & _); rewrite E1, E2; reflexivity
          | destruct (Cudd_addMinAbstractRepresentative_quiet perm f cube m
                        Hq Hcube) as (m1 & E1 & _);
            destruct (Cudd_addMinAbstractRepresentative_quiet perm f cube _
                        Hq0 Hcube) as (m2 & E2 & _);
            rewrite E1, E2; reflexivity
          | destruct (Cudd_addMaxAbstractRepresentative_quiet perm f cube m
                        Hq Hcube) as (m1 & E1 & _);
            destruct (Cudd_addMaxAbstractRepresentative_quiet perm f cube _
                        Hq0 Hcube) as (m2 & E2 & _);
            rewrite E1, E2; reflexivity ]
    | |- events (snd (?entry perm f cube m)) = _ =>
        first
          [ destruct (Cudd_addExistAbstract_quiet perm f cube m Hq Hcube)
              as (m1 & E1 & Q); rewrite E1; apply Q
          | destruct (Cudd_addUnivAbstract_quiet perm f cube m Hq Hcube)
              as (m1 & E1 & Q); rewrite E1; apply Q
          | destruct (Cudd_addOrAbstract_quiet perm f cube m Hq Hcube)
              as (m1 & E1 & Q); rewrite E1; apply Q
          | destruct (Cudd_addMinAbstract_quiet perm f cube m Hq Hcube)
              as (m1 & E1 & Q); rewrite E1; apply Q
          | destruct (Cudd_addMaxAbstract_quiet perm f cube m Hq Hcube)
              as (m1 & E1 & Q); rewrite E1; apply Q
          | destruct (Cudd_addMinAbstractRepresentative_quiet perm f cube m
                        Hq Hcube) as (m1 & E1 & Q); rewrite E1; apply Q
          | destruct (Cudd_addMaxAbstractRepresentative_quiet perm f cube m
                        Hq Hcube) as (m1 & E1 & Q); rewrite E1; apply Q ]
    | |- cache_ok perm (cache (snd (?entry perm f cube m))) =>
        first
          [ destruct (Cudd_addExistAbstract_quiet perm f cube m Hq Hcube)
              as (m1 & E1 & Q); rewrite E1; apply Q
          | destruct (Cudd_addUnivAbstract_quiet perm f cube m Hq Hcube)
              as (m1 & E1 & Q); rewrite E1; apply Q
          | destruct (Cudd_addOrAbstract_quiet perm f cube m Hq Hcube)
              as (m1 & E1 & Q); rewrite E1; apply Q
          | destruct (Cudd_addMinAbstract_quiet perm f cube m Hq Hcube)
              as (m1 & E1 & Q); rewrite E1; apply Q
          | destruct (Cudd_addMaxAbstract_quiet perm f cube m Hq Hcube)
              as (m1 & E1 & Q); rewrite E1; apply Q
          | destruct (Cudd_addMinAbstractRepresentative_quiet perm f cube m
                        Hq Hcube) as (m1 & E1 & Q); rewrite E1; apply Q
          | destruct (Cudd_addMaxAbstractRepresentative_quiet perm f cube m
                        Hq Hcube) as (m1 & E1 & Q); rewrite E1; apply Q ]
    end.
Qed.

Lemma quiet_fresh_manager : quiet identity_order fresh_manager.
Proof. split; [reflexivity | apply cache_ok_nil]. Qed.

Lemma quiet_warm_manager : quiet identity_order warm_manager.
Proof.
  unfold warm_manager.
  destruct (Cudd_addMinAbstract_quiet identity_order f_crossed
              (false, cube_of_var 1) fresh_manager quiet_fresh_manager
              eq_refl) as (m' & E & Q).
  rewrite E. exact Q.
Qed.

Lemma computed_table_transparent_witness :
  quiet identity_order warm_manager
  /\ addCheckPositiveCube (false, cube_of_var 1) = true
  /\ cache warm_manager <> []
  /\ fst (Cudd_addMinAbstract identity_order f_crossed
            (false, cube_of_var 1) warm_manager)
     = fst (Cudd_addMinAbstract identity_order f_crossed
              (false, cube_of_var 1) (set_cache [] warm_manager)).
Proof.
  split; [exact quiet_warm_manager |]. split; [reflexivity |].
  split; [discriminate |].
  apply (computed_table_transparent identity_order f_crossed
           (false, cube_of_var 1) warm_manager quiet_warm_manager eq_refl).
Defined.

Lemma handler_run_once_witness :
  addCheckPositiveCube (false, cube_of_var 0) = true
  /\ timeoutHandlerCalls
       (snd (Cudd_addExistAbstract identity_order f_x0
               (false, cube_of_var 0) expiring_manager))
     = (if Cudd_ErrorType_eqb
             (errorCode
                (snd (Cudd_addExistAbstract identity_order f_x0
                        (false, cube_of_var 0) expiring_manager)))
             CUDD_TIMEOUT_EXPIRED
           && timeoutHandler expiring_manager
        then S (timeoutHandlerCalls expiring_manager)
        else timeoutHandlerCalls expiring_manager).
Proof.
  split; [reflexivity |].
  apply (handler_run_once identity_order f_x0 (false, cube_of_var 0)
           expiring_manager eq_refl
           (fst (Cudd_addExistAbstract identity_order f_x0
                   (false, cube_of_var 0) expiring_manager))).
  left. reflexivity.
Defined.

(** ** The maximum representative *)

(** X4.  On a manager with nothing pending and no stale entry in its
    computed table, and for a valid cube, every assignment accepted by
    the selector that [Cudd_addMaxAbstractRepresentative] returns is one
    at which [f] has the value of the diagram that
    [Cudd_addMaxAbstract] returns. *)
Theorem max_representative_attains_maximum (perm : nat -> nat)
        (f : DdNode) (cube : DdPtr) (m : DdManager) :
  (forall i j, perm i = perm j -> i = j) ->
  quiet perm m ->
  addCheckPositiveCube cube = true ->
  exists sel res m1 m2,
    Cudd_addMaxAbstractRepresentative perm f cube m = (Some sel, m1)
    /\ Cudd_addMaxAbstract perm f cube m = (Some res, m2)
    /\ forall a : assignment,
         evalB sel a = true -> eval f a = eval res a.
Proof.
  intros Hinj Hq Hcube.
  destruct (Cudd_addMaxAbstractRepresentative_quiet perm f cube m Hq Hcube)
    as (m1 & E1 & _).
  destruct (Cudd_addMaxAbstract_quiet perm f cube m Hq Hcube)
    as (m2 & E2 & _).
  do 2 eexists. exists m1, m2.
  split; [exact E1 |]. split; [exact E2 |].
  intros a. now apply maxRepP_accepts_maximum.
Qed.

Lemma max_representative_attains_maximum_witness :
  (forall i j, identity_order i = identity_order j -> i = j)
  /\ quiet identity_order fresh_manager
  /\ addCheckPositiveCube (false, cube_of_var 1) = true
  /\ exists sel res m1 m2,
       Cudd_addMaxAbstractRepresentative identity_order f_crossed
         (false, cube_of_var 1) fresh_manager = (Some sel, m1)
       /\ Cudd_addMaxAbstract identity_order f_crossed
            (false, cube_of_var 1) fresh_manager = (Some res, m2)
       /\ forall a : assignment,
            evalB sel a = true -> eval f_crossed a = eval res a.
Proof.
  assert (Hinj : forall i j, identity_order i = identity_order j -> i = j)
    by (intros i j H; exact H).
  split; [exact Hinj |]. split; [exact quiet_fresh_manager |].
  split; [reflexivity |].
  apply (max_representative_attains_maximum identity_order f_crossed
           (false, cube_of_var 1) fresh_manager Hinj quiet_fresh_manager
           eq_refl).
Defined.

(** ** What the abstractions compute *)

Lemma eval_ext (f : DdNode) (a a' : assignment) :
  (forall x, a x = a' x) -> eval f a = eval f a'.
Proof.
  intros H. induction f as [v | i t IHt e IHe]; simpl; [reflexivity |].
  now rewrite H, IHt, IHe.
Qed.

Lemma upd_ext (a a' : assignment) (x : nat) (b : bool) :
  (forall y, a y = a' y) -> forall y, upd a x b y = upd a' x b y.
Proof. intros H y. unfold upd. now destruct (Nat.eqb y x). Qed.

Lemma upd_comm (a : assignment) (x y : nat) (b c : bool) :
  x <> y -> forall z, upd (upd a x b) y c z = upd (upd a y c) x b z.
Proof.
  intros Hxy z. unfold upd.
  destruct (Nat.eqb_spec z y), (Nat.eqb_spec z x); congruence.
Qed.

Section FoldCube.

Variable op : Z -> Z -> Z.

(** The combination over [vars] looks at [a] only outside [vars]. *)
Lemma fold_cube_agree (vars : list nat) (f : DdNode) :
  forall a a' : assignment,
    (forall x, ~ In x vars -> a x = a' x) ->
    fold_cube op vars (eval f) a = fold_cube op vars (eval f) a'.
Proof.
  induction vars as [| x xs IH]; intros a a' H; simpl.
  - apply eval_ext. intros x. apply H. intros [].
  - rewrite (IH (upd a x true) (upd a' x true)),
      (IH (upd a x false) (upd a' x false)); [reflexivity | |];
      intros y Hy; unfold upd; destruct (Nat.eqb_spec y x); auto;
      apply H; simpl; intros [Heq | Hin]; auto.
Qed.

Lemma fold_cube_const (vars : list nat) (v : Z) (a : assignment) :
  op v v = v -> fold_cube op vars (eval (Const v)) a = v.
Proof.
  intros Hv. revert a. induction vars as [| x xs IH]; intros a; simpl.
  - reflexivity.
  - now rewrite !IH.
Qed.

(** Below a variable that is not combined over, the combination sees
    only the branch the assignment selects. *)
Lemma fold_cube_branch (vars : list nat) (i : nat) (T E : DdNode) :
  ~ In i vars ->
  forall a : assignment,
    fold_cube op vars (eval (Node i T E)) a
    = if a i then fold_cube op vars (eval T) a
      else fold_cube op vars (eval E) a.
Proof.
  intros Hi. induction vars as [| x xs IH]; intros a; simpl.
  - reflexivity.
  - assert (Hx : Nat.eqb i x = false).
    { apply Nat.eqb_neq. intros ->. apply Hi. now left. }
    rewrite !IH by (intros Hin; apply Hi; now right).
    rewrite !upd_other by assumption.
    now destruct (a i).
Qed.

End FoldCube.

Section Ordered.

Variable perm : nat -> nat.
Hypothesis perm_inj : forall i j, perm i = perm j -> i = j.

(** The variables of an ordered cube sit at or below its top variable. *)
Lemma cube_vars_level (cube : DdNode) (x i : nat) :
  ordered perm cube = true -> cuddI_gt perm cube i = true ->
  In x (cube_vars cube) -> (perm i < perm x)%nat.
Proof.
  revert i. induction cube as [v | ci cT IHT cE _]; intros i Hord Hgt Hin.
  - destruct Hin.
  - simpl in Hord, Hgt, Hin. rewrite !andb_true_iff in Hord.
    destruct Hord as [[[Ht He] Ot] Oe]. apply Nat.ltb_lt in Hgt.
    destruct Hin as [<- | Hin]; [assumption |].
    specialize (IHT ci Ot Ht Hin). lia.
Qed.

Lemma cube_vars_tail (ci : nat) (cT cE : DdNode) :
  ordered perm (Node ci cT cE) = true -> ~ In ci (cube_vars cT).
Proof.
  simpl. rewrite !andb_true_iff. intros [[[Ht He] Ot] Oe] Hin.
  pose proof (cube_vars_level cT ci ci Ot Ht Hin). lia.
Qed.

(** A variable above the top variable of an ordered cube is not one of
    the variables of the cube. *)
Lemma cube_vars_above (ci : nat) (cT cE : DdNode) (fi : nat) :
  ordered perm (Node ci cT cE) = true ->
  Nat.ltb (perm ci) (perm fi) = false -> Nat.eqb fi ci = false ->
  ~ In fi (cube_vars (Node ci cT cE)).
Proof.
  intros Hord Hlt Hne Hin. apply Nat.ltb_ge in Hlt.
  apply Nat.eqb_neq in Hne.
  simpl in Hin. destruct Hin as [-> | Hin]; [congruence |].
  simpl in Hord. rewrite !andb_true_iff in Hord.
  destruct Hord as [[[Ht He] Ot] Oe].
  pose proof (cube_vars_level cT fi ci Ot Ht Hin). lia.
Qed.

(** A diagram below [ci] keeps its combination when [ci] changes. *)
Lemma fold_cube_upd_above (op : Z -> Z -> Z) (vars : list nat)
      (f : DdNode) (ci : nat) (b : bool) (a : assignment) :
  ordered perm f = true -> cuddI_gt perm f ci = true ->
  ~ In ci vars ->
  fold_cube op vars (eval f) (upd a ci b) = fold_cube op vars (eval f) a.
Proof.
  intros Hord Hgt. revert a.
  induction vars as [| x xs IH]; intros a Hin; simpl.
  - now apply (eval_upd_above perm).
  - assert (Hx : ci <> x) by (intros ->; apply Hin; now left).
    assert (Hxs : ~ In ci xs) by (intros H; apply Hin; now right).
    rewrite (fold_cube_agree op xs f (upd (upd a ci b) x true)
               (upd (upd a x true) ci b))
      by (intros y _; now apply upd_comm).
    rewrite (fold_cube_agree op xs f (upd (upd a ci b) x false)
               (upd (upd a x false) ci b))
      by (intros y _; now apply upd_comm).
    now rewrite !IH.
Qed.

End Ordered.

Lemma ordered_Node (perm : nat -> nat) (i : nat) (t e : DdNode) :
  ordered perm (Node i t e) = true ->
  cuddI_gt perm t i = true /\ cuddI_gt perm e i = true
  /\ ordered perm t = true /\ ordered perm e = true.
Proof. simpl. rewrite !andb_true_iff. tauto. Qed.

Lemma aop_leaf_idem (op : DD_AOP) (x : Z) :
  op = Cudd_addMinimum \/ op = Cudd_addMaximum ->
  aop_leaf op x x = x.
Proof.
  intros [-> | ->]; simpl.
  - now rewrite Z.leb_refl.
  - now destruct (x >=? x).
Qed.

Section Folds.

Variable perm : nat -> nat.
Hypothesis perm_inj : forall i j, perm i = perm j -> i = j.

Local Abbreviation existP :=
  (cuddAddExistAbstractRecur (DM := PureDd perm) perm).

Lemma existP_fold (cube f : DdNode) :
  ordered perm f = true -> ordered perm cube = true ->
  forall a : assignment,
    eval (existP cube f) a
    = fold_cube (aop_leaf Cudd_addPlus) (cube_vars cube) (eval f) a.
Proof.
  revert f; induction cube as [c | ci cT IHcT cE _]; intros f Hf Hc a.
  - rewrite exist_empty_cube. reflexivity.
  - pose proof (cube_vars_tail perm ci cT cE Hc) as Hnotin.
    destruct (ordered_Node _ _ _ _ Hc) as (HcT & _ & OcT & _).
    assert (Hvac : forall g, ordered perm g = true ->
                             cuddI_gt perm g ci = true ->
              aop_leaf Cudd_addPlus (eval (existP cT g) a)
                       (eval (existP cT g) a)
              = fold_cube (aop_leaf Cudd_addPlus) (cube_vars (Node ci cT cE))
                          (eval g) a).
    { intros g Hg Hgt. cbn [cube_vars fold_cube].
      rewrite !(fold_cube_upd_above perm) by assumption.
      now rewrite IHcT. }
    revert a Hvac.
    induction f as [v | fi T IHT E IHE]; intros a Hvac.
    + destruct (DdNode_eqb (Const v) DD_ZERO) eqn:Hz.
      * apply DdNode_eqb_eq in Hz. rewrite Hz, exist_zero.
        unfold DD_ZERO. now rewrite fold_cube_const.
      * rewrite exist_vacuous by auto. pure_step.
        rewrite eval_addApply by assumption. now apply Hvac.
    + destruct (ordered_Node _ _ _ _ Hf) as (HT & HE & OT & OE).
      destruct (cuddI_gt perm (Node fi T E) ci) eqn:Hgt.
      * rewrite exist_vacuous by auto. pure_step.
        rewrite eval_addApply by assumption. now apply Hvac.
      * rewrite exist_node by assumption. pure_step.
        destruct (Nat.eqb fi ci) eqn:Hix.
        -- apply Nat.eqb_eq in Hix; subst fi.
           rewrite eval_addApply, !IHcT by assumption.
           cbn [cube_vars fold_cube].
           rewrite !fold_cube_branch, !upd_same by assumption.
           now rewrite !(fold_cube_upd_above perm) by assumption.
        -- rewrite eval_if_eqb.
           rewrite fold_cube_branch
             by (apply (cube_vars_above perm); assumption).
           destruct (a fi); [apply IHT | apply IHE]; auto;
             intros a' Hvac'; apply Hvac.
Qed.

Local Abbreviation univP :=
  (cuddAddUnivAbstractRecur (DM := PureDd perm) perm).

Lemma univP_fold (cube f : DdNode) :
  ordered perm f = true -> ordered perm cube = true ->
  forall a : assignment,
    eval (univP cube f) a
    = fold_cube (aop_leaf Cudd_addTimes) (cube_vars cube) (eval f) a.
Proof.
  revert f; induction cube as [c | ci cT IHcT cE _]; intros f Hf Hc a.
  - rewrite univ_empty_cube. reflexivity.
  - pose proof (cube_vars_tail perm ci cT cE Hc) as Hnotin.
    destruct (ordered_Node _ _ _ _ Hc) as (HcT & _ & OcT & _).
    assert (Hvac : forall g, ordered perm g = true ->
                             cuddI_gt perm g ci = true ->
              aop_leaf Cudd_addTimes (eval (univP cT g) a)
                       (eval (univP cT g) a)
              = fold_cube (aop_leaf Cudd_addTimes)
                          (cube_vars (Node ci cT cE)) (eval g) a).
    { intros g Hg Hgt. cbn [cube_vars fold_cube].
      rewrite !(fold_cube_upd_above perm) by assumption.
      now rewrite IHcT. }
    revert a Hvac.
    induction f as [v | fi T IHT E IHE]; intros a Hvac.
    + destruct (DdNode_eqb (Const v) DD_ZERO || DdNode_eqb (Const v) DD_ONE)
        eqn:Hz.
      * rewrite univ_zero_one by assumption.
        rewrite fold_cube_const; [reflexivity |].
        apply orb_true_iff in Hz. simpl in Hz. rewrite !Z.eqb_eq in Hz.
        destruct Hz as [-> | ->]; reflexivity.
      * rewrite univ_vacuous by auto. pure_step.
        rewrite eval_addApply by assumption. now apply Hvac.
    + destruct (ordered_Node _ _ _ _ Hf) as (HT & HE & OT & OE).
      destruct (cuddI_gt perm (Node fi T E) ci) eqn:Hgt.
      * rewrite univ_vacuous by auto. pure_step.
        rewrite eval_addApply by assumption. now apply Hvac.
      * rewrite univ_node by assumption. pure_step.
        destruct (Nat.eqb fi ci) eqn:Hix.
        -- apply Nat.eqb_eq in Hix; subst fi.
           rewrite eval_addApply, !IHcT by assumption.
           cbn [cube_vars fold_cube].
           rewrite !fold_cube_branch, !upd_same by assumption.
           now rewrite !(fold_cube_upd_above perm) by assumption.
        -- rewrite eval_if_eqb.
           rewrite fold_cube_branch
             by (apply (cube_vars_above perm); assumption).
           destruct (a fi); [apply IHT | apply IHE]; auto;
             intros a' Hvac'; apply Hvac.
Qed.

Local Abbreviation minP :=
  (cuddAddMinAbstractRecur (DM := PureDd perm) perm).

Lemma minP_fold (cube f : DdNode) :
  ordered perm f = true -> ordered perm cube = true ->
  forall a : assignment,
    eval (minP cube f) a
    = fold_cube (aop_leaf Cudd_addMinimum) (cube_vars cube) (eval f) a.
Proof.
  revert f; induction cube as [c | ci cT IHcT cE _]; intros f Hf Hc a.
  - rewrite min_empty_cube. reflexivity.
  - pose proof (cube_vars_tail perm ci cT cE Hc) as Hnotin.
    destruct (ordered_Node _ _ _ _ Hc) as (HcT & _ & OcT & _).
    assert (Hvac : forall g, ordered perm g = true ->
                             cuddI_gt perm g ci = true ->
              eval (minP cT g) a
              = fold_cube (aop_leaf Cudd_addMinimum)
                          (cube_vars (Node ci cT cE)) (eval g) a).
    { intros g Hg Hgt. cbn [cube_vars fold_cube].
      rewrite !(fold_cube_upd_above perm) by assumption.
      rewrite <- IHcT by assumption. symmetry. apply aop_leaf_idem.
      first [now left | now right]. }
    revert a Hvac.
    induction f as [v | fi T IHT E IHE]; intros a Hvac.
    + destruct (DdNode_eqb (Const v) DD_ZERO) eqn:Hz.
      * apply DdNode_eqb_eq in Hz. rewrite Hz, min_zero.
        unfold DD_ZERO. now rewrite fold_cube_const.
      * rewrite min_vacuous by auto. now apply Hvac.
    + destruct (ordered_Node _ _ _ _ Hf) as (HT & HE & OT & OE).
      destruct (cuddI_gt perm (Node fi T E) ci) eqn:Hgt.
      * rewrite min_vacuous by auto. now apply Hvac.
      * rewrite min_node by assumption. pure_step.
        destruct (Nat.eqb fi ci) eqn:Hix.
        -- apply Nat.eqb_eq in Hix; subst fi.
           rewrite eval_addApply, !IHcT by assumption.
           cbn [cube_vars fold_cube].
           rewrite !fold_cube_branch, !upd_same by assumption.
           now rewrite !(fold_cube_upd_above perm) by assumption.
        -- rewrite eval_if_eqb.
           rewrite fold_cube_branch
             by (apply (cube_vars_above perm); assumption).
           destruct (a fi); [apply IHT | apply IHE]; auto;
             intros a' Hvac'; apply Hvac.
Qed.

Local Abbreviation maxP :=
  (cuddAddMaxAbstractRecur (DM := PureDd perm) perm).

Lemma maxP_fold (cube f : DdNode) :
  ordered perm f = true -> ordered perm cube = true ->
  forall a : assignment,
    eval (maxP cube f) a
    = fold_cube (aop_leaf Cudd_addMaximum) (cube_vars cube) (eval f) a.
Proof.
  revert f; induction cube as [c | ci cT IHcT cE _]; intros f Hf Hc a.
  - rewrite max_empty_cube. reflexivity.
  - pose proof (cube_vars_tail perm ci cT cE Hc) as Hnotin.
    destruct (ordered_Node _ _ _ _ Hc) as (HcT & _ & OcT & _).
    assert (Hvac : forall g, ordered perm g = true ->
                             cuddI_gt perm g ci = true ->
              eval (maxP cT g) a
              = fold_cube (aop_leaf Cudd_addMaximum)
                          (cube_vars (Node ci cT cE)) (eval g) a).
    { intros g Hg Hgt. cbn [cube_vars fold_cube].
      rewrite !(fold_cube_upd_above perm) by assumption.
      rewrite <- IHcT by assumption. symmetry. apply aop_leaf_idem.
      first [now left | now right]. }
    revert a Hvac.
    induction f as [v | fi T IHT E IHE]; intros a Hvac.
    + destruct (DdNode_eqb (Const v) DD_ZERO) eqn:Hz.
      * apply DdNode_eqb_eq in Hz. rewrite Hz, max_zero.
        unfold DD_ZERO. now rewrite fold_cube_const.
      * rewrite max_vacuous by auto. now apply Hvac.
    + destruct (ordered_Node _ _ _ _ Hf) as (HT & HE & OT & OE).
      destruct (cuddI_gt perm (Node fi T E) ci) eqn:Hgt.
      * rewrite max_vacuous by auto. now apply Hvac.
      * rewrite max_node by assumption. pure_step.
        destruct (Nat.eqb fi ci) eqn:Hix.
        -- apply Nat.eqb_eq in Hix; subst fi.
           rewrite eval_addApply, !IHcT by assumption.
           cbn [cube_vars fold_cube].
           rewrite !fold_cube_branch, !upd_same by assumption.
           now rewrite !(fold_cube_upd_above perm) by assumption.
        -- rewrite eval_if_eqb.
           rewrite fold_cube_branch
             by (apply (cube_vars_above perm); assumption).
           destruct (a fi); [apply IHT | apply IHE]; auto;
             intros a' Hvac'; apply Hvac.
Qed.

Local Abbreviation orP :=
  (cuddAddOrAbstractRecur (DM := PureDd perm) perm).

Lemma eval_zero_one (f : DdNode) (a : assignment) :
  zero_one f = true -> eval f a = 0 \/ eval f a = 1.
Proof.
  induction f as [v | i t IHt e IHe]; simpl.
  - rewrite orb_true_iff, !Z.eqb_eq. tauto.
  - rewrite andb_true_iff. intros [Ht He]. destruct (a i); auto.
Qed.

Lemma fold_cube_or_zero_one (vars : list nat) (f : DdNode) :
  zero_one f = true ->
  forall a,
    fold_cube (aop_leaf Cudd_addOr) vars (eval f) a = 0
    \/ fold_cube (aop_leaf Cudd_addOr) vars (eval f) a = 1.
Proof.
  intros Hf. induction vars as [| x xs IH]; intros a; simpl.
  - now apply eval_zero_one.
  - destruct (_ || _); auto.
Qed.

Lemma or_leaf_idem (x : Z) :
  x = 0 \/ x = 1 -> aop_leaf Cudd_addOr x x = x.
Proof. intros [-> | ->]; reflexivity. Qed.

Lemma orP_fold (cube f : DdNode) :
  ordered perm f = true -> ordered perm cube = true ->
  zero_one f = true ->
  forall a : assignment,
    eval (orP cube f) a
    = fold_cube (aop_leaf Cudd_addOr) (cube_vars cube) (eval f) a.
Proof.
  revert f; induction cube as [c | ci cT IHcT cE _]; intros f Hf Hc Hz a.
  - rewrite or_empty_cube. reflexivity.
  - pose proof (cube_vars_tail perm ci cT cE Hc) as Hnotin.
    destruct (ordered_Node _ _ _ _ Hc) as (HcT & _ & OcT & _).
    assert (Hvac : forall g, ordered perm g = true -> zero_one g = true ->
                             cuddI_gt perm g ci = true ->
              eval (orP cT g) a
              = fold_cube (aop_leaf Cudd_addOr)
                          (cube_vars (Node ci cT cE)) (eval g) a).
    { intros g Hg Hg01 Hgt. cbn [cube_vars fold_cube].
      rewrite !(fold_cube_upd_above perm) by assumption.
      rewrite or_leaf_idem by now apply fold_cube_or_zero_one.
      now apply IHcT. }
    revert a Hvac.
    induction f as [v | fi T IHT E IHE]; intros a Hvac.
    + rewrite or_constant. rewrite fold_cube_const; [reflexivity |].
      apply or_leaf_idem. simpl in Hz.
      rewrite orb_true_iff, !Z.eqb_eq in Hz. exact Hz.
    + destruct (ordered_Node _ _ _ _ Hf) as (HT & HE & OT & OE).
      simpl in Hz. apply andb_true_iff in Hz. destruct Hz as [ZT ZE].
      destruct (cuddI_gt perm (Node fi T E) ci) eqn:Hgt.
      * rewrite or_vacuous by auto. apply Hvac; auto.
        simpl. now rewrite ZT, ZE.
      * rewrite or_node by assumption. pure_step.
        destruct (Nat.eqb fi ci) eqn:Hix.
        -- apply Nat.eqb_eq in Hix; subst fi.
           cbn [cube_vars fold_cube].
           rewrite !fold_cube_branch, !upd_same by assumption.
           rewrite !(fold_cube_upd_above perm) by assumption.
           rewrite <- !IHcT by assumption.
           destruct (DdNode_eqb (orP cT T) DD_ONE) eqn:Hone; cbn [negb].
           ++ apply DdNode_eqb_eq in Hone. rewrite Hone. reflexivity.
           ++ now rewrite eval_addApply.
        -- rewrite eval_if_eqb.
           rewrite fold_cube_branch
             by (apply (cube_vars_above perm); assumption).
           destruct (a fi); [apply IHT | apply IHE]; auto;
             intros a' Hvac'; apply Hvac.
Qed.

End Folds.

Lemma fold_cube_op_ext (op op' : Z -> Z -> Z) (vars : list nat)
      (g : assignment -> Z) :
  (forall x y, op x y = op' x y) ->
  forall a, fold_cube op vars g a = fold_cube op' vars g a.
Proof.
  intros H. induction vars as [| x xs IH]; intros a; simpl.
  - reflexivity.
  - now rewrite H, !IH.
Qed.

Lemma aop_leaf_min (x y : Z) : aop_leaf Cudd_addMinimum x y = Z.min x y.
Proof. simpl. destruct (Z.leb_spec x y); lia. Qed.

Lemma aop_leaf_max (x y : Z) : aop_leaf Cudd_addMaximum x y = Z.max x y.
Proof. simpl. destruct (Z.geb_spec x y); lia. Qed.

Lemma fold_cube_or_max (vars : list nat) (f : DdNode) :
  zero_one f = true ->
  forall a,
    fold_cube (aop_leaf Cudd_addOr) vars (eval f) a
    = fold_cube Z.max vars (eval f) a.
Proof.
  intros Hf. induction vars as [| x xs IH]; intros a.
  - reflexivity.
  - cbn [fold_cube]. rewrite <- !IH.
    destruct (fold_cube_or_zero_one xs f Hf (upd a x true)) as [-> | ->],
      (fold_cube_or_zero_one xs f Hf (upd a x false)) as [-> | ->];
      reflexivity.
Qed.

(** X5.  On a manager with nothing pending and no stale entry in its computed
    table, [Cudd_addExistAbstract] of an ordered diagram over a valid,
    ordered cube returns a diagram whose value at an assignment is the
    sum of the values of [f] over all values of the cube variables. *)
Theorem exist_abstract_sums (perm : nat -> nat) (f : DdNode) (cube : DdPtr)
        (m : DdManager) :
  (forall i j, perm i = perm j -> i = j) ->
  quiet perm m ->
  addCheckPositiveCube cube = true ->
  ordered perm (snd cube) = true ->
  ordered perm f = true ->
  exists res m',
    Cudd_addExistAbstract perm f cube m = (Some res, m')
    /\ forall a : assignment,
         eval res a = fold_cube Z.add (cube_vars (snd cube)) (eval f) a.
Proof.
  intros Hinj Hq Hcube Hoc Hof.
  destruct (Cudd_addExistAbstract_quiet perm f cube m Hq Hcube) as (m' & E & _).
  eexists; exists m'. split; [exact E |]. intros a.
  rewrite existP_fold by assumption.
  reflexivity.
Qed.

Lemma exist_abstract_sums_witness :
  (forall i j, identity_order i = identity_order j -> i = j)
  /\ quiet identity_order fresh_manager
  /\ addCheckPositiveCube (false, cube_of_var 1) = true
  /\ ordered identity_order (cube_of_var 1) = true
  /\ ordered identity_order f_crossed = true
  /\ exists res m',
       Cudd_addExistAbstract identity_order f_crossed (false, cube_of_var 1)
         fresh_manager = (Some res, m')
       /\ forall a : assignment,
            eval res a
            = fold_cube Z.add (cube_vars (cube_of_var 1))
                (eval f_crossed) a.
Proof.
  assert (Hinj : forall i j, identity_order i = identity_order j -> i = j)
    by (intros i j H; exact H).
  split; [exact Hinj |]. split; [exact quiet_fresh_manager |].
  split; [reflexivity |]. split; [reflexivity |]. split; [reflexivity |].
  apply (exist_abstract_sums identity_order f_crossed (false, cube_of_var 1)
           fresh_manager Hinj quiet_fresh_manager eq_refl eq_refl eq_refl).
Defined.

(** X6.  Under the same conditions [Cudd_addUnivAbstract] returns a diagram
    whose value at an assignment is the product of the values of [f]
    over all values of the cube variables. *)
Theorem univ_abstract_multiplies (perm : nat -> nat) (f : DdNode) (cube : DdPtr)
        (m : DdManager) :
  (forall i j, perm i = perm j -> i = j) ->
  quiet perm m ->
  addCheckPositiveCube cube = true ->
  ordered perm (snd cube) = true ->
  ordered perm f = true ->
  exists res m',
    Cudd_addUnivAbstract perm f cube m = (Some res, m')
    /\ forall a : assignment,
         eval res a = fold_cube Z.mul (cube_vars (snd cube)) (eval f) a.
Proof.
  intros Hinj Hq Hcube Hoc Hof.
  destruct (Cudd_addUnivAbstract_quiet perm f cube m Hq Hcube) as (m' & E & _).
  eexists; exists m'. split; [exact E |]. intros a.
  rewrite univP_fold by assumption.
  reflexivity.
Qed.

Lemma univ_abstract_multiplies_witness :
  (forall i j, identity_order i = identity_order j -> i = j)
  /\ quiet identity_order fresh_manager
  /\ addCheckPositiveCube (false, cube_of_var 1) = true
  /\ ordered identity_order (cube_of_var 1) = true
  /\ ordered identity_order f_crossed = true
  /\ exists res m',
       Cudd_addUnivAbstract identity_order f_crossed (false, cube_of_var 1)
         fresh_manager = (Some res, m')
       /\ forall a : assignment,
            eval res a
            = fold_cube Z.mul (cube_vars (cube_of_var 1))
                (eval f_crossed) a.
Proof.
  assert (Hinj : forall i j, identity_order i = identity_order j -> i = j)
    by (intros i j H; exact H).
  split; [exact Hinj |]. split; [exact quiet_fresh_manager |].
  split; [reflexivity |]. split; [reflexivity |]. split; [reflexivity |].
  apply (univ_abstract_multiplies identity_order f_crossed (false, cube_of_var 1)
           fresh_manager Hinj quiet_fresh_manager eq_refl eq_refl eq_refl).
Defined.

(** X7.  Under the same conditions [Cudd_addMinAbstract] returns a diagram
    whose value at an assignment is the least of the values of [f] over
    all values of the cube variables. *)
Theorem min_abstract_minimises (perm : nat -> nat) (f : DdNode) (cube : DdPtr)
        (m : DdManager) :
  (forall i j, perm i = perm j -> i = j) ->
  quiet perm m ->
  addCheckPositiveCube cube = true ->
  ordered perm (snd cube) = true ->
  ordered perm f = true ->
  exists res m',
    Cudd_addMinAbstract perm f cube m = (Some res, m')
    /\ forall a : assignment,
         eval res a = fold_cube Z.min (cube_vars (snd cube)) (eval f) a.
Proof.
  intros Hinj Hq Hcube Hoc Hof.
  destruct (Cudd_addMinAbstract_quiet perm f cube m Hq Hcube) as (m' & E & _).
  eexists; exists m'. split; [exact E |]. intros a.
  rewrite minP_fold by assumption.
  apply fold_cube_op_ext. exact aop_leaf_min.
Qed.

Lemma min_abstract_minimises_witness :
  (forall i j, identity_order i = identity_order j -> i = j)
  /\ quiet identity_order fresh_manager
  /\ addCheckPositiveCube (false, cube_of_var 1) = true
  /\ ordered identity_order (cube_of_var 1) = true
  /\ ordered identity_order f_crossed = true
  /\ exists res m',
       Cudd_addMinAbstract identity_order f_crossed (false, cube_of_var 1)
         fresh_manager = (Some res, m')
       /\ forall a : assignment,
            eval res a
            = fold_cube Z.min (cube_vars (cube_of_var 1))
                (eval f_crossed) a.
Proof.
  assert (Hinj : forall i j, identity_order i = identity_order j -> i = j)
    by (intros i j H; exact H).
  split; [exact Hinj |]. split; [exact quiet_fresh_manager |].
  split; [reflexivity |]. split; [reflexivity |]. split; [reflexivity |].
  apply (min_abstract_minimises identity_order f_crossed (false, cube_of_var 1)
           fresh_manager Hinj quiet_fresh_manager eq_refl eq_refl eq_refl).
Defined.

(** X8.  Under the same conditions [Cudd_addMaxAbstract] returns a diagram
    whose value at an assignment is the greatest of the values of [f]
    over all values of the cube variables. *)
Theorem max_abstract_maximises (perm : nat -> nat) (f : DdNode) (cube : DdPtr)
        (m : DdManager) :
  (forall i j, perm i = perm j -> i = j) ->
  quiet perm m ->
  addCheckPositiveCube cube = true ->
  ordered perm (snd cube) = true ->
  ordered perm f = true ->
  exists res m',
    Cudd_addMaxAbstract perm f cube m = (Some res, m')
    /\ forall a : assignment,
         eval res a = fold_cube Z.max (cube_vars (snd cube)) (eval f) a.
Proof.
  intros Hinj Hq Hcube Hoc Hof.
  destruct (Cudd_addMaxAbstract_quiet perm f cube m Hq Hcube) as (m' & E & _).
  eexists; exists m'. split; [exact E |]. intros a.
  rewrite maxP_fold by assumption.
  apply fold_cube_op_ext. exact aop_leaf_max.
Qed.

Lemma max_abstract_maximises_witness :
  (forall i j, identity_order i = identity_order j -> i = j)
  /\ quiet identity_order fresh_manager
  /\ addCheckPositiveCube (false, cube_of_var 1) = true
  /\ ordered identity_order (cube_of_var 1) = true
  /\ ordered identity_order f_crossed = true
  /\ exists res m',
       Cudd_addMaxAbstract identity_order f_crossed (false, cube_of_var 1)
         fresh_manager = (Some res, m')
       /\ forall a : assignment,
            eval res a
            = fold_cube Z.max (cube_vars (cube_of_var 1))
                (eval f_crossed) a.
Proof.
  assert (Hinj : forall i j, identity_order i = identity_order j -> i = j)
    by (intros i j H; exact H).
  split; [exact Hinj |]. split; [exact quiet_fresh_manager |].
  split; [reflexivity |]. split; [reflexivity |]. split; [reflexivity |].
  apply (max_abstract_maximises identity_order f_crossed (false, cube_of_var 1)
           fresh_manager Hinj quiet_fresh_manager eq_refl eq_refl eq_refl).
Defined.

(** X9.  Under the same conditions, and for a 0-1 diagram [f],
    [Cudd_addOrAbstract] returns a diagram whose value at an assignment
    is the disjunction (the greatest, on zeros and ones) of the values
    of [f] over all values of the cube variables. *)
Theorem or_abstract_disjoins (perm : nat -> nat) (f : DdNode) (cube : DdPtr)
        (m : DdManager) :
  (forall i j, perm i = perm j -> i = j) ->
  quiet perm m ->
  addCheckPositiveCube cube = true ->
  ordered perm (snd cube) = true ->
  ordered perm f = true ->
  zero_one f = true ->
  exists res m',
    Cudd_addOrAbstract perm f cube m = (Some res, m')
    /\ forall a : assignment,
         eval res a = fold_cube Z.max (cube_vars (snd cube)) (eval f) a.
Proof.
  intros Hinj Hq Hcube Hoc Hof Hz.
  destruct (Cudd_addOrAbstract_quiet perm f cube m Hq Hcube) as (m' & E & _).
  eexists; exists m'. split; [exact E |]. intros a.
  rewrite orP_fold by assumption.
  now apply fold_cube_or_max.
Qed.

Lemma or_abstract_disjoins_witness :
  (forall i j, identity_order i = identity_order j -> i = j)
  /\ quiet identity_order fresh_manager
  /\ addCheckPositiveCube (false, cube_of_var 1) = true
  /\ ordered identity_order (cube_of_var 1) = true
  /\ ordered identity_order f_bits = true
  /\ zero_one f_bits = true
  /\ exists res m',
       Cudd_addOrAbstract identity_order f_bits (false, cube_of_var 1)
         fresh_manager = (Some res, m')
       /\ forall a : assignment,
            eval res a
            = fold_cube Z.max (cube_vars (cube_of_var 1))
                (eval f_bits) a.
Proof.
  assert (Hinj : forall i j, identity_order i = identity_order j -> i = j)
    by (intros i j H; exact H).
  split; [exact Hinj |]. split; [exact quiet_fresh_manager |].
  split; [reflexivity |]. split; [reflexivity |]. split; [reflexivity |].
  split; [reflexivity |].
  apply (or_abstract_disjoins identity_order f_bits (false, cube_of_var 1)
           fresh_manager Hinj quiet_fresh_manager eq_refl eq_refl eq_refl eq_refl).
Defined.

(** ** The abstracted variables are gone *)

(** X10.  On a manager with nothing pending and no stale entry in its
    computed table, the diagrams that the existential, universal,
    minimum and maximum abstractions return for an ordered [f] and a
    valid ordered cube take the same value at any two assignments that
    agree outside the cube variables. *)
Theorem abstracted_variables_irrelevant (perm : nat -> nat) (f : DdNode)
        (cube : DdPtr) (m : DdManager) :
  (forall i j, perm i = perm j -> i = j) ->
  quiet perm m ->
  addCheckPositiveCube cube = true ->
  ordered perm (snd cube) = true ->
  ordered perm f = true ->
  exists rE rU rMin rMax mE mU mMin mMax,
    Cudd_addExistAbstract perm f cube m = (Some rE, mE)
    /\ Cudd_addUnivAbstract perm f cube m = (Some rU, mU)
    /\ Cudd_addMinAbstract perm f cube m = (Some rMin, mMin)
    /\ Cudd_addMaxAbstract perm f cube m = (Some rMax, mMax)
    /\ forall a a' : assignment,
         (forall x, ~ In x (cube_vars (snd cube)) -> a x = a' x) ->
         eval rE a = eval rE a' /\ eval rU a = eval rU a'
         /\ eval rMin a = eval rMin a' /\ eval rMax a = eval rMax a'.
Proof.
  intros Hinj Hq Hcube Hoc Hof.
  destruct (Cudd_addExistAbstract_quiet perm f cube m Hq Hcube)
    as (mE & EE & _).
  destruct (Cudd_addUnivAbstract_quiet perm f cube m Hq Hcube)
    as (mU & EU & _).
  destruct (Cudd_addMinAbstract_quiet perm f cube m Hq Hcube)
    as (mMin & EMin & _).
  destruct (Cudd_addMaxAbstract_quiet perm f cube m Hq Hcube)
    as (mMax & EMax & _).
  do 4 eexists. exists mE, mU, mMin, mMax.
  split; [exact EE |]. split; [exact EU |].
  split; [exact EMin |]. split; [exact EMax |].
  intros a a' Hagree.
  rewrite !(existP_fold perm), !(univP_fold perm), !(minP_fold perm),
    !(maxP_fold perm) by assumption.
  repeat split; now apply fold_cube_agree.
Qed.

Lemma abstracted_variables_irrelevant_witness :
  (forall i j, identity_order i = identity_order j -> i = j)
  /\ quiet identity_order fresh_manager
  /\ addCheckPositiveCube (false, cube_of_var 1) = true
  /\ ordered identity_order (cube_of_var 1) = true
  /\ ordered identity_order f_crossed = true
  /\ exists rE rU rMin rMax mE mU mMin mMax,
       Cudd_addExistAbstract identity_order f_crossed (false, cube_of_var 1)
         fresh_manager = (Some rE, mE)
       /\ Cudd_addUnivAbstract identity_order f_crossed
            (false, cube_of_var 1) fresh_manager = (Some rU, mU)
       /\ Cudd_addMinAbstract identity_order f_crossed
            (false, cube_of_var 1) fresh_manager = (Some rMin, mMin)
       /\ Cudd_addMaxAbstract identity_order f_crossed
            (false, cube_of_var 1) fresh_manager = (Some rMax, mMax)
       /\ forall a a' : assignment,
            (forall x, ~ In x (cube_vars (cube_of_var 1)) -> a x = a' x) ->
            eval rE a = eval rE a' /\ eval rU a = eval rU a'
            /\ eval rMin a = eval rMin a' /\ eval rMax a = eval rMax a'.
Proof.
  assert (Hinj : forall i j, identity_order i = identity_order j -> i = j)
    by (intros i j H; exact H).
  split; [exact Hinj |]. split; [exact quiet_fresh_manager |].
  split; [reflexivity |]. split; [reflexivity |]. split; [reflexivity |].
  apply (abstracted_variables_irrelevant identity_order f_crossed
           (false, cube_of_var 1) fresh_manager Hinj quiet_fresh_manager
           eq_refl eq_refl eq_refl).
Defined.

(** ** Bounds *)

Lemma upd_self (a : assignment) (x : nat) :
  forall y, upd a x (a x) y = a y.
Proof.
  intros y. unfold upd. destruct (Nat.eqb_spec y x); congruence.
Qed.

Lemma fold_cube_min_le (vars : list nat) (f : DdNode) :
  forall a, fold_cube Z.min vars (eval f) a <= eval f a.
Proof.
  induction vars as [| x xs IH]; intros a; cbn [fold_cube]; [lia |].
  pose proof (eval_ext f _ _ (upd_self a x)) as Hs.
  pose proof (IH (upd a x true)). pose proof (IH (upd a x false)).
  revert Hs. destruct (a x); intros Hs; lia.
Qed.

Lemma fold_cube_max_ge (vars : list nat) (f : DdNode) :
  forall a, eval f a <= fold_cube Z.max vars (eval f) a.
Proof.
  induction vars as [| x xs IH]; intros a; cbn [fold_cube]; [lia |].
  pose proof (eval_ext f _ _ (upd_self a x)) as Hs.
  pose proof (IH (upd a x true)). pose proof (IH (upd a x false)).
  revert Hs. destruct (a x); intros Hs; lia.
Qed.

(** X11.  On a manager with nothing pending and no stale entry in its
    computed table, for an ordered [f] and a valid ordered cube, the
    diagram of [Cudd_addMinAbstract] is everywhere at most [f] and the
    diagram of [Cudd_addMaxAbstract] everywhere at least [f]. *)
Theorem min_max_abstract_bound (perm : nat -> nat) (f : DdNode)
        (cube : DdPtr) (m : DdManager) :
  (forall i j, perm i = perm j -> i = j) ->
  quiet perm m ->
  addCheckPositiveCube cube = true ->
  ordered perm (snd cube) = true ->
  ordered perm f = true ->
  exists rMin rMax mMin mMax,
    Cudd_addMinAbstract perm f cube m = (Some rMin, mMin)
    /\ Cudd_addMaxAbstract perm f cube m = (Some rMax, mMax)
    /\ forall a : assignment, eval rMin a <= eval f a <= eval rMax a.
Proof.
  intros Hinj Hq Hcube Hoc Hof.
  destruct (Cudd_addMinAbstract_quiet perm f cube m Hq Hcube)
    as (mMin & EMin & _).
  destruct (Cudd_addMaxAbstract_quiet perm f cube m Hq Hcube)
    as (mMax & EMax & _).
  do 2 eexists. exists mMin, mMax.
  split; [exact EMin |]. split; [exact EMax |].
  intros a. rewrite (minP_fold perm), (maxP_fold perm) by assumption.
  rewrite (fold_cube_op_ext _ _ _ _ aop_leaf_min),
    (fold_cube_op_ext _ _ _ _ aop_leaf_max).
  split; [apply fold_cube_min_le | apply fold_cube_max_ge].
Qed.

Lemma min_max_abstract_bound_witness :
  (forall i j, identity_order i = identity_order j -> i = j)
  /\ quiet identity_order fresh_manager
  /\ addCheckPositiveCube (false, cube_of_var 1) = true
  /\ ordered identity_order (cube_of_var 1) = true
  /\ ordered identity_order f_crossed = true
  /\ exists rMin rMax mMin mMax,
       Cudd_addMinAbstract identity_order f_crossed
         (false, cube_of_var 1) fresh_manager = (Some rMin, mMin)
       /\ Cudd_addMaxAbstract identity_order f_crossed
            (false, cube_of_var 1) fresh_manager = (Some rMax, mMax)
       /\ forall a : assignment,
            eval rMin a <= eval f_crossed a <= eval rMax a.
Proof.
  assert (Hinj : forall i j, identity_order i = identity_order j -> i = j)
    by (intros i j H; exact H).
  split; [exact Hinj |]. split; [exact quiet_fresh_manager |].
  split; [reflexivity |]. split; [reflexivity |]. split; [reflexivity |].
  apply (min_max_abstract_bound identity_order f_crossed
           (false, cube_of_var 1) fresh_manager Hinj quiet_fresh_manager
           eq_refl eq_refl eq_refl).
Defined.

(** ** The maximum representative is unique *)

Section MaxRepresentativeUnique.

Variable perm : nat -> nat.
Hypothesis perm_inj : forall i j, perm i = perm j -> i = j.

Local Abbreviation maxP :=
  (cuddAddMaxAbstractRecur (DM := PureDd perm) perm).
Local Abbreviation maxRepP :=
  (cuddAddMaxAbstractRepresentativeRecur (DM := PureDd perm) perm).

Lemma maxRepP_unique (cube f : DdNode) :
  ordered perm f = true -> ordered perm cube = true ->
  forall a a' : assignment,
    (forall x, ~ In x (cube_vars cube) -> a x = a' x) ->
    evalB (maxRepP cube f) a = true -> evalB (maxRepP cube f) a' = true ->
    forall x, In x (cube_vars cube) -> a x = a' x.
Proof.
  revert f; induction cube as [c | ci cT IHcT cE _];
    intros f Hf Hc a a' Hag Ha Ha' x Hx.
  - destruct Hx.
  - pose proof (cube_vars_tail perm ci cT cE Hc) as Hnotin.
    destruct (ordered_Node _ _ _ _ Hc) as (HcT & _ & OcT & _).
    assert (Htail : forall g, ordered perm g = true -> a ci = a' ci ->
                      evalB (maxRepP cT g) a = true ->
                      evalB (maxRepP cT g) a' = true -> a x = a' x).
    { intros g Hg Hci Hga Hga'.
      destruct Hx as [<- | Hx]; [exact Hci |].
      apply (IHcT g Hg OcT a a'); auto.
      intros y Hy. destruct (Nat.eq_dec y ci) as [-> | Hne]; [exact Hci |].
      apply Hag. simpl. intros [Heq | Hin]; [congruence | contradiction]. }
    assert (Hind : forall g, ordered perm g = true ->
                      cuddI_gt perm g ci = true ->
                      eval (maxP cT g) a = eval (maxP cT g) a').
    { intros g Hg Hgt. rewrite !(maxP_fold perm) by assumption.
      rewrite <- (fold_cube_upd_above perm _ _ g ci (a' ci) a)
        by assumption.
      apply fold_cube_agree. intros y Hy.
      destruct (Nat.eq_dec y ci) as [-> | Hne].
      - apply upd_same.
      - rewrite upd_other by now apply Nat.eqb_neq.
        apply Hag. simpl. intros [Heq | Hin]; [congruence | contradiction]. }
    clear IHcT.
    induction f as [v | fi T IHT E IHE].
    + rewrite maxRepP_vacuous in Ha, Ha' by reflexivity.
      apply andb_true_iff in Ha, Ha'. destruct Ha as [Hn Ha], Ha' as [Hn' Ha'].
      apply negb_true_iff in Hn, Hn'. apply (Htail (Const v)); congruence.
    + destruct (ordered_Node _ _ _ _ Hf) as (HT & HE & OT & OE).
      destruct (cuddI_gt perm (Node fi T E) ci) eqn:Hgt.
      * rewrite maxRepP_vacuous in Ha, Ha' by assumption.
        apply andb_true_iff in Ha, Ha'.
        destruct Ha as [Hn Ha], Ha' as [Hn' Ha'].
        apply negb_true_iff in Hn, Hn'.
        apply (Htail (Node fi T E)); congruence.
      * destruct (Nat.eqb fi ci) eqn:Hix.
        -- apply Nat.eqb_eq in Hix; subst fi.
           rewrite maxRepP_matching in Ha, Ha' by assumption.
           rewrite (Hind E OE HE), (Hind T OT HT) in Ha.
           destruct (a ci) eqn:Hci, (a' ci) eqn:Hci';
             apply andb_true_iff in Ha, Ha';
             destruct Ha as [Hg Ha], Ha' as [Hg' Ha'].
           ++ apply (Htail T); congruence.
           ++ rewrite Hg' in Hg. discriminate.
           ++ rewrite Hg in Hg'. discriminate.
           ++ apply (Htail E); congruence.
        -- assert (Hfi : a fi = a' fi).
           { apply Hag. now apply (cube_vars_above perm). }
           rewrite maxRepP_pass in Ha, Ha' by assumption.
           rewrite <- Hfi in Ha'.
           destruct (BddRef_eqb _ _).
           ++ apply andb_true_iff in Ha, Ha'.
              destruct Ha as [_ Ha], Ha' as [_ Ha']. now apply IHE.
           ++ destruct (a fi); [now apply IHT | now apply IHE].
Qed.

End MaxRepresentativeUnique.

(** X12.  On a manager with nothing pending and no stale entry in its
    computed table, for an ordered [f] and a valid ordered cube, the
    selector returned by [Cudd_addMaxAbstractRepresentative] accepts at
    most one extension of an assignment of the other variables: two
    accepted assignments that agree outside the cube variables agree on
    the cube variables. *)
Theorem max_representative_unique (perm : nat -> nat) (f : DdNode)
        (cube : DdPtr) (m : DdManager) :
  (forall i j, perm i = perm j -> i = j) ->
  quiet perm m ->
  addCheckPositiveCube cube = true ->
  ordered perm (snd cube) = true ->
  ordered perm f = true ->
  exists sel m',
    Cudd_addMaxAbstractRepresentative perm f cube m = (Some sel, m')
    /\ forall a a' : assignment,
         (forall x, ~ In x (cube_vars (snd cube)) -> a x = a' x) ->
         evalB sel a = true -> evalB sel a' = true ->
         forall x, In x (cube_vars (snd cube)) -> a x = a' x.
Proof.
  intros Hinj Hq Hcube Hoc Hof.
  destruct (Cudd_addMaxAbstractRepresentative_quiet perm f cube m Hq Hcube)
    as (m' & E & _).
  eexists; exists m'. split; [exact E |].
  now apply maxRepP_unique.
Qed.

Lemma max_representative_unique_witness :
  (forall i j, identity_order i = identity_order j -> i = j)
  /\ quiet identity_order fresh_manager
  /\ addCheckPositiveCube (false, cube_of_var 1) = true
  /\ ordered identity_order (cube_of_var 1) = true
  /\ ordered identity_order f_crossed = true
  /\ exists sel m',
       Cudd_addMaxAbstractRepresentative identity_order f_crossed
         (false, cube_of_var 1) fresh_manager = (Some sel, m')
       /\ forall a a' : assignment,
            (forall x, ~ In x (cube_vars (cube_of_var 1)) -> a x = a' x) ->
            evalB sel a = true -> evalB sel a' = true ->
            forall x, In x (cube_vars (cube_of_var 1)) -> a x = a' x.
Proof.
  assert (Hinj : forall i j, identity_order i = identity_order j -> i = j)
    by (intros i j H; exact H).
  split; [exact Hinj |]. split; [exact quiet_fresh_manager |].
  split; [reflexivity |]. split; [reflexivity |]. split; [reflexivity |].
  apply (max_representative_unique identity_order f_crossed
           (false, cube_of_var 1) fresh_manager Hinj quiet_fresh_manager
           eq_refl eq_refl eq_refl).
Defined.

(** ** A [NULL] result needs an event *)

Section Succeeds.

Variable perm : nat -> nat.

Lemma succeeds_ret {A : Type} (v : A) :
  succeeds (ret (DdMonad := ManagerDd perm) v).
Proof.
  intros m _. exists v, (cache m). now rewrite set_cache_same.
Qed.

Lemma succeeds_bind {A B : Type} (c : DdM A) (k : A -> DdM B) :
  succeeds c -> (forall a, succeeds (k a)) ->
  succeeds (bind (DdMonad := ManagerDd perm) c k).
Proof.
  intros Hc Hk m He. destruct (Hc m He) as (v & c1 & E1).
  destruct (Hk v (set_cache c1 m) He) as (w & c2 & E2).
  exists w, c2. cbn [bind ManagerDd]. now rewrite E1, E2.
Qed.

Lemma succeeds_primitive {A : Type} (v : A) : succeeds (primitive v).
Proof.
  intros m He. exists v, (cache m). unfold primitive.
  now rewrite He, set_cache_same.
Qed.

Lemma succeeds_check :
  succeeds (checkWhetherToGiveUp (DdMonad := ManagerDd perm)).
Proof.
  intros m He. exists tt, (cache m). cbn. unfold poll.
  now rewrite He, set_cache_same.
Qed.

Lemma succeeds_lookup op f g :
  succeeds (cuddCacheLookup2 (DdMonad := ManagerDd perm) op f g).
Proof.
  intros m _. eexists; exists (cache m). cbn.
  now rewrite set_cache_same.
Qed.

Lemma succeeds_lookupB op f g :
  succeeds (cuddCacheLookup2B (DdMonad := ManagerDd perm) op f g).
Proof.
  intros m _. eexists; exists (cache m). cbn.
  now rewrite set_cache_same.
Qed.

Lemma succeeds_insert op f g r :
  succeeds (cuddCacheInsert2 (DdMonad := ManagerDd perm) op f g r).
Proof. intros m _. eexists; eexists. cbn. reflexivity. Qed.

Lemma succeeds_insertB op f g r :
  succeeds (cuddCacheInsert2B (DdMonad := ManagerDd perm) op f g r).
Proof. intros m _. eexists; eexists. cbn. reflexivity. Qed.

Lemma succeeds_apply op f g :
  succeeds (cuddAddApplyRecur (DdMonad := ManagerDd perm) op f g).
Proof. apply succeeds_primitive. Qed.

Lemma succeeds_unique i t e :
  succeeds (cuddUniqueInter (DdMonad := ManagerDd perm) i t e).
Proof. apply succeeds_primitive. Qed.

Lemma succeeds_uniqueB i t e :
  succeeds (cuddUniqueInterB (DdMonad := ManagerDd perm) i t e).
Proof. apply succeeds_primitive. Qed.

Lemma succeeds_toBdd op f g :
  succeeds (cuddAddToBddApplyRecur (DdMonad := ManagerDd perm) op f g).
Proof. apply succeeds_primitive. Qed.

Lemma succeeds_ite f g h :
  succeeds (cuddBddIteRecur (DdMonad := ManagerDd perm) f g h).
Proof. apply succeeds_primitive. Qed.

Ltac succeeds_tac :=
  repeat
    first
      [ assumption
      | apply succeeds_ret
      | apply succeeds_lookup
      | apply succeeds_lookupB
      | apply succeeds_insert
      | apply succeeds_insertB
      | apply succeeds_check
      | apply succeeds_apply
      | apply succeeds_unique
      | apply succeeds_uniqueB
      | apply succeeds_toBdd
      | apply succeeds_ite
      | solve [auto]
      | apply succeeds_bind; [| intros ?]
      | match goal with
        | |- succeeds (match ?x with Some _ => _ | None => _ end) =>
            destruct x
        | |- succeeds (if ?b then _ else _) => destruct b
        | |- succeeds (let _ := _ in _) => cbv zeta
        end ].

Lemma succeeds_exist (cube f : DdNode) :
  succeeds (cuddAddExistAbstractRecur (DM := ManagerDd perm) perm cube f).
Proof.
  revert f; induction cube as [c | ci cT IHcT cE _]; intros f.
  - rewrite exist_empty_cube. succeeds_tac.
  - induction f as [v | fi T IHT E IHE].
    + destruct (DdNode_eqb (Const v) DD_ZERO) eqn:Hz.
      * apply DdNode_eqb_eq in Hz. rewrite Hz, exist_zero. succeeds_tac.
      * rewrite exist_vacuous by auto. succeeds_tac.
    + destruct (cuddI_gt perm (Node fi T E) ci) eqn:Hgt.
      * rewrite exist_vacuous by auto. succeeds_tac.
      * rewrite exist_node by assumption. succeeds_tac.
Qed.

Lemma succeeds_univ (cube f : DdNode) :
  succeeds (cuddAddUnivAbstractRecur (DM := ManagerDd perm) perm cube f).
Proof.
  revert f; induction cube as [c | ci cT IHcT cE _]; intros f.
  - rewrite univ_empty_cube. succeeds_tac.
  - induction f as [v | fi T IHT E IHE].
    + destruct (DdNode_eqb (Const v) DD_ZERO || DdNode_eqb (Const v) DD_ONE)
        eqn:Hz.
      * rewrite univ_zero_one by assumption. succeeds_tac.
      * rewrite univ_vacuous by auto. succeeds_tac.
    + destruct (cuddI_gt perm (Node fi T E) ci) eqn:Hgt.
      * rewrite univ_vacuous by auto. succeeds_tac.
      * rewrite univ_node by assumption. succeeds_tac.
Qed.

Lemma succeeds_or (cube f : DdNode) :
  succeeds (cuddAddOrAbstractRecur (DM := ManagerDd perm) perm cube f).
Proof.
  revert f; induction cube as [c | ci cT IHcT cE _]; intros f.
  - rewrite or_empty_cube. succeeds_tac.
  - induction f as [v | fi T IHT E IHE].
    + rewrite or_constant. succeeds_tac.
    + destruct (cuddI_gt perm (Node fi T E) ci) eqn:Hgt.
      * rewrite or_vacuous by auto. succeeds_tac.
      * rewrite or_node by assumption. succeeds_tac.
Qed.

Lemma succeeds_min (cube f : DdNode) :
  succeeds (cuddAddMinAbstractRecur (DM := ManagerDd perm) perm cube f).
Proof.
  revert f; induction cube as [c | ci cT IHcT cE _]; intros f.
  - rewrite min_empty_cube. succeeds_tac.
  - induction f as [v | fi T IHT E IHE].
    + destruct (DdNode_eqb (Const v) DD_ZERO) eqn:Hz.
      * apply DdNode_eqb_eq in Hz. rewrite Hz, min_zero. succeeds_tac.
      * rewrite min_vacuous by auto. succeeds_tac.
    + destruct (cuddI_gt perm (Node fi T E) ci) eqn:Hgt.
      * rewrite min_vacuous by auto. succeeds_tac.
      * rewrite min_node by assumption. succeeds_tac.
Qed.

Lemma succeeds_max (cube f : DdNode) :
  succeeds (cuddAddMaxAbstractRecur (DM := ManagerDd perm) perm cube f).
Proof.
  revert f; induction cube as [c | ci cT IHcT cE _]; intros f.
  - rewrite max_empty_cube. succeeds_tac.
  - induction f as [v | fi T IHT E IHE].
    + destruct (DdNode_eqb (Const v) DD_ZERO) eqn:Hz.
      * apply DdNode_eqb_eq in Hz. rewrite Hz, max_zero. succeeds_tac.
      * rewrite max_vacuous by auto. succeeds_tac.
    + destruct (cuddI_gt perm (Node fi T E) ci) eqn:Hgt.
      * rewrite max_vacuous by auto. succeeds_tac.
      * rewrite max_node by assumption. succeeds_tac.
Qed.

Lemma succeeds_minExcept0 (cube f : DdNode) :
  succeeds (cuddAddMinExcept0AbstractRecur (DM := ManagerDd perm) perm
              cube f).
Proof.
  pose proof succeeds_min as Hplain.
  destruct (DdNode_eqb f DD_ZERO || cuddIsConstant cube) eqn:Hb.
  - rewrite minExcept0_base by assumption. succeeds_tac.
  - apply orb_false_iff in Hb. destruct Hb as [Hz Hc].
    destruct cube as [c | ci cT cE]; [discriminate |].
    destruct (cuddI_gt perm f ci) eqn:Hgt.
    + rewrite minExcept0_vacuous by assumption. succeeds_tac.
    + destruct f as [v | fi T E]; [discriminate |].
      rewrite minExcept0_node by assumption. succeeds_tac.
Qed.

Lemma succeeds_minRep (cube f : DdNode) :
  succeeds (cuddAddMinAbstractRepresentativeRecur (DM := ManagerDd perm) perm cube f).
Proof.
  pose proof succeeds_min as Hplain.
  revert f; induction cube as [c | ci cT IHcT cE _]; intros f.
  - rewrite minRep_empty_cube. succeeds_tac.
  - induction f as [v | fi T IHT E IHE].
    + rewrite minRep_vacuous by reflexivity. succeeds_tac.
    + destruct (cuddI_gt perm (Node fi T E) ci) eqn:Hgt.
      * rewrite minRep_vacuous by auto. succeeds_tac.
      * rewrite minRep_node by assumption. succeeds_tac.
Qed.

Lemma succeeds_maxRep (cube f : DdNode) :
  succeeds (cuddAddMaxAbstractRepresentativeRecur (DM := ManagerDd perm) perm cube f).
Proof.
  pose proof succeeds_max as Hplain.
  revert f; induction cube as [c | ci cT IHcT cE _]; intros f.
  - rewrite maxRep_empty_cube. succeeds_tac.
  - induction f as [v | fi T IHT E IHE].
    + rewrite maxRep_vacuous by reflexivity. succeeds_tac.
    + destruct (cuddI_gt perm (Node fi T E) ci) eqn:Hgt.
      * rewrite maxRep_vacuous by auto. succeeds_tac.
      * rewrite maxRep_node by assumption. succeeds_tac.
Qed.

Lemma do_while_succeeds {A : Type} (recur : DdM A) (fuel : nat)
      (m : DdManager) :
  succeeds recur -> events m = [] ->
  exists v c',
    do_while_reordered fuel recur m
    = (Some v, set_cache c' (set_reordered false m)).
Proof.
  intros Hs He. destruct (Hs (set_reordered false m) He) as (v & c' & E).
  exists v, c'. destruct fuel; simpl; rewrite E; reflexivity.
Qed.

End Succeeds.

(** X13.  With no reordering, allocation failure or timeout pending,
    every exported function given a valid cube returns a diagram, not
    [NULL], whatever the computed table holds; the error code of the
    manager is as before and nothing is printed. *)
Theorem no_event_no_failure (perm : nat -> nat) (f : DdNode)
        (cube : DdPtr) (m : DdManager) :
  events m = [] ->
  addCheckPositiveCube cube = true ->
  let returns {A : Type} (r : option A * DdManager) :=
    (exists v, fst r = Some v)
    /\ errorCode (snd r) = errorCode m /\ err (snd r) = err m
    /\ events (snd r) = [] in
  returns (Cudd_addExistAbstract perm f cube m)
  /\ returns (Cudd_addUnivAbstract perm f cube m)
  /\ returns (Cudd_addOrAbstract perm f cube m)
  /\ returns (Cudd_addMinAbstract perm f cube m)
  /\ returns (Cudd_addMinExcept0Abstract perm f cube m)
  /\ returns (Cudd_addMaxAbstract perm f cube m)
  /\ returns (Cudd_addMinAbstractRepresentative perm f cube m)
  /\ returns (Cudd_addMaxAbstractRepresentative perm f cube m).
Proof.
  intros He Hcube returns. unfold returns.
  unfold Cudd_addExistAbstract, Cudd_addUnivAbstract, Cudd_addOrAbstract,
    Cudd_addMinAbstract, Cudd_addMinExcept0Abstract, Cudd_addMaxAbstract,
    Cudd_addMinAbstractRepresentative, Cudd_addMaxAbstractRepresentative.
  rewrite Hcube. cbn [negb].
  destruct (do_while_succeeds _ (List.length (events m)) m
              (succeeds_exist perm (snd cube) f) He) as (v1 & c1 & E1).
  destruct (do_while_succeeds _ (List.length (events m)) m
              (succeeds_univ perm (snd cube) f) He) as (v2 & c2 & E2).
  destruct (do_while_succeeds _ (List.length (events m)) m
              (succeeds_or perm (snd cube) f) He) as (v3 & c3 & E3).
  destruct (do_while_succeeds _ (List.length (events m)) m
              (succeeds_min perm (snd cube) f) He) as (v4 & c4 & E4).
  destruct (do_while_succeeds _ (List.length (events m)) m
              (succeeds_minExcept0 perm (snd cube) f) He) as (v5 & c5 & E5).
  destruct (do_while_succeeds _ (List.length (events m)) m
              (succeeds_max perm (snd cube) f) He) as (v6 & c6 & E6).
  destruct (do_while_succeeds _ (List.length (events m)) m
              (succeeds_minRep perm (snd cube) f) He) as (v7 & c7 & E7).
  destruct (do_while_succeeds _ (List.length (events m)) m
              (succeeds_maxRep perm (snd cube) f) He) as (v8 & c8 & E8).
  rewrite E1, E2, E3, E4, E5, E6, E7, E8.
  unfold run_timeoutHandler. cbn [errorCode timeoutHandler set_cache
                                    set_reordered].
  repeat split; try (eexists; reflexivity);
    try (destruct (_ && _); reflexivity); try assumption;
    destruct (_ && _); assumption.
Qed.

Lemma no_event_no_failure_witness :
  events warm_manager = []
  /\ addCheckPositiveCube (false, cube_of_var 1) = true
  /\ (exists v,
        fst (Cudd_addMinExcept0Abstract identity_order f_crossed
               (false, cube_of_var 1) warm_manager) = Some v).
Proof.
  assert (He : events warm_manager = []) by reflexivity.
  split; [exact He |]. split; [reflexivity |].
  apply (no_event_no_failure identity_order f_crossed
           (false, cube_of_var 1) warm_manager He eq_refl).
Defined.

(** ** The results are ordered *)

Section OrderedResults.

Variable perm : nat -> nat.
Hypothesis perm_inj : forall i j, perm i = perm j -> i = j.

Lemma addMk_ordered (i : nat) (t e : DdNode) :
  ordered perm t = true -> ordered perm e = true ->
  cuddI_gt perm t i = true -> cuddI_gt perm e i = true ->
  ordered perm (addMk i t e) = true
  /\ forall j, (perm j < perm i)%nat -> cuddI_gt perm (addMk i t e) j = true.
Proof.
  intros Ot Oe Ht He. unfold addMk. destruct (DdNode_eqb t e).
  - split; [assumption |]. intros j Hj. now apply (cuddI_gt_trans perm t i).
  - split; [simpl; now rewrite Ht, He, Ot, Oe |].
    intros j Hj. simpl. now apply Nat.ltb_lt.
Qed.

Lemma cuddI_gt_Node (i j : nat) (t e : DdNode) :
  cuddI_gt perm (Node i t e) j = true <-> (perm j < perm i)%nat.
Proof. simpl. apply Nat.ltb_lt. Qed.

Lemma addApply_ordered (op : DD_AOP) (f g : DdNode) :
  ordered perm f = true -> ordered perm g = true ->
  ordered perm (addApply perm op f g) = true
  /\ forall j, cuddI_gt perm f j = true -> cuddI_gt perm g j = true ->
               cuddI_gt perm (addApply perm op f g) j = true.
Proof.
  revert g; induction f as [x | fi ft IHt fe IHe]; intros g Hf Hg;
    induction g as [y | gi gt IHgt ge IHge].
  - cbn [addApply]. split; reflexivity.
  - destruct (ordered_Node _ _ _ _ Hg) as (Gt & Ge & Ogt & Oge).
    destruct (IHgt Ogt) as [O1 B1]. destruct (IHge Oge) as [O2 B2].
    cbn [addApply] in *.
    destruct (addMk_ordered gi _ _ O1 O2 (B1 gi eq_refl Gt)
                (B2 gi eq_refl Ge)) as [O B].
    split; [exact O |]. intros j _ Hj. apply B. now apply cuddI_gt_Node in Hj.
  - destruct (ordered_Node _ _ _ _ Hf) as (Ft & Fe & Oft & Ofe).
    destruct (IHt (Const y) Oft Hg) as [O1 B1].
    destruct (IHe (Const y) Ofe Hg) as [O2 B2].
    cbn [addApply].
    destruct (addMk_ordered fi _ _ O1 O2 (B1 fi Ft eq_refl)
                (B2 fi Fe eq_refl)) as [O B].
    split; [exact O |]. intros j Hj _. apply B. now apply cuddI_gt_Node in Hj.
  - destruct (ordered_Node _ _ _ _ Hf) as (Ft & Fe & Oft & Ofe).
    destruct (ordered_Node _ _ _ _ Hg) as (Gt & Ge & Ogt & Oge).
    cbn [addApply].
    destruct (Nat.ltb (perm fi) (perm gi)) eqn:H1.
    + assert (Hgfi : cuddI_gt perm (Node gi gt ge) fi = true) by exact H1.
      destruct (IHt (Node gi gt ge) Oft Hg) as [O1 B1].
      destruct (IHe (Node gi gt ge) Ofe Hg) as [O2 B2].
      destruct (addMk_ordered fi _ _ O1 O2 (B1 fi Ft Hgfi)
                  (B2 fi Fe Hgfi)) as [O B].
      split; [exact O |]. intros j Hj _. apply B.
      now apply cuddI_gt_Node in Hj.
    + destruct (Nat.ltb (perm gi) (perm fi)) eqn:H2.
      * assert (Hfgi : cuddI_gt perm (Node fi ft fe) gi = true) by exact H2.
        destruct (IHgt Ogt) as [O1 B1]. destruct (IHge Oge) as [O2 B2].
        cbn [addApply] in O1, B1, O2, B2.
        destruct (addMk_ordered gi _ _ O1 O2 (B1 gi Hfgi Gt)
                    (B2 gi Hfgi Ge)) as [O B].
        split; [exact O |]. intros j _ Hj. apply B.
        now apply cuddI_gt_Node in Hj.
      * assert (fi = gi) by now apply (perm_same perm perm_inj).
        subst gi.
        destruct (IHt gt Oft Ogt) as [O1 B1].
        destruct (IHe ge Ofe Oge) as [O2 B2].
        destruct (addMk_ordered fi _ _ O1 O2 (B1 fi Ft Gt)
                    (B2 fi Fe Ge)) as [O B].
        split; [exact O |]. intros j Hj _. apply B.
        now apply cuddI_gt_Node in Hj.
Qed.

Lemma canon_ordered (fi : nat) (T E r1 r2 : DdNode) :
  cuddI_gt perm T fi = true -> cuddI_gt perm E fi = true ->
  (ordered perm r1 = true
   /\ forall j, cuddI_gt perm T j = true -> cuddI_gt perm r1 j = true) ->
  (ordered perm r2 = true
   /\ forall j, cuddI_gt perm E j = true -> cuddI_gt perm r2 j = true) ->
  ordered perm (if DdNode_eqb r1 r2 then r1 else Node fi r1 r2) = true
  /\ forall j, cuddI_gt perm (Node fi T E) j = true ->
               cuddI_gt perm (if DdNode_eqb r1 r2 then r1 else Node fi r1 r2)
                 j = true.
Proof.
  intros HT HE [O1 B1] [O2 B2].
  destruct (addMk_ordered fi r1 r2 O1 O2 (B1 fi HT) (B2 fi HE)) as [O B].
  split; [exact O |]. intros j Hj. apply B. now apply cuddI_gt_Node in Hj.
Qed.

Lemma combine_ordered (op : DD_AOP) (fi : nat) (T E r1 r2 : DdNode) :
  cuddI_gt perm T fi = true -> cuddI_gt perm E fi = true ->
  (ordered perm r1 = true
   /\ forall j, cuddI_gt perm T j = true -> cuddI_gt perm r1 j = true) ->
  (ordered perm r2 = true
   /\ forall j, cuddI_gt perm E j = true -> cuddI_gt perm r2 j = true) ->
  ordered perm (addApply perm op r1 r2) = true
  /\ forall j, cuddI_gt perm (Node fi T E) j = true ->
               cuddI_gt perm (addApply perm op r1 r2) j = true.
Proof.
  intros HT HE [O1 B1] [O2 B2].
  destruct (addApply_ordered op r1 r2 O1 O2) as [O B].
  split; [exact O |]. intros j Hj. apply cuddI_gt_Node in Hj.
  apply B; [apply B1 | apply B2]; now apply (cuddI_gt_trans perm _ fi).
Qed.

Lemma twice_ordered (op : DD_AOP) (f r : DdNode) :
  (ordered perm r = true
   /\ forall j, cuddI_gt perm f j = true -> cuddI_gt perm r j = true) ->
  ordered perm (addApply perm op r r) = true
  /\ forall j, cuddI_gt perm f j = true ->
               cuddI_gt perm (addApply perm op r r) j = true.
Proof.
  intros [O1 B1]. destruct (addApply_ordered op r r O1 O1) as [O B].
  split; [exact O |]. intros j Hj. apply B; now apply B1.
Qed.

Lemma existP_ordered (cube f : DdNode) :
  ordered perm f = true ->
  ordered perm (cuddAddExistAbstractRecur (DM := PureDd perm) perm cube f) = true
  /\ forall j, cuddI_gt perm f j = true ->
       cuddI_gt perm (cuddAddExistAbstractRecur (DM := PureDd perm) perm cube f) j = true.
Proof.
  revert f; induction cube as [c | ci cT IHcT cE _]; intros f Hf.
  - rewrite exist_empty_cube. split; auto.
  - induction f as [v | fi T IHT E IHE].
    + destruct (DdNode_eqb (Const v) DD_ZERO) eqn:Hz.
      * apply DdNode_eqb_eq in Hz. rewrite Hz, exist_zero. split; auto.
      * rewrite exist_vacuous by auto. pure_step. apply (twice_ordered Cudd_addPlus). now apply IHcT.
    + destruct (ordered_Node _ _ _ _ Hf) as (HT & HE & OT & OE).
      destruct (cuddI_gt perm (Node fi T E) ci) eqn:Hgt.
      * rewrite exist_vacuous by auto. pure_step. apply (twice_ordered Cudd_addPlus). now apply IHcT.
      * rewrite exist_node by assumption. pure_step.
        destruct (Nat.eqb fi ci).
        -- apply (combine_ordered Cudd_addPlus fi T E); auto.
        -- apply (canon_ordered fi T E); auto.
Qed.

Lemma univP_ordered (cube f : DdNode) :
  ordered perm f = true ->
  ordered perm (cuddAddUnivAbstractRecur (DM := PureDd perm) perm cube f) = true
  /\ forall j, cuddI_gt perm f j = true ->
       cuddI_gt perm (cuddAddUnivAbstractRecur (DM := PureDd perm) perm cube f) j = true.
Proof.
  revert f; induction cube as [c | ci cT IHcT cE _]; intros f Hf.
  - rewrite univ_empty_cube. split; auto.
  - induction f as [v | fi T IHT E IHE].
    + destruct (DdNode_eqb (Const v) DD_ZERO || DdNode_eqb (Const v) DD_ONE)
        eqn:Hz.
      * rewrite univ_zero_one by assumption. split; auto.
      * rewrite univ_vacuous by auto. pure_step.
        apply (twice_ordered Cudd_addTimes). now apply IHcT.
    + destruct (ordered_Node _ _ _ _ Hf) as (HT & HE & OT & OE).
      destruct (cuddI_gt perm (Node fi T E) ci) eqn:Hgt.
      * rewrite univ_vacuous by auto. pure_step. apply (twice_ordered Cudd_addTimes). now apply IHcT.
      * rewrite univ_node by assumption. pure_step.
        destruct (Nat.eqb fi ci).
        -- apply (combine_ordered Cudd_addTimes fi T E); auto.
        -- apply (canon_ordered fi T E); auto.
Qed.

Lemma minP_ordered (cube f : DdNode) :
  ordered perm f = true ->
  ordered perm (cuddAddMinAbstractRecur (DM := PureDd perm) perm cube f) = true
  /\ forall j, cuddI_gt perm f j = true ->
       cuddI_gt perm (cuddAddMinAbstractRecur (DM := PureDd perm) perm cube f) j = true.
Proof.
  revert f; induction cube as [c | ci cT IHcT cE _]; intros f Hf.
  - rewrite min_empty_cube. split; auto.
  - induction f as [v | fi T IHT E IHE].
    + destruct (DdNode_eqb (Const v) DD_ZERO) eqn:Hz.
      * apply DdNode_eqb_eq in Hz. rewrite Hz, min_zero. split; auto.
      * rewrite min_vacuous by auto. now apply IHcT.
    + destruct (ordered_Node _ _ _ _ Hf) as (HT & HE & OT & OE).
      destruct (cuddI_gt perm (Node fi T E) ci) eqn:Hgt.
      * rewrite min_vacuous by auto. now apply IHcT.
      * rewrite min_node by assumption. pure_step.
        destruct (Nat.eqb fi ci).
        -- apply (combine_ordered Cudd_addMinimum fi T E); auto.
        -- apply (canon_ordered fi T E); auto.
Qed.

Lemma maxP_ordered (cube f : DdNode) :
  ordered perm f = true ->
  ordered perm (cuddAddMaxAbstractRecur (DM := PureDd perm) perm cube f) = true
  /\ forall j, cuddI_gt perm f j = true ->
       cuddI_gt perm (cuddAddMaxAbstractRecur (DM := PureDd perm) perm cube f) j = true.
Proof.
  revert f; induction cube as [c | ci cT IHcT cE _]; intros f Hf.
  - rewrite max_empty_cube. split; auto.
  - induction f as [v | fi T IHT E IHE].
    + destruct (DdNode_eqb (Const v) DD_ZERO) eqn:Hz.
      * apply DdNode_eqb_eq in Hz. rewrite Hz, max_zero. split; auto.
      * rewrite max_vacuous by auto. now apply IHcT.
    + destruct (ordered_Node _ _ _ _ Hf) as (HT & HE & OT & OE).
      destruct (cuddI_gt perm (Node fi T E) ci) eqn:Hgt.
      * rewrite max_vacuous by auto. now apply IHcT.
      * rewrite max_node by assumption. pure_step.
        destruct (Nat.eqb fi ci).
        -- apply (combine_ordered Cudd_addMaximum fi T E); auto.
        -- apply (canon_ordered fi T E); auto.
Qed.

Lemma orP_ordered (cube f : DdNode) :
  ordered perm f = true ->
  ordered perm (cuddAddOrAbstractRecur (DM := PureDd perm) perm cube f) = true
  /\ forall j, cuddI_gt perm f j = true ->
       cuddI_gt perm (cuddAddOrAbstractRecur (DM := PureDd perm) perm cube f)
         j = true.
Proof.
  revert f; induction cube as [c | ci cT IHcT cE _]; intros f Hf.
  - rewrite or_empty_cube. split; auto.
  - induction f as [v | fi T IHT E IHE].
    + rewrite or_constant. split; auto.
    + destruct (ordered_Node _ _ _ _ Hf) as (HT & HE & OT & OE).
      destruct (cuddI_gt perm (Node fi T E) ci) eqn:Hgt.
      * rewrite or_vacuous by auto. now apply IHcT.
      * rewrite or_node by assumption. pure_step.
        destruct (Nat.eqb fi ci).
        -- destruct (DdNode_eqb _ DD_ONE) eqn:Hone; cbn [negb].
           ++ apply DdNode_eqb_eq in Hone. rewrite Hone. split; auto.
           ++ apply (combine_ordered Cudd_addOr fi T E); auto.
        -- apply (canon_ordered fi T E); auto.
Qed.

End OrderedResults.

(** X14.  On a manager with nothing pending and no stale entry in its
    computed table, and for a valid cube, the existential, universal,
    disjunctive, minimum and maximum abstractions of an ordered diagram
    return ordered diagrams: along every edge of the result the level
    grows. *)
Theorem abstractions_return_ordered (perm : nat -> nat) (f : DdNode)
        (cube : DdPtr) (m : DdManager) :
  (forall i j, perm i = perm j -> i = j) ->
  quiet perm m ->
  addCheckPositiveCube cube = true ->
  ordered perm f = true ->
  exists rE rU rO rMin rMax mE mU mO mMin mMax,
    Cudd_addExistAbstract perm f cube m = (Some rE, mE)
    /\ Cudd_addUnivAbstract perm f cube m = (Some rU, mU)
    /\ Cudd_addOrAbstract perm f cube m = (Some rO, mO)
    /\ Cudd_addMinAbstract perm f cube m = (Some rMin, mMin)
    /\ Cudd_addMaxAbstract perm f cube m = (Some rMax, mMax)
    /\ ordered perm rE = true /\ ordered perm rU = true
    /\ ordered perm rO = true /\ ordered perm rMin = true
    /\ ordered perm rMax = true.
Proof.
  intros Hinj Hq Hcube Hof.
  destruct (Cudd_addExistAbstract_quiet perm f cube m Hq Hcube)
    as (mE & EE & _).
  destruct (Cudd_addUnivAbstract_quiet perm f cube m Hq Hcube)
    as (mU & EU & _).
  destruct (Cudd_addOrAbstract_quiet perm f cube m Hq Hcube)
    as (mO & EO & _).
  destruct (Cudd_addMinAbstract_quiet perm f cube m Hq Hcube)
    as (mMin & EMin & _).
  destruct (Cudd_addMaxAbstract_quiet perm f cube m Hq Hcube)
    as (mMax & EMax & _).
  do 5 eexists. exists mE, mU, mO, mMin, mMax.
  split; [exact EE |]. split; [exact EU |]. split; [exact EO |].
  split; [exact EMin |]. split; [exact EMax |].
  split; [now apply existP_ordered |].
  split; [now apply univP_ordered |].
  split; [now apply orP_ordered |].
  split; [now apply minP_ordered | now apply maxP_ordered].
Qed.

Lemma abstractions_return_ordered_witness :
  (forall i j, identity_order i = identity_order j -> i = j)
  /\ quiet identity_order fresh_manager
  /\ addCheckPositiveCube (false, cube_of_var 0) = true
  /\ ordered identity_order f_crossed = true
  /\ exists rE rU rO rMin rMax mE mU mO mMin mMax,
       Cudd_addExistAbstract identity_order f_crossed (false, cube_of_var 0)
         fresh_manager = (Some rE, mE)
       /\ Cudd_addUnivAbstract identity_order f_crossed
            (false, cube_of_var 0) fresh_manager = (Some rU, mU)
       /\ Cudd_addOrAbstract identity_order f_crossed
            (false, cube_of_var 0) fresh_manager = (Some rO, mO)
       /\ Cudd_addMinAbstract identity_order f_crossed
            (false, cube_of_var 0) fresh_manager = (Some rMin, mMin)
       /\ Cudd_addMaxAbstract identity_order f_crossed
            (false, cube_of_var 0) fresh_manager = (Some rMax, mMax)
       /\ ordered identity_order rE = true
       /\ ordered identity_order rU = true
       /\ ordered identity_order rO = true
       /\ ordered identity_order rMin = true
       /\ ordered identity_order rMax = true.
Proof.
  assert (Hinj : forall i j, identity_order i = identity_order j -> i = j)
    by (intros i j H; exact H).
  split; [exact Hinj |]. split; [exact quiet_fresh_manager |].
  split; [reflexivity |]. split; [reflexivity |].
  apply (abstractions_return_ordered identity_order f_crossed
           (false, cube_of_var 0) fresh_manager Hinj quiet_fresh_manager
           eq_refl eq_refl).
Defined.

(** ** Variables the diagram does not depend on *)

Lemma fold_cube_indep (op : Z -> Z -> Z) (vars : list nat) (f : DdNode) :
  (forall x, op x x = x) ->
  (forall a a' : assignment,
      (forall x, ~ In x vars -> a x = a' x) -> eval f a = eval f a') ->
  forall a, fold_cube op vars (eval f) a = eval f a.
Proof.
  intros Hidem Hindep.
  assert (H : forall ys, incl ys vars ->
                forall a, fold_cube op ys (eval f) a = eval f a).
  { induction ys as [| y ys IH]; intros Hincl a; [reflexivity |].
    cbn [fold_cube].
    rewrite !IH by (intros z Hz; apply Hincl; now right).
    assert (Hy : forall b, eval f (upd a y b) = eval f a).
    { intros b. apply Hindep. intros x Hx. apply upd_other.
      apply Nat.eqb_neq. intros ->. apply Hx. apply Hincl. now left. }
    now rewrite !Hy. }
  apply H. apply incl_refl.
Qed.

(** X15.  On a manager with nothing pending and no stale entry in its
    computed table, for a valid ordered cube and an ordered [f] whose
    value does not depend on the cube variables, [Cudd_addMinAbstract]
    and [Cudd_addMaxAbstract] return diagrams with the values of [f]. *)
Theorem min_max_abstract_absorb (perm : nat -> nat) (f : DdNode)
        (cube : DdPtr) (m : DdManager) :
  (forall i j, perm i = perm j -> i = j) ->
  quiet perm m ->
  addCheckPositiveCube cube = true ->
  ordered perm (snd cube) = true ->
  ordered perm f = true ->
  (forall a a' : assignment,
      (forall x, ~ In x (cube_vars (snd cube)) -> a x = a' x) ->
      eval f a = eval f a') ->
  exists rMin rMax mMin mMax,
    Cudd_addMinAbstract perm f cube m = (Some rMin, mMin)
    /\ Cudd_addMaxAbstract perm f cube m = (Some rMax, mMax)
    /\ forall a : assignment,
         eval rMin a = eval f a /\ eval rMax a = eval f a.
Proof.
  intros Hinj Hq Hcube Hoc Hof Hindep.
  destruct (Cudd_addMinAbstract_quiet perm f cube m Hq Hcube)
    as (mMin & EMin & _).
  destruct (Cudd_addMaxAbstract_quiet perm f cube m Hq Hcube)
    as (mMax & EMax & _).
  do 2 eexists. exists mMin, mMax.
  split; [exact EMin |]. split; [exact EMax |].
  intros a. rewrite (minP_fold perm), (maxP_fold perm) by assumption.
  split; apply fold_cube_indep; auto; intros x; apply aop_leaf_idem; auto.
Qed.

Lemma min_max_abstract_absorb_witness :
  (forall i j, identity_order i = identity_order j -> i = j)
  /\ quiet identity_order fresh_manager
  /\ addCheckPositiveCube (false, cube_of_var 0) = true
  /\ ordered identity_order (cube_of_var 0) = true
  /\ ordered identity_order (Node 1 (Const 2) (Const 3)) = true
  /\ exists rMin rMax mMin mMax,
       Cudd_addMinAbstract identity_order (Node 1 (Const 2) (Const 3))
         (false, cube_of_var 0) fresh_manager = (Some rMin, mMin)
       /\ Cudd_addMaxAbstract identity_order (Node 1 (Const 2) (Const 3))
            (false, cube_of_var 0) fresh_manager = (Some rMax, mMax)
       /\ forall a : assignment,
            eval rMin a = eval (Node 1 (Const 2) (Const 3)) a
            /\ eval rMax a = eval (Node 1 (Const 2) (Const 3)) a.
Proof.
  assert (Hinj : forall i j, identity_order i = identity_order j -> i = j)
    by (intros i j H; exact H).
  split; [exact Hinj |]. split; [exact quiet_fresh_manager |].
  split; [reflexivity |]. split; [reflexivity |]. split; [reflexivity |].
  apply (min_max_abstract_absorb identity_order (Node 1 (Const 2) (Const 3))
           (false, cube_of_var 0) fresh_manager Hinj quiet_fresh_manager
           eq_refl eq_refl eq_refl).
  intros a a' H. simpl. rewrite (H 1%nat); [reflexivity |].
  simpl. intros [Heq | []]. discriminate.
Defined.

(** ** Abstracting twice *)

Lemma fold_cube_ext (op : Z -> Z -> Z) (vars : list nat)
      (g g' : assignment -> Z) :
  (forall a, g a = g' a) ->
  forall a, fold_cube op vars g a = fold_cube op vars g' a.
Proof.
  intros H. induction vars as [| x xs IH]; intros a; cbn [fold_cube].
  - apply H.
  - now rewrite !IH.
Qed.

(** X16.  On a manager with nothing pending and no stale entry in its
    computed table, abstracting the result of [Cudd_addMinAbstract]
    (of [Cudd_addMaxAbstract]) over the same valid ordered cube once
    more, on the manager the first call left, returns a diagram with
    the same values: the abstraction is idempotent. *)
Theorem min_max_abstract_idempotent (perm : nat -> nat) (f : DdNode)
        (cube : DdPtr) (m : DdManager) :
  (forall i j, perm i = perm j -> i = j) ->
  quiet perm m ->
  addCheckPositiveCube cube = true ->
  ordered perm (snd cube) = true ->
  ordered perm f = true ->
  (exists r1 m1 r2 m2,
      Cudd_addMinAbstract perm f cube m = (Some r1, m1)
      /\ Cudd_addMinAbstract perm r1 cube m1 = (Some r2, m2)
      /\ forall a : assignment, eval r2 a = eval r1 a)
  /\ (exists r1 m1 r2 m2,
         Cudd_addMaxAbstract perm f cube m = (Some r1, m1)
         /\ Cudd_addMaxAbstract perm r1 cube m1 = (Some r2, m2)
         /\ forall a : assignment, eval r2 a = eval r1 a).
Proof.
  intros Hinj Hq Hcube Hoc Hof. split.
  - destruct (Cudd_addMinAbstract_quiet perm f cube m Hq Hcube)
      as (m1 & E1 & Q1).
    destruct (Cudd_addMinAbstract_quiet perm
                (cuddAddMinAbstractRecur (DM := PureDd perm) perm
                   (snd cube) f) cube m1 Q1 Hcube) as (m2 & E2 & _).
    eexists. exists m1. eexists. exists m2.
    split; [exact E1 |]. split; [exact E2 |].
    intros a. rewrite (minP_fold perm Hinj)
      by (try assumption; now apply minP_ordered).
    apply fold_cube_indep; [intros x; apply aop_leaf_idem; auto |].
    intros b b' Hag. rewrite !(minP_fold perm) by assumption.
    now apply fold_cube_agree.
  - destruct (Cudd_addMaxAbstract_quiet perm f cube m Hq Hcube)
      as (m1 & E1 & Q1).
    destruct (Cudd_addMaxAbstract_quiet perm
                (cuddAddMaxAbstractRecur (DM := PureDd perm) perm
                   (snd cube) f) cube m1 Q1 Hcube) as (m2 & E2 & _).
    eexists. exists m1. eexists. exists m2.
    split; [exact E1 |]. split; [exact E2 |].
    intros a. rewrite (maxP_fold perm Hinj)
      by (try assumption; now apply maxP_ordered).
    apply fold_cube_indep; [intros x; apply aop_leaf_idem; auto |].
    intros b b' Hag. rewrite !(maxP_fold perm) by assumption.
    now apply fold_cube_agree.
Qed.

Lemma min_max_abstract_idempotent_witness :
  (forall i j, identity_order i = identity_order j -> i = j)
  /\ quiet identity_order fresh_manager
  /\ addCheckPositiveCube (false, cube_of_var 1) = true
  /\ ordered identity_order (cube_of_var 1) = true
  /\ ordered identity_order f_crossed = true
  /\ (exists r1 m1 r2 m2,
         Cudd_addMinAbstract identity_order f_crossed
           (false, cube_of_var 1) fresh_manager = (Some r1, m1)
         /\ Cudd_addMinAbstract identity_order r1 (false, cube_of_var 1) m1
            = (Some r2, m2)
         /\ forall a : assignment, eval r2 a = eval r1 a).
Proof.
  assert (Hinj : forall i j, identity_order i = identity_order j -> i = j)
    by (intros i j H; exact H).
  split; [exact Hinj |]. split; [exact quiet_fresh_manager |].
  split; [reflexivity |]. split; [reflexivity |]. split; [reflexivity |].
  apply (min_max_abstract_idempotent identity_order f_crossed
           (false, cube_of_var 1) fresh_manager Hinj quiet_fresh_manager
           eq_refl eq_refl eq_refl).
Defined.

(** X17.  On a manager with nothing pending and no stale entry in its
    computed table, [Cudd_addExistAbstract] over a second valid ordered
    cube, applied to the result of [Cudd_addExistAbstract] over a first
    one on the manager the first call left, returns a diagram whose
    value is the sum over the variables of the second cube of the sums
    over the variables of the first. *)
Theorem exist_abstract_composes (perm : nat -> nat) (f : DdNode)
        (cube1 cube2 : DdPtr) (m : DdManager) :
  (forall i j, perm i = perm j -> i = j) ->
  quiet perm m ->
  addCheckPositiveCube cube1 = true ->
  addCheckPositiveCube cube2 = true ->
  ordered perm (snd cube1) = true ->
  ordered perm (snd cube2) = true ->
  ordered perm f = true ->
  exists r1 m1 r2 m2,
    Cudd_addExistAbstract perm f cube1 m = (Some r1, m1)
    /\ Cudd_addExistAbstract perm r1 cube2 m1 = (Some r2, m2)
    /\ forall a : assignment,
         eval r2 a
         = fold_cube Z.add (cube_vars (snd cube2))
             (fold_cube Z.add (cube_vars (snd cube1)) (eval f)) a.
Proof.
  intros Hinj Hq Hc1 Hc2 Ho1 Ho2 Hof.
  destruct (Cudd_addExistAbstract_quiet perm f cube1 m Hq Hc1)
    as (m1 & E1 & Q1).
  destruct (Cudd_addExistAbstract_quiet perm
              (cuddAddExistAbstractRecur (DM := PureDd perm) perm
                 (snd cube1) f) cube2 m1 Q1 Hc2) as (m2 & E2 & _).
  eexists. exists m1. eexists. exists m2.
  split; [exact E1 |]. split; [exact E2 |].
  intros a. rewrite (existP_fold perm Hinj)
    by (try assumption; now apply existP_ordered).
  apply fold_cube_ext. intros b. now apply (existP_fold perm).
Qed.

Lemma exist_abstract_composes_witness :
  (forall i j, identity_order i = identity_order j -> i = j)
  /\ quiet identity_order fresh_manager
  /\ addCheckPositiveCube (false, cube_of_var 1) = true
  /\ addCheckPositiveCube (false, cube_of_var 0) = true
  /\ ordered identity_order (cube_of_var 1) = true
  /\ ordered identity_order (cube_of_var 0) = true
  /\ ordered identity_order f_crossed = true
  /\ exists r1 m1 r2 m2,
       Cudd_addExistAbstract identity_order f_crossed
         (false, cube_of_var 1) fresh_manager = (Some r1, m1)
       /\ Cudd_addExistAbstract identity_order r1 (false, cube_of_var 0) m1
          = (Some r2, m2)
       /\ forall a : assignment,
            eval r2 a
            = fold_cube Z.add (cube_vars (cube_of_var 0))
                (fold_cube Z.add (cube_vars (cube_of_var 1))
                   (eval f_crossed)) a.
Proof.
  assert (Hinj : forall i j, identity_order i = identity_order j -> i = j)
    by (intros i j H; exact H).
  split; [exact Hinj |]. split; [exact quiet_fresh_manager |].
  split; [reflexivity |]. split; [reflexivity |]. split; [reflexivity |].
  split; [reflexivity |]. split; [reflexivity |].
  apply (exist_abstract_composes identity_order f_crossed
           (false, cube_of_var 1) (false, cube_of_var 0) fresh_manager
           Hinj quiet_fresh_manager eq_refl eq_refl eq_refl eq_refl eq_refl).
Defined.

(** ** Minimum except zero, where [f] and the cube share the top variable *)

Lemma minExcept0_matching_run (perm : nat -> nat) (i : nat)
      (cT cE T E : DdNode) (m : DdManager) :
  quiet perm m ->
  cache_find (TAG_Cudd_addMinAbstract, Node i T E, Node i cT cE) (cache m)
  = None ->
  exists c',
    cuddAddMinExcept0AbstractRecur (DM := ManagerDd perm) perm
      (Node i cT cE) (Node i T E) m
    = (Some (addApply perm Cudd_addMinimumExcept0
               (cuddAddMinAbstractRecur (DM := PureDd perm) perm cT T)
               (cuddAddMinAbstractRecur (DM := PureDd perm) perm cT E)),
       set_cache c' m).
Proof.
  intros Hq Hfind.
  rewrite minExcept0_node by (simpl; apply Nat.ltb_irrefl).
  rewrite Nat.eqb_refl.
  cbn [bind cuddCacheLookup2 ManagerDd]. rewrite Hfind.
  destruct (refines_min perm cT T m Hq) as (c1 & E1 & O1).
  rewrite E1.
  assert (Hq1 : quiet perm (set_cache c1 m)) by (destruct Hq; split; auto).
  destruct (refines_min perm cT E _ Hq1) as (c2 & E2 & O2).
  rewrite E2.
  assert (Hq2 : quiet perm (set_cache c2 (set_cache c1 m)))
    by (destruct Hq; split; auto).
  destruct (refines_apply perm Cudd_addMinimumExcept0
              (cuddAddMinAbstractRecur (DM := PureDd perm) perm cT T)
              (cuddAddMinAbstractRecur (DM := PureDd perm) perm cT E)
              _ Hq2) as (c3 & E3 & O3).
  rewrite E3. cbn [cuddCacheInsert2 ret ManagerDd].
  eexists. reflexivity.
Qed.

(** X18.  On a manager with nothing pending, no stale entry in its
    computed table and no entry for the pair under the tag of
    [Cudd_addMinAbstract], [Cudd_addMinExcept0Abstract] of an ordered
    [f] over a valid ordered cube with the same top variable returns a
    diagram whose value is the minimum-except-zero of two numbers: the
    plain minimum of the then-cofactor and the plain minimum of the
    else-cofactor over the remaining cube variables.  Zeros are set
    aside at the top variable only. *)
Theorem minExcept0_abstract_value (perm : nat -> nat) (i : nat)
        (cT cE T E : DdNode) (m : DdManager) :
  (forall i j, perm i = perm j -> i = j) ->
  quiet perm m ->
  cache_find (TAG_Cudd_addMinAbstract, Node i T E, Node i cT cE) (cache m)
  = None ->
  addCheckPositiveCube (false, Node i cT cE) = true ->
  ordered perm (Node i cT cE) = true ->
  ordered perm (Node i T E) = true ->
  exists res m',
    Cudd_addMinExcept0Abstract perm (Node i T E) (false, Node i cT cE) m
    = (Some res, m')
    /\ forall a : assignment,
         eval res a
         = aop_leaf Cudd_addMinimumExcept0
             (fold_cube Z.min (cube_vars cT) (eval T) a)
             (fold_cube Z.min (cube_vars cT) (eval E) a).
Proof.
  intros Hinj Hq Hfind Hcube Hoc Hof.
  unfold Cudd_addMinExcept0Abstract. rewrite Hcube. cbn [negb snd].
  assert (Hq0 : quiet perm (set_reordered false m))
    by (destruct Hq; split; auto).
  destruct (minExcept0_matching_run perm i cT cE T E _ Hq0 Hfind)
    as (c' & Erun).
  assert (Eloop : forall fuel,
             do_while_reordered fuel
               (cuddAddMinExcept0AbstractRecur (DM := ManagerDd perm) perm
                  (Node i cT cE) (Node i T E)) m
             = (Some (addApply perm Cudd_addMinimumExcept0
                        (cuddAddMinAbstractRecur (DM := PureDd perm) perm
                           cT T)
                        (cuddAddMinAbstractRecur (DM := PureDd perm) perm
                           cT E)),
                set_cache c' (set_reordered false m))).
  { intros fuel. destruct fuel; simpl; rewrite Erun; reflexivity. }
  rewrite Eloop. do 2 eexists. split; [reflexivity |].
  intros a. rewrite eval_addApply by assumption.
  destruct (ordered_Node _ _ _ _ Hoc) as (_ & _ & OcT & _).
  destruct (ordered_Node _ _ _ _ Hof) as (_ & _ & OT & OE).
  rewrite !(minP_fold perm Hinj) by assumption.
  now rewrite !(fold_cube_op_ext _ _ _ _ aop_leaf_min).
Qed.

Lemma minExcept0_abstract_value_witness :
  (forall i j, identity_order i = identity_order j -> i = j)
  /\ quiet identity_order fresh_manager
  /\ addCheckPositiveCube (false, cube_of_var 0) = true
  /\ ordered identity_order (cube_of_var 0) = true
  /\ ordered identity_order f_zero_three = true
  /\ exists res m',
       Cudd_addMinExcept0Abstract identity_order f_zero_three
         (false, cube_of_var 0) fresh_manager = (Some res, m')
       /\ forall a : assignment,
            eval res a
            = aop_leaf Cudd_addMinimumExcept0
                (fold_cube Z.min (cube_vars DD_ONE) (eval (Const 0)) a)
                (fold_cube Z.min (cube_vars DD_ONE) (eval (Const 3)) a).
Proof.
  assert (Hinj : forall i j, identity_order i = identity_order j -> i = j)
    by (intros i j H; exact H).
  split; [exact Hinj |]. split; [exact quiet_fresh_manager |].
  split; [reflexivity |]. split; [reflexivity |]. split; [reflexivity |].
  apply (minExcept0_abstract_value identity_order 0 DD_ONE DD_ZERO
           (Const 0) (Const 3) fresh_manager Hinj quiet_fresh_manager
           eq_refl eq_refl eq_refl eq_refl).
Defined.
